(** * WebRtcGateway: the room and session coordinator of the signalling relay

    A shallow embedding of [src/webrtc.gateway.ts] (class [WebRtcGateway]).

    The gateway keeps five private maps ([userInfo], [roomHosts],
    [roomParticipants], [cleanupTimers], [connectionAttempts]) and talks to
    two collaborators: the socket.io server (connected sockets, rooms of
    the adapter, emit) and the Node timer queue ([setTimeout] /
    [clearTimeout]).
    Both collaborators are part of the state below, so that each handler is
    a total function from a state to a state and the list of messages it
    hands to the transport.

    Conventions of the embedding
    - a JS [Map] is a [gmap]; a JS [Set<string>] is a duplicate-free list in
      insertion order (iteration order and [values().next().value] depend
      on it);
    - [Date.now()] is an explicit argument [now : Z] (milliseconds);
    - an emitted message is recorded as a pair (receiving socket, message);
      [socket.emit] reaches that one socket, [server.to(x).emit] and
      [socket.to(x).emit] are expanded over the connected sockets that sit
      in the socket.io room [x] at that moment;
    - socket.io has one name space of rooms: every socket joins the room
      named by its own id when it connects, [join], [leave] and [to] apply
      to any room name, a room id chosen by a client included, and
      [socket.to(x)] leaves out every socket of the room named by the
      sender's id. *)

From stdpp Require Import base strings pretty list gmap.
From Stdlib Require Import ZArith Lia.

Local Open Scope Z_scope.

(** ** Data model *)

Module UserInfo.
Record t : Type := mk { roomId : string; userName : string; joinedAt : Z }.
End UserInfo.

Inductive MediaKind : Type := audio | video.

(** Events emitted by the gateway, with their payloads. *)
Inductive Message : Type :=
| waiting_for_approval
| join_request (userId userName : string)
| join_approved
| join_rejected
| existing_users (users : list (string * string))
| user_joined (userId userName : string)
| user_left (userId : string) (userName : option string)
| host_assigned (roomId : string)
| offer (from payload userName : string)
| answer (from payload : string)
| ice_candidate (from payload : string)
| media_status_update (userId : string) (kind : MediaKind) (isOn : bool)
| participant_screen_share (userId : string) (userName : option string)
                           (isSharing : bool).

(** One message delivered to one socket. *)
Definition Delivery : Type := string * Message.

Record State : Type := mkState {
  (* private fields of the gateway *)
  userInfo : gmap string UserInfo.t;
  roomHosts : gmap string string;
  roomParticipants : gmap string (list string);
  cleanupTimers : gmap string nat;
  connectionAttempts : gmap string (list Z);
  (* socket.io: server.sockets.sockets and server.sockets.adapter.rooms *)
  sockets : gset string;
  rooms : gmap string (list string);
  (* Node timer queue: handle -> (room id captured by the callback, deadline) *)
  timeouts : gmap nat (string * Z);
  nextTimeout : nat
}.

Definition initial : State :=
  mkState ∅ ∅ ∅ ∅ ∅ ∅ ∅ ∅ 0%nat.

Definition set_userInfo (f : gmap string UserInfo.t → gmap string UserInfo.t)
    (st : State) : State :=
  mkState (f (userInfo st)) (roomHosts st) (roomParticipants st)
          (cleanupTimers st) (connectionAttempts st) (sockets st) (rooms st)
          (timeouts st) (nextTimeout st).

Definition set_roomHosts (f : gmap string string → gmap string string)
    (st : State) : State :=
  mkState (userInfo st) (f (roomHosts st)) (roomParticipants st)
          (cleanupTimers st) (connectionAttempts st) (sockets st) (rooms st)
          (timeouts st) (nextTimeout st).

Definition set_roomParticipants
    (f : gmap string (list string) → gmap string (list string))
    (st : State) : State :=
  mkState (userInfo st) (roomHosts st) (f (roomParticipants st))
          (cleanupTimers st) (connectionAttempts st) (sockets st) (rooms st)
          (timeouts st) (nextTimeout st).

Definition set_cleanupTimers (f : gmap string nat → gmap string nat)
    (st : State) : State :=
  mkState (userInfo st) (roomHosts st) (roomParticipants st)
          (f (cleanupTimers st)) (connectionAttempts st) (sockets st)
          (rooms st) (timeouts st) (nextTimeout st).

Definition set_connectionAttempts
    (f : gmap string (list Z) → gmap string (list Z)) (st : State) : State :=
  mkState (userInfo st) (roomHosts st) (roomParticipants st)
          (cleanupTimers st) (f (connectionAttempts st)) (sockets st)
          (rooms st) (timeouts st) (nextTimeout st).

Definition set_sockets (f : gset string → gset string) (st : State) : State :=
  mkState (userInfo st) (roomHosts st) (roomParticipants st)
          (cleanupTimers st) (connectionAttempts st) (f (sockets st))
          (rooms st) (timeouts st) (nextTimeout st).

Definition set_rooms
    (f : gmap string (list string) → gmap string (list string))
    (st : State) : State :=
  mkState (userInfo st) (roomHosts st) (roomParticipants st)
          (cleanupTimers st) (connectionAttempts st) (sockets st)
          (f (rooms st)) (timeouts st) (nextTimeout st).

Definition set_timeouts
    (f : gmap nat (string * Z) → gmap nat (string * Z)) (st : State) : State :=
  mkState (userInfo st) (roomHosts st) (roomParticipants st)
          (cleanupTimers st) (connectionAttempts st) (sockets st) (rooms st)
          (f (timeouts st)) (nextTimeout st).

Definition set_nextTimeout (f : nat → nat) (st : State) : State :=
  mkState (userInfo st) (roomHosts st) (roomParticipants st)
          (cleanupTimers st) (connectionAttempts st) (sockets st) (rooms st)
          (timeouts st) (f (nextTimeout st)).

(** ** JavaScript values *)

(** [Set.prototype.add]: appends unless already present. *)
Definition Set_add (x : string) (s : list string) : list string :=
  if decide (x ∈ s) then s else s ++ [x].

(** [Set.prototype.delete]. *)
Definition Set_delete (x : string) (s : list string) : list string :=
  filter (λ y, y ≠ x) s.

(** Truthiness of a [string | undefined]: [undefined] and the empty string
    are falsy. *)
Definition truthy (o : option string) : bool :=
  match o with
  | Some s => negb (bool_decide (s = EmptyString))
  | None => false
  end.

(** [a || b] on [string | undefined]. *)
Definition js_or (a b : option string) : option string :=
  if truthy a then a else b.

(** The admitted members of a room, as the cache has them
    ([roomParticipants.get(roomId)], no entry meaning no member). *)
Definition members (st : State) (roomId : string) : list string :=
  default [] (roomParticipants st !! roomId).

(** ** Transport (socket.io) *)

(** The ids in the adapter's room [room] ([adapter.rooms.get(room)], no
    room meaning no socket). *)
Definition room_sockets (st : State) (roomId : string) : list string :=
  default [] (rooms st !! roomId).

(** [socket.emit(m)] on the socket with id [to]: that socket alone. *)
Definition emit (to : string) (m : Message) : list Delivery := [(to, m)].

(** [server.to(room).emit(m)]: every connected socket in the room, in the
    order of the room's set. *)
Definition server_to (st : State) (roomId : string) (m : Message)
    : list Delivery :=
  (λ sid, (sid, m))
    <$> filter (λ sid, sid ∈ sockets st) (room_sockets st roomId).

(** [client.to(roomId).emit(m)]: a broadcast to the room that leaves out
    the sockets of the room named by the sender's id (the operator is built
    with [except = {client.id}], and the adapter excludes every socket of
    an excepted room). *)
Definition broadcast (st : State) (roomId client : string) (m : Message)
    : list Delivery :=
  (λ sid, (sid, m))
    <$> filter (λ sid, sid ∉ room_sockets st client)
          (filter (λ sid, sid ∈ sockets st) (room_sockets st roomId)).

(** [client.join(roomId)]. *)
Definition socket_join (client roomId : string) (st : State) : State :=
  set_rooms (λ r, <[roomId := Set_add client (default [] (r !! roomId))]> r) st.

(** What the transport does when a socket connects, before the gateway's
    [handleConnection] runs: the socket is entered in the table of
    connected sockets and joins the room named by its own id. *)
Definition socket_open (client : string) (st : State) : State :=
  socket_join client client (set_sockets (λ s, {[client]} ∪ s) st).

(** [client.leave(roomId)]; the adapter drops a room that becomes empty. *)
Definition socket_leave (client roomId : string) (st : State) : State :=
  set_rooms (λ r,
    match r !! roomId with
    | None => r
    | Some s =>
        match Set_delete client s with
        | [] => delete roomId r
        | s' => <[roomId := s']> r
        end
    end) st.

(** What the transport does when a socket closes, before the gateway's
    [handleDisconnect] runs: the socket leaves every room and is removed
    from the table of connected sockets. *)
Definition socket_close (client : string) (st : State) : State :=
  set_sockets (λ s, s ∖ {[client]})
    (set_rooms (λ r, omap (λ s,
        match Set_delete client s with [] => None | s' => Some s' end) r) st).

(** ** Timer queue *)

Definition clearTimeout (h : nat) (st : State) : State :=
  set_timeouts (delete h) st.

(** [setTimeout(callback, delay)], the callback being the room cleanup
    closure over [roomId]; returns the fresh handle. *)
Definition setTimeout (roomId : string) (delay now : Z) (st : State)
    : nat * State :=
  let h := nextTimeout st in
  (h, set_nextTimeout S (set_timeouts (<[h := (roomId, now + delay)]>) st)).

(** ** The gateway's handlers *)

(** [handleConnection]: the rate limiter.  The result is [true] when the
    connection is kept and [false] when the gateway disconnects the client
    ([client.disconnect()]): the socket leaves its rooms and the table of
    connected sockets.  [handleDisconnect] does not run for it, the
    disconnect listener being attached only after [handleConnection]
    returns. *)
Definition handleConnection (client ip : string) (now : Z) (st : State)
    : State * bool :=
  let attempts : list Z := default [] (connectionAttempts st !! ip) in
  let recentAttempts := filter (λ time, now - time < 60000) attempts in
  if (50 <? List.length recentAttempts)%nat then
    (socket_close client st, false)
  else
    (set_connectionAttempts (<[ip := recentAttempts ++ [now]]>) st, true).

Definition joinRoom (client roomId userName : string) (st : State)
    : State * list Delivery :=
  let participants : list string :=
    default [] (roomParticipants st !! roomId) in
  let existingUsers : list (string * string) :=
    omap (λ socketId,
      match userInfo st !! socketId with
      | Some userInfoData =>
          if decide (socketId ≠ client)
          then Some (socketId, UserInfo.userName userInfoData)
          else None
      | None => None
      end) participants in
  let st1 := socket_join client roomId st in
  let st2 :=
    set_roomParticipants (<[roomId := Set_add client participants]>) st1 in
  (st2,
   (match existingUsers with
    | [] => []
    | _ :: _ => emit client (existing_users existingUsers)
    end)
   ++ broadcast st2 roomId client (user_joined client userName)).

(** The guard [existingUser && existingUser.roomId === roomId]. *)
Definition alreadyJoined (client roomId : string) (st : State) : bool :=
  match userInfo st !! client with
  | Some existingUser => bool_decide (UserInfo.roomId existingUser = roomId)
  | None => false
  end.

Definition handleJoin (client roomId userName : string) (now : Z) (st : State)
    : State * list Delivery :=
  if alreadyJoined client roomId st then (st, [])
  else
    let st1 :=
      set_userInfo (<[client := UserInfo.mk roomId userName now]>) st in
    let participants := roomParticipants st1 !! roomId in
    let numClients := from_option List.length 0%nat participants in
    if (numClients =? 0)%nat then
      joinRoom client roomId userName
               (set_roomHosts (<[roomId := client]>) st1)
    else
      let hostId := roomHosts st1 !! roomId in
      let targetHostId := js_or hostId (participants ≫= head) in
      if truthy targetHostId then
        (st1,
         emit client waiting_for_approval
         ++ server_to st1 (default EmptyString targetHostId)
              (join_request client userName))
      else
        joinRoom client roomId userName st1.

Definition handleAdmit (client userId roomId : string) (st : State)
    : State * list Delivery :=
  let hostId := roomHosts st !! roomId in
  if decide (hostId ≠ Some client) then (st, [])
  else if decide (userId ∈ sockets st) then
    match userInfo st !! userId with
    | Some userInfo =>
        let '(st1, out) :=
          joinRoom userId roomId (UserInfo.userName userInfo) st in
        (st1, out ++ emit userId join_approved)
    | None => (st, [])
    end
  else (st, []).

Definition handleReject (client userId roomId : string) (st : State)
    : State * list Delivery :=
  let hostId := roomHosts st !! roomId in
  if decide (hostId ≠ Some client) then (st, [])
  else if decide (userId ∈ sockets st) then
    (set_userInfo (delete userId) st, emit userId join_rejected)
  else (st, []).

Definition handleOffer (client to payload userName : string) (st : State)
    : State * list Delivery :=
  (st, server_to st to (offer client payload userName)).

Definition handleAnswer (client to payload : string) (st : State)
    : State * list Delivery :=
  (st, server_to st to (answer client payload)).

Definition handleIce (client to payload : string) (st : State)
    : State * list Delivery :=
  (st, server_to st to (ice_candidate client payload)).

Definition handleMediaToggle (client roomId : string) (kind : MediaKind)
    (isOn : bool) (st : State) : State * list Delivery :=
  (st, broadcast st roomId client (media_status_update client kind isOn)).

Definition handleScreenShareStatus (client roomId : string) (isSharing : bool)
    (st : State) : State * list Delivery :=
  (st, broadcast st roomId client
         (participant_screen_share client
            (UserInfo.userName <$> userInfo st !! client) isSharing)).

(** The body of the closure armed by [scheduleRoomCleanup]. *)
Definition roomCleanup (roomId : string) (st : State) : State :=
  match roomParticipants st !! roomId with
  | Some (_ :: _) => st
  | _ =>
      set_cleanupTimers (delete roomId)
        (set_roomHosts (delete roomId)
           (set_roomParticipants (delete roomId) st))
  end.

Definition scheduleRoomCleanup (roomId : string) (now : Z) (st : State)
    : State :=
  let st1 :=
    match cleanupTimers st !! roomId with
    | Some existingTimer => clearTimeout existingTimer st
    | None => st
    end in
  let '(timer, st2) := setTimeout roomId 30000 now st1 in
  set_cleanupTimers (<[roomId := timer]>) st2.

Definition handleUserLeave (client roomId : string) (now : Z) (st : State)
    : State * list Delivery :=
  let userInfoData := userInfo st !! client in
  (* [participants] is the Set object after [participants.delete(client.id)] *)
  let participants := Set_delete client <$> roomParticipants st !! roomId in
  let st1 :=
    match participants with
    | None => st
    | Some [] => set_roomParticipants (delete roomId) st
    | Some p => set_roomParticipants (<[roomId := p]>) st
    end in
  let st2 := socket_leave client roomId st1 in
  let out1 :=
    broadcast st2 roomId client
      (user_left client (UserInfo.userName <$> userInfoData)) in
  let st3 := set_userInfo (delete client) st2 in
  let '(st4, out2) :=
    if decide (roomHosts st3 !! roomId = Some client) then
      match participants with
      | Some (newHostId :: _) =>
          (set_roomHosts (<[roomId := newHostId]>) st3,
           server_to st3 newHostId (host_assigned roomId))
      | _ => (set_roomHosts (delete roomId) st3, [])
      end
    else (st3, []) in
  (scheduleRoomCleanup roomId now st4, out1 ++ out2).

Definition handleLeave (client roomId : string) (now : Z) (st : State)
    : State * list Delivery :=
  handleUserLeave client roomId now st.

Definition cleanupConnectionTracking (now : Z) (st : State) : State :=
  let oneHourAgo := now - 3600000 in
  set_connectionAttempts
    (omap (λ attempts : list Z,
       match filter (λ time, oneHourAgo < time) attempts with
       | [] => None
       | recentAttempts => Some recentAttempts
       end)) st.

Definition handleDisconnect (client : string) (now : Z) (st : State)
    : State * list Delivery :=
  let '(st1, out) :=
    match userInfo st !! client with
    | Some userInfoData =>
        handleUserLeave client (UserInfo.roomId userInfoData) now st
    | None => (st, [])
    end in
  (cleanupConnectionTracking now st1, out).

(** ** Inputs and reachable states *)

(** What the outside world can do to the gateway: a socket connects, a
    connected socket sends one of the subscribed messages, a socket closes,
    an armed timeout fires. *)
Inductive Input : Type :=
| connect (client ip : string) (now : Z)
| join_room (client roomId userName : string) (now : Z)
| admit_user (client userId roomId : string)
| reject_user (client userId roomId : string)
| send_offer (client to payload userName : string)
| send_answer (client to payload : string)
| send_ice_candidate (client to payload : string)
| leave_room (client roomId : string) (now : Z)
| toggle_media (client roomId : string) (kind : MediaKind) (isOn : bool)
| screen_share_status (client roomId : string) (isSharing : bool)
| disconnect (client : string) (now : Z)
| timeout (handle : nat) (now : Z).

(** Firing an armed timeout removes it from the queue and runs its closure. *)
Definition fireTimeout (handle : nat) (st : State) : State :=
  match timeouts st !! handle with
  | Some (roomId, _) => roomCleanup roomId (clearTimeout handle st)
  | None => st
  end.

Definition step (st : State) (i : Input) : State * list Delivery :=
  match i with
  | connect client ip now =>
      (fst (handleConnection client ip now (socket_open client st)), [])
  | join_room client roomId userName now =>
      handleJoin client roomId userName now st
  | admit_user client userId roomId => handleAdmit client userId roomId st
  | reject_user client userId roomId => handleReject client userId roomId st
  | send_offer client to payload userName =>
      handleOffer client to payload userName st
  | send_answer client to payload => handleAnswer client to payload st
  | send_ice_candidate client to payload => handleIce client to payload st
  | leave_room client roomId now => handleLeave client roomId now st
  | toggle_media client roomId kind isOn =>
      handleMediaToggle client roomId kind isOn st
  | screen_share_status client roomId isSharing =>
      handleScreenShareStatus client roomId isSharing st
  | disconnect client now => handleDisconnect client now (socket_close client st)
  | timeout handle _ => (fireTimeout handle st, [])
  end.

(** The transport never hands out a socket id twice: the id of a new socket
    is not that of an open socket and occurs in no member set. *)
Definition fresh_socket (client : string) (st : State) : Prop :=
(client ∉ sockets st) ∧
  map_Forall (λ _ participants, client ∉ participants) (roomParticipants st).

#[global] Instance fresh_socket_dec client st : Decision (fresh_socket client st).
Proof. unfold fresh_socket. apply _. Defined.

(** When the transport can deliver an input: socket ids are non-empty and
    never reused, messages come from open sockets, and a timeout fires only
    once armed and due. *)
Definition enabled (st : State) (i : Input) : bool :=
  match i with
  | connect client _ _ =>
      bool_decide (client ≠ EmptyString) && bool_decide (fresh_socket client st)
  | join_room client _ _ _
  | admit_user client _ _
  | reject_user client _ _
  | send_offer client _ _ _
  | send_answer client _ _
  | send_ice_candidate client _ _
  | leave_room client _ _
  | toggle_media client _ _ _
  | screen_share_status client _ _
  | disconnect client _ => bool_decide (client ∈ sockets st)
  | timeout handle now =>
      match timeouts st !! handle with
      | Some (_, deadline) => bool_decide (deadline ≤ now)
      | None => false
      end
  end.

Inductive reachable : State → Prop :=
| reachable_initial : reachable initial
| reachable_step st i :
    reachable st → enabled st i = true → reachable (fst (step st i)).

(** Running a list of inputs; [None] when one of them is not enabled. *)
Fixpoint run (st : State) (inputs : list Input) : option State :=
  match inputs with
  | [] => Some st
  | i :: inputs' =>
      if enabled st i then run (fst (step st i)) inputs' else None
  end.

(** Running inputs without asking whether they are enabled (the handlers
    are total). *)
Definition exec (st : State) (inputs : list Input) : State :=
  foldl (λ s i, fst (step s i)) st inputs.

(** ** Properties of a state *)

(** A recorded host is a member of its room. *)
Definition host_is_member (st : State) : Prop :=
  ∀ roomId h, roomHosts st !! roomId = Some h → h ∈ members st roomId.

(** A room with members has a recorded host. *)
Definition members_have_host (st : State) : Prop :=
  ∀ roomId, members st roomId ≠ [] → is_Some (roomHosts st !! roomId).

(** The socket.io room named by a room id holds connected sockets only:
    the members of the room whose socket is open and, besides them, at
    most the socket whose own id is the room id. *)
Definition transport_mirrors_members (st : State) : Prop :=
  ∀ roomId sid,
    (sid ∈ members st roomId → sid ∈ sockets st →
     sid ∈ room_sockets st roomId) ∧
    (sid ∈ room_sockets st roomId →
     sid ∈ sockets st ∧ (sid = roomId ∨ sid ∈ members st roomId)).

(** Every armed timeout is the one its room's [cleanupTimers] entry holds,
    and handles below [nextTimeout] are the only ones in use. *)
Definition timeouts_indexed (st : State) : Prop :=
  ∀ h roomId deadline,
    timeouts st !! h = Some (roomId, deadline) →
    cleanupTimers st !! roomId = Some h ∧ (h < nextTimeout st)%nat.

(** At most one armed cleanup task per room. *)
Definition one_cleanup_per_room (st : State) : Prop :=
  ∀ h1 h2 roomId d1 d2,
    timeouts st !! h1 = Some (roomId, d1) →
    timeouts st !! h2 = Some (roomId, d2) → h1 = h2.

(** No session is in the member sets of two distinct rooms. *)
Definition at_most_one_room (st : State) : Prop :=
  ∀ s R1 R2, s ∈ members st R1 → s ∈ members st R2 → R1 = R2.

(** ** The rate limiter on a sequence of attempts *)

(** The attempt timestamps the limiter holds for an origin. *)
Definition recorded (st : State) (ip : string) : list Z :=
  default [] (connectionAttempts st !! ip).

(** The decisions of [handleConnection] on successive connections
    (socket id, time) from one origin, in order. *)
Fixpoint admissions (ip : string) (attempts : list (string * Z)) (st : State)
    : list bool :=
  match attempts with
  | [] => []
  | (client, now) :: rest =>
      let r := handleConnection client ip now (socket_open client st) in
      snd r :: admissions ip rest (fst r)
  end.

(** [n] connections from sockets named after [0 .. n-1], all at time [now]. *)
Definition burst (n : nat) (now : Z) : list (string * Z) :=
  (λ k, (pretty k, now)) <$> seq 0 n.

(** ** Joining one room at a time *)

(** Session [sid] is in no member set other than that of [roomId]. *)
Definition in_no_other_room (sid roomId : string) (st : State) : Prop :=
  map_Forall (λ R participants, R = roomId ∨ sid ∉ participants)
             (roomParticipants st).

#[global] Instance in_no_other_room_dec sid roomId st :
  Decision (in_no_other_room sid roomId st).
Proof. unfold in_no_other_room. apply _. Defined.

(** The session that an input adds to a member set, with the room: the
    sender of a join-room, or the session named in an admit-user, when the
    input puts it into a member set it was not in.  A join-room that only
    leaves its sender waiting, and an admit-user that is dropped, add
    nobody. *)
Definition added_member (st : State) (i : Input) : option (string * string) :=
  match i with
  | join_room sid roomId _ _ | admit_user _ sid roomId =>
      if decide ((sid ∉ members st roomId)
                 ∧ sid ∈ members (fst (step st i)) roomId)
      then Some (sid, roomId) else None
  | _ => None
  end.

(** The session that the input adds to a member set, if any, is in no
    other room at that moment. *)
Definition one_room_at_a_time (st : State) (i : Input) : bool :=
  match added_member st i with
  | Some (sid, roomId) => bool_decide (in_no_other_room sid roomId st)
  | None => true
  end.

(** The states reached when every input respects [one_room_at_a_time]. *)
Inductive reachable_one_room : State → Prop :=
| reachable_one_room_initial : reachable_one_room initial
| reachable_one_room_step st i :
    reachable_one_room st → enabled st i = true →
    one_room_at_a_time st i = true →
    reachable_one_room (fst (step st i)).

Fixpoint run_one_room (st : State) (inputs : list Input) : option State :=
  match inputs with
  | [] => Some st
  | i :: inputs' =>
      if enabled st i && one_room_at_a_time st i
      then run_one_room (fst (step st i)) inputs'
      else None
  end.

(** ** Concrete scenarios

    Small runs from the initial state. *)

(** Alice and Bob are connected; nobody has joined anything. *)
Definition scenario_connected : list Input :=
  [connect "A" "10.0.0.1" 0; connect "B" "10.0.0.2" 1].

(** Alice opens room R and admits Bob. *)
Definition scenario_two_members : list Input :=
  [connect "A" "10.0.0.1" 0; connect "B" "10.0.0.2" 1;
   join_room "A" "R" "alice" 2; join_room "B" "R" "bob" 3;
   admit_user "A" "B" "R"].

(** Carol is connected but has joined nothing; Alice and Bob are in R. *)
Definition scenario_bystander : list Input :=
  [connect "A" "10.0.0.1" 0; connect "B" "10.0.0.2" 1;
   connect "C" "10.0.0.3" 2;
   join_room "A" "R" "alice" 3; join_room "B" "R" "bob" 4;
   admit_user "A" "B" "R"].

(** Alice hosts R; Bob hosts S and has admitted Carol to S. *)
Definition scenario_two_rooms : list Input :=
  [connect "A" "10.0.0.1" 0; connect "B" "10.0.0.2" 1;
   connect "C" "10.0.0.3" 2;
   join_room "A" "R" "alice" 3; join_room "B" "S" "bob" 4;
   join_room "C" "S" "carol" 5; admit_user "B" "C" "S"].

(** Alice opens room R and leaves it: the room is empty and its cleanup is
    armed. *)
Definition scenario_emptied : list Input :=
  [connect "A" "10.0.0.1" 0; connect "B" "10.0.0.2" 1;
   join_room "A" "R" "alice" 2; leave_room "A" "R" 3].

(** Alice opens room R, leaves it and opens it again before its cleanup
    task fires: the task armed by her first leave is still armed. *)
Definition scenario_reopened : list Input :=
  [connect "A" "10.0.0.1" 0; connect "B" "10.0.0.2" 1;
   join_room "A" "R" "alice" 2; leave_room "A" "R" 3;
   join_room "A" "R" "alice" 4].

(** Alice opens room R1 and then room R2 without leaving R1. *)
Definition scenario_two_joins : list Input :=
  [connect "A" "10.0.0.1" 0; join_room "A" "R1" "alice" 1;
   join_room "A" "R2" "alice" 2].


(** Alice hosts R1 and Bob hosts R2; Alice, still in R1, asks to join R2
    and is left waiting: the request adds her to no member set. *)
Definition scenario_asks_elsewhere : list Input :=
  [connect "A" "10.0.0.1" 0; connect "B" "10.0.0.2" 1;
   join_room "A" "R1" "alice" 2; join_room "B" "R2" "bob" 3;
   join_room "A" "R2" "alice" 4].

(** Alice sends leave-room for the room named by her own socket id, then
    opens room R. *)
Definition scenario_left_own_room : list Input :=
  [connect "A" "10.0.0.1" 0; leave_room "A" "A" 1;
   join_room "A" "R" "alice" 2].

(** Alice opens the room whose id is the socket id of Sam, who is
    connected. *)
Definition scenario_room_named_after_socket : list Input :=
  [connect "A" "10.0.0.1" 0; connect "S" "10.0.0.2" 1;
   join_room "A" "S" "alice" 2].

(** A state that no run produces: room R has two members and no recorded
    host. *)
Definition hostless_state : State :=
  mkState {[ "A" := UserInfo.mk "R" "alice" 0; "B" := UserInfo.mk "R" "bob" 1 ]}
          ∅ {[ "R" := ["A"; "B"] ]} ∅ ∅ {[ "A"; "B"; "C" ]}
          {[ "A" := ["A"]; "B" := ["B"]; "C" := ["C"]; "R" := ["A"; "B"] ]}
          ∅ 0%nat.

(** A state that no run produces: the record of room R is still there (an
    empty member set, a host pointer) with its cleanup task armed. *)
Definition abandoned_room_state : State :=
  mkState ∅ {[ "R" := "A" ]} {[ "R" := [] ]} {[ "R" := 0%nat ]} ∅ ∅ ∅
          {[ 0%nat := ("R", 30000) ]} 1%nat.

(** ** Further properties of a state *)

(** No empty member set is kept in [roomParticipants]. *)
Definition no_empty_room (st : State) : Prop :=
  ∀ roomId participants,
    roomParticipants st !! roomId = Some participants → participants ≠ [].

(** Socket ids are non-empty strings, in the socket table and in the member
    sets. *)
Definition ids_nonempty (st : State) : Prop :=
  (EmptyString ∉ sockets st) ∧ ∀ roomId, EmptyString ∉ members st roomId.

(** Only open sockets have a presence entry. *)
Definition presence_is_open (st : State) : Prop :=
  ∀ sid, is_Some (userInfo st !! sid) → sid ∈ sockets st.

(** No origin holds an empty list of attempts or more than 51 of them. *)
Definition attempts_bounded (st : State) : Prop :=
  ∀ ip attempts,
    connectionAttempts st !! ip = Some attempts →
    attempts ≠ [] ∧ (List.length attempts ≤ 51)%nat.

(** The session a notification is about, for the notifications that tell a
    room what one of its sessions did. *)
Definition subject (m : Message) : option string :=
  match m with
  | user_joined userId _ => Some userId
  | user_left userId _ => Some userId
  | media_status_update userId _ _ => Some userId
  | participant_screen_share userId _ _ => Some userId
  | _ => None
  end.

(** ** Clients that follow the protocol *)

(** Session [sid] is in no member set. *)
Definition in_no_room (sid : string) (st : State) : Prop :=
  map_Forall (λ _ participants, sid ∉ participants) (roomParticipants st).

#[global] Instance in_no_room_dec sid st : Decision (in_no_room sid st).
Proof. unfold in_no_room. apply _. Defined.

(** Every member of a room has a presence entry naming that room. *)
Definition presence_consistent (st : State) : Prop :=
  ∀ roomId sid,
    sid ∈ members st roomId →
    UserInfo.roomId <$> userInfo st !! sid = Some roomId.

(** What the gateway does not check and a well-behaved client respects: a
    session joins only while it is in no room; a host admits a session only
    into the room its presence entry names, and rejects only a session
    that is in no room; a session sends leave-room only for the room it is
    in, if any. *)
Definition follows_protocol (st : State) (i : Input) : bool :=
  match i with
  | join_room client _ _ _ => bool_decide (in_no_room client st)
  | admit_user _ userId roomId =>
      match userInfo st !! userId with
      | Some info => bool_decide (UserInfo.roomId info = roomId)
      | None => true
      end
  | reject_user _ userId _ => bool_decide (in_no_room userId st)
  | leave_room client roomId _ =>
      bool_decide (in_no_other_room client roomId st)
  | _ => true
  end.

(** The states reached when every input follows the protocol. *)
Inductive reachable_by_protocol : State → Prop :=
| reachable_by_protocol_initial : reachable_by_protocol initial
| reachable_by_protocol_step st i :
    reachable_by_protocol st → enabled st i = true →
    follows_protocol st i = true →
    reachable_by_protocol (fst (step st i)).

Fixpoint run_by_protocol (st : State) (inputs : list Input) : option State :=
  match inputs with
  | [] => Some st
  | i :: inputs' =>
      if enabled st i && follows_protocol st i
      then run_by_protocol (fst (step st i)) inputs'
      else None
  end.

(** Alice opens R and admits Bob; Carol asks to join and is rejected; Alice
    disconnects, which makes Bob the host; Dave asks to join and Bob admits
    him. *)
Definition scenario_by_the_book : list Input :=
  [connect "A" "10.0.0.1" 0; connect "B" "10.0.0.2" 1;
   connect "C" "10.0.0.3" 2; connect "D" "10.0.0.4" 2;
   join_room "A" "R" "alice" 3; join_room "B" "R" "bob" 4;
   admit_user "A" "B" "R"; join_room "C" "R" "carol" 6;
   reject_user "A" "C" "R"; disconnect "A" 8;
   join_room "D" "R" "dave" 9; admit_user "B" "D" "R"].

(** ** Cleanup bookkeeping *)

(** The handle kept in [cleanupTimers] for a room was issued for that room:
    it is below [nextTimeout], and if it is still armed, it is armed for
    that room. *)
Definition handles_belong (st : State) : Prop :=
  ∀ roomId h,
    cleanupTimers st !! roomId = Some h →
    (h < nextTimeout st)%nat ∧
    ∀ R deadline, timeouts st !! h = Some (R, deadline) → R = roomId.

(** A room keeps a [cleanupTimers] entry only while its task is armed or
    while it has members. *)
Definition entries_accounted (st : State) : Prop :=
  ∀ roomId h,
    cleanupTimers st !! roomId = Some h →
    is_Some (timeouts st !! h) ∨ members st roomId ≠ [].


(** ** Relayed messages *)

(** The messages that the relay handlers forward. *)
Definition relayed (m : Message) : bool :=
  match m with
  | offer _ _ _ | answer _ _ | ice_candidate _ _ => true
  | _ => false
  end.

(** The relay request that a forwarded message stems from, given the
    destination [to] named in the request: it comes from the session in the
    [from] field of the message and carries the same payload. *)
Definition relay_origin (to : string) (m : Message) : option Input :=
  match m with
  | offer from payload userName =>
      Some (send_offer from to payload userName)
  | answer from payload => Some (send_answer from to payload)
  | ice_candidate from payload =>
      Some (send_ice_candidate from to payload)
  | _ => None
  end.
(** ** Elementary facts *)

(** Settles a closed decidable proposition by evaluating its decision
    procedure. *)
Ltac decide_by_compute :=
  match goal with
  | |- ?P => apply (bool_decide_unpack P); vm_compute; exact I
  end.

Section SetFacts.
Implicit Types (x y : string) (s : list string).

Lemma elem_of_Set_add x y s : x ∈ Set_add y s ↔ x = y ∨ x ∈ s.
Proof.
  unfold Set_add. case_decide as Hy.
  - split; [auto | intros [-> | ?]; done].
  - rewrite elem_of_app, list_elem_of_singleton. tauto.
Qed.

Lemma elem_of_Set_delete x y s : x ∈ Set_delete y s ↔ x ≠ y ∧ x ∈ s.
Proof. unfold Set_delete. by rewrite list_elem_of_filter. Qed.

Lemma Set_delete_notin x s : x ∉ s → Set_delete x s = s.
Proof.
  intros Hx. unfold Set_delete. induction s as [|y s IH]; [done|].
  rewrite filter_cons. apply not_elem_of_cons in Hx as [Hne Hx].
  case_decide; [by rewrite IH | congruence].
Qed.

Lemma NoDup_Set_add x s : NoDup s → NoDup (Set_add x s).
Proof.
  intros Hs. unfold Set_add. case_decide as Hx; [done|].
  apply NoDup_app. split_and!; [done | | apply NoDup_singleton].
  intros y Hy ->%list_elem_of_singleton. done.
Qed.

Lemma NoDup_Set_delete x s : NoDup s → NoDup (Set_delete x s).
Proof. apply NoDup_filter. Qed.
End SetFacts.

Lemma truthy_Some (s : string) : s ≠ EmptyString → truthy (Some s) = true.
Proof. intros Hs. unfold truthy. by rewrite bool_decide_eq_false_2. Qed.

Lemma alreadyJoined_true client roomId st u :
  userInfo st !! client = Some u → UserInfo.roomId u = roomId →
  alreadyJoined client roomId st = true.
Proof.
  intros Hu Hr. unfold alreadyJoined. rewrite Hu. by apply bool_decide_eq_true_2.
Qed.

Lemma handleAdmit_not_host client userId roomId st :
  roomHosts st !! roomId ≠ Some client →
  handleAdmit client userId roomId st = (st, []).
Proof. intros Hh. unfold handleAdmit. by rewrite decide_True. Qed.

Lemma handleReject_not_host client userId roomId st :
  roomHosts st !! roomId ≠ Some client →
  handleReject client userId roomId st = (st, []).
Proof. intros Hh. unfold handleReject. by rewrite decide_True. Qed.

Lemma run_reachable inputs : ∀ st st',
  reachable st → run st inputs = Some st' → reachable st'.
Proof.
  induction inputs as [|i inputs IH]; intros st st' Hst Hrun; simpl in Hrun.
  - by inversion Hrun; subst.
  - destruct (enabled st i) eqn:Hen; [|done].
    eapply IH; [|exact Hrun]. by apply reachable_step.
Qed.

(** ** Authorization of admit-user and reject-user *)

(** C4. When room [roomId] has a recorded host [h], an admit-user or a
    reject-user for that room sent by any other session [c] returns the
    state as it was (presence table, member sets and host map included) and
    emits nothing. *)
Theorem non_host_admit_reject_dropped st roomId h c u :
  roomHosts st !! roomId = Some h → c ≠ h →
  handleAdmit c u roomId st = (st, []) ∧
  handleReject c u roomId st = (st, []).
Proof.
  intros Hh Hc. split.
  - apply handleAdmit_not_host. rewrite Hh. congruence.
  - apply handleReject_not_host. rewrite Hh. congruence.
Qed.

Lemma non_host_admit_reject_dropped_witness :
  let st := exec initial scenario_two_rooms in
  roomHosts st !! "S" = Some "B" ∧ "A" ≠ "B" ∧
  handleAdmit "A" "C" "S" st = (st, []) ∧
  handleReject "A" "C" "S" st = (st, []).
Proof.
  intros st.
  assert (Hh : roomHosts st !! "S" = Some "B") by (vm_compute; reflexivity).
  assert (Hc : "A" ≠ "B") by discriminate.
  split; [exact Hh|]. split; [exact Hc|].
  exact (non_host_admit_reject_dropped st "S" "B" "A" "C" Hh Hc).
Defined.

(** C8. In a state where room [roomId] has members but no recorded host, a
    join request is routed to the first member [m] of the room (through
    [server.to(m)], the socket.io room named by the id of [m]), and every
    admit-user for the room, from [m] or from anyone else, is dropped with
    no state change, before and after that join request: hostId is
    undefined and never equals a session id. *)
Theorem hostless_room_never_admits st roomId m ms :
  roomHosts st !! roomId = None → members st roomId = m :: ms →
  (∀ c u, handleAdmit c u roomId st = (st, [])) ∧
  (∀ b userName now,
     m ≠ EmptyString → alreadyJoined b roomId st = false →
     let st' :=
       set_userInfo (<[b := UserInfo.mk roomId userName now]>) st in
     handleJoin b roomId userName now st
       = (st', emit b waiting_for_approval
               ++ server_to st' m (join_request b userName)) ∧
     members st' roomId = m :: ms ∧
     ∀ c u, handleAdmit c u roomId st' = (st', [])).
Proof.
  intros Hh Hm. split.
  - intros c u. apply handleAdmit_not_host. by rewrite Hh.
  - intros b userName now Hne Hdup st'. split_and!.
    + unfold handleJoin. rewrite Hdup. fold st'.
      unfold members in Hm. simpl.
      destruct (roomParticipants st !! roomId) as [l|] eqn:Hl; [|done].
      simpl in Hm. subst l. simpl. rewrite Hh.
      change (js_or None (Some m)) with (Some m).
      by rewrite truthy_Some.
    + done.
    + intros c u. apply handleAdmit_not_host. simpl. by rewrite Hh.
Qed.

Lemma hostless_room_never_admits_witness :
  roomHosts hostless_state !! "R" = None ∧
  members hostless_state "R" = ["A"; "B"] ∧
  (∀ c u, handleAdmit c u "R" hostless_state = (hostless_state, [])) ∧
  (∀ b userName now,
     "A" ≠ EmptyString → alreadyJoined b "R" hostless_state = false →
     let st' :=
       set_userInfo (<[b := UserInfo.mk "R" userName now]>) hostless_state in
     handleJoin b "R" userName now hostless_state
       = (st', [(b, waiting_for_approval); ("A", join_request b userName)]) ∧
     members st' "R" = ["A"; "B"] ∧
     ∀ c u, handleAdmit c u "R" st' = (st', [])).
Proof.
  assert (Hh : roomHosts hostless_state !! "R" = None)
    by (vm_compute; reflexivity).
  assert (Hm : members hostless_state "R" = ["A"; "B"])
    by (vm_compute; reflexivity).
  split; [exact Hh|]. split; [exact Hm|].
  exact (hostless_room_never_admits hostless_state "R" "A" ["B"] Hh Hm).
Defined.

(** C9. When [h] is the recorded host of [roomId] and [u] is any connected
    session, reject-user(u, roomId) from [h] deletes the presence entry of
    [u] and sends [u] join-rejected, whatever room that entry named; the
    member sets are not touched, so a member [u] of another room stays in
    that room's member set without a presence entry. *)
Theorem host_reject_ignores_applicant_room st roomId h u :
  roomHosts st !! roomId = Some h → u ∈ sockets st →
  let st' := set_userInfo (delete u) st in
  handleReject h u roomId st = (st', [(u, join_rejected)]) ∧
  userInfo st' !! u = None ∧
  roomHosts st' = roomHosts st ∧
  ∀ S, members st' S = members st S.
Proof.
  intros Hh Hu st'. split_and!.
  - unfold handleReject. rewrite decide_False by (rewrite Hh; auto).
    by rewrite decide_True.
  - simpl. apply lookup_delete_eq.
  - done.
  - done.
Qed.

Lemma host_reject_ignores_applicant_room_witness :
  let st := exec initial scenario_two_rooms in
  let st' := set_userInfo (delete "C") st in
  (roomHosts st !! "R" = Some "A" ∧ "C" ∈ sockets st ∧
   UserInfo.roomId <$> userInfo st !! "C" = Some "S" ∧ "C" ∈ members st "S") ∧
  handleReject "A" "C" "R" st = (st', [("C", join_rejected)]) ∧
  userInfo st' !! "C" = None ∧
  roomHosts st' = roomHosts st ∧
  ∀ S, members st' S = members st S.
Proof.
  intros st st'.
  assert (Hh : roomHosts st !! "R" = Some "A") by (vm_compute; reflexivity).
  assert (Hu : "C" ∈ sockets st)
    by decide_by_compute.
  split.
  - split; [exact Hh|]. split; [exact Hu|].
    split; [vm_compute; reflexivity|].
    decide_by_compute.
  - exact (host_reject_ignores_applicant_room st "R" "A" "C" Hh Hu).
Defined.

(** ** Duplicate join *)

(** C5. A join-room for [roomId] from a session whose presence entry
    already names [roomId] returns the state as it was, so the entry (its
    joinedAt included) is the one that was there, and emits nothing. *)
Theorem duplicate_join_is_noop st s roomId userName now u :
  userInfo st !! s = Some u → UserInfo.roomId u = roomId →
  handleJoin s roomId userName now st = (st, []) ∧
  userInfo (fst (handleJoin s roomId userName now st)) !! s = Some u.
Proof.
  intros Hu Hr.
  assert (H : handleJoin s roomId userName now st = (st, [])).
  { unfold handleJoin. by rewrite (alreadyJoined_true _ _ _ _ Hu Hr). }
  by rewrite H.
Qed.

Lemma duplicate_join_is_noop_witness :
  let st := exec initial scenario_two_members in
  userInfo st !! "B" = Some (UserInfo.mk "R" "bob" 3) ∧
  handleJoin "B" "R" "bob" 9 st = (st, []) ∧
  userInfo (fst (handleJoin "B" "R" "bob" 9 st)) !! "B"
    = Some (UserInfo.mk "R" "bob" 3).
Proof.
  intros st.
  assert (Hu : userInfo st !! "B" = Some (UserInfo.mk "R" "bob" 3))
    by (vm_compute; reflexivity).
  split; [exact Hu|].
  exact (duplicate_join_is_noop st "B" "R" "bob" 9 _ Hu eq_refl).
Defined.

(** ** What each handler does to the gateway's tables *)

Arguments joinRoom : simpl never.
Arguments handleUserLeave : simpl never.
Arguments scheduleRoomCleanup : simpl never.

Lemma members_insert st roomId l R f :
  roomParticipants st = <[roomId := l]> f →
  members st R = if decide (R = roomId) then l else default [] (f !! R).
Proof.
  intros H. unfold members. rewrite H. case_decide as HR.
  - subst. by rewrite lookup_insert_eq.
  - by rewrite lookup_insert_ne.
Qed.

Lemma joinRoom_state client roomId userName st :
  fst (joinRoom client roomId userName st)
  = set_roomParticipants
      (<[roomId := Set_add client (members st roomId)]>)
      (socket_join client roomId st).
Proof. reflexivity. Qed.

Lemma joinRoom_members client roomId userName st R :
  members (fst (joinRoom client roomId userName st)) R
  = if decide (R = roomId) then Set_add client (members st roomId)
    else members st R.
Proof. rewrite joinRoom_state. by apply members_insert. Qed.

Lemma scheduleRoomCleanup_state roomId now st :
  scheduleRoomCleanup roomId now st
  = set_cleanupTimers (<[roomId := nextTimeout st]>)
      (set_nextTimeout S
         (set_timeouts
            (λ t, <[nextTimeout st := (roomId, now + 30000)]>
                    (match cleanupTimers st !! roomId with
                     | Some existingTimer => delete existingTimer t
                     | None => t
                     end)) st)).
Proof.
  unfold scheduleRoomCleanup. by destruct (cleanupTimers st !! roomId).
Qed.

Lemma socket_leave_rooms client roomId st R :
  room_sockets (socket_leave client roomId st) R
  = if decide (R = roomId)
    then Set_delete client (room_sockets st roomId)
    else room_sockets st R.
Proof.
  unfold socket_leave, room_sockets. simpl.
  destruct (rooms st !! roomId) as [s|] eqn:Hs; simpl.
  - destruct (Set_delete client s) as [|x s'] eqn:Hd; case_decide; subst;
      rewrite ?lookup_delete_eq, ?lookup_insert_eq, ?lookup_delete_ne,
        ?lookup_insert_ne by done; done.
  - case_decide; subst; rewrite ?Hs; done.
Qed.

(** Case analysis on the branches of [handleUserLeave]. *)
Ltac leave_cases st roomId client :=
  unfold handleUserLeave, members;
  destruct (roomParticipants st !! roomId) as [l|] eqn:Hl; simpl;
  [destruct (Set_delete client l) eqn:Hd; simpl|];
  case_decide as Hhost; rewrite scheduleRoomCleanup_state; simpl.

Lemma handleUserLeave_members client roomId now st R :
  members (fst (handleUserLeave client roomId now st)) R
  = if decide (R = roomId) then Set_delete client (members st roomId)
    else members st R.
Proof.
  leave_cases st roomId client; case_decide; subst;
    rewrite ?lookup_delete_eq, ?lookup_insert_eq, ?lookup_delete_ne,
      ?lookup_insert_ne, ?Hl by done; done.
Qed.

Lemma handleUserLeave_userInfo client roomId now st :
  userInfo (fst (handleUserLeave client roomId now st))
  = delete client (userInfo st).
Proof. leave_cases st roomId client; done. Qed.

Lemma handleUserLeave_sockets client roomId now st :
  sockets (fst (handleUserLeave client roomId now st)) = sockets st.
Proof. leave_cases st roomId client; done. Qed.

Lemma handleUserLeave_roomHosts client roomId now st :
  roomHosts (fst (handleUserLeave client roomId now st))
  = if decide (roomHosts st !! roomId = Some client) then
      match Set_delete client (members st roomId) with
      | newHostId :: _ => <[roomId := newHostId]> (roomHosts st)
      | [] => delete roomId (roomHosts st)
      end
    else roomHosts st.
Proof.
  leave_cases st roomId client;
    rewrite ?decide_True, ?decide_False by done; done.
Qed.

Lemma handleUserLeave_rooms client roomId now st R :
  room_sockets (fst (handleUserLeave client roomId now st)) R
  = if decide (R = roomId)
    then Set_delete client (room_sockets st roomId)
    else room_sockets st R.
Proof.
  rewrite <- (socket_leave_rooms client roomId st R).
  unfold room_sockets. leave_cases st roomId client; done.
Qed.


Lemma handleUserLeave_timers client roomId now st :
  let st' := fst (handleUserLeave client roomId now st) in
  let sch := scheduleRoomCleanup roomId now st in
  cleanupTimers st' = cleanupTimers sch ∧ timeouts st' = timeouts sch ∧
  nextTimeout st' = nextTimeout sch.
Proof.
  cbv zeta. rewrite (scheduleRoomCleanup_state roomId now st).
  leave_cases st roomId client; done.
Qed.


Lemma elem_of_server_to st roomId m r m' :
  (r, m') ∈ server_to st roomId m
  ↔ m' = m ∧ r ∈ sockets st ∧ r ∈ room_sockets st roomId.
Proof.
  unfold server_to. rewrite list_elem_of_fmap. split.
  - intros (sid & [= -> ->] & Hin). by apply list_elem_of_filter in Hin.
  - intros (-> & Hs & Hr). exists r. by rewrite list_elem_of_filter.
Qed.

Lemma elem_of_broadcast st roomId client m r m' :
  (r, m') ∈ broadcast st roomId client m
  ↔ m' = m ∧ r ∈ sockets st ∧ r ∈ room_sockets st roomId
    ∧ r ∉ room_sockets st client.
Proof.
  unfold broadcast. rewrite list_elem_of_fmap. split.
  - intros (sid & [= -> ->] & Hin).
    apply list_elem_of_filter in Hin as [Hex Hin].
    by apply list_elem_of_filter in Hin as [Hs Hin].
  - intros (-> & Hs & Hr & Hex). exists r. by rewrite !list_elem_of_filter.
Qed.

Lemma handleUserLeave_out client roomId now st :
  let st2 := socket_leave client roomId st in
  snd (handleUserLeave client roomId now st)
  = broadcast st2 roomId client
      (user_left client (UserInfo.userName <$> userInfo st !! client))
    ++ (if decide (roomHosts st !! roomId = Some client) then
          match Set_delete client (members st roomId) with
          | newHostId :: _ => server_to st2 newHostId (host_assigned roomId)
          | [] => []
          end
        else []).
Proof.
  cbv zeta. leave_cases st roomId client;
    rewrite ?decide_True, ?decide_False by done; done.
Qed.

Lemma handleDisconnect_joined client now st u :
  userInfo st !! client = Some u →
  handleDisconnect client now st
  = (cleanupConnectionTracking now
       (fst (handleUserLeave client (UserInfo.roomId u) now st)),
     snd (handleUserLeave client (UserInfo.roomId u) now st)).
Proof.
  intros Hu. unfold handleDisconnect. rewrite Hu.
  by destruct (handleUserLeave client (UserInfo.roomId u) now st).
Qed.

Lemma handleDisconnect_unjoined client now st :
  userInfo st !! client = None →
  handleDisconnect client now st = (cleanupConnectionTracking now st, []).
Proof. intros Hu. unfold handleDisconnect. by rewrite Hu. Qed.

(** ** Host handover *)





(** ** Invariants of the reachable states *)

(** The four ways a join-room can end: suppressed as a duplicate, left
    pending, joined as the new host of an empty room, or joined through the
    safety net. *)
Lemma handleJoin_cases client roomId userName now st :
  let st1 :=
    set_userInfo (<[client := UserInfo.mk roomId userName now]>) st in
  handleJoin client roomId userName now st = (st, []) ∨
  (∃ out, handleJoin client roomId userName now st = (st1, out)) ∨
  (members st roomId = [] ∧
   handleJoin client roomId userName now st
   = joinRoom client roomId userName
       (set_roomHosts (<[roomId := client]>) st1)) ∨
  (members st roomId ≠ [] ∧
   handleJoin client roomId userName now st
   = joinRoom client roomId userName st1).
Proof.
  intros st1. unfold handleJoin. fold st1.
  destruct (alreadyJoined client roomId st); [by left|]. right.
  change (roomParticipants st1) with (roomParticipants st).
  unfold members.
  destruct (roomParticipants st !! roomId) as [[|x l]|]; simpl.
  - right. by left.
  - destruct (truthy _); [left; eauto | right; by right].
  - right. by left.
Qed.

Lemma host_is_member_ext st st' :
  roomHosts st' = roomHosts st → roomParticipants st' = roomParticipants st →
  host_is_member st → host_is_member st'.
Proof.
  intros Hh Hp Hinv roomId h. unfold members. rewrite Hh, Hp. apply Hinv.
Qed.

Lemma host_is_member_joinRoom client roomId userName st :
  host_is_member st → host_is_member (fst (joinRoom client roomId userName st)).
Proof.
  intros Hinv R h Hh. rewrite joinRoom_members.
  change (roomHosts st !! R = Some h) in Hh. apply Hinv in Hh.
  case_decide; subst; [apply elem_of_Set_add; by right | done].
Qed.

Lemma host_is_member_join_as_host client roomId userName st :
  host_is_member st →
  host_is_member
    (fst (joinRoom client roomId userName
            (set_roomHosts (<[roomId := client]>) st))).
Proof.
  intros Hinv R h Hh. rewrite joinRoom_members.
  change (<[roomId := client]> (roomHosts st) !! R = Some h) in Hh.
  case_decide as HR; subst.
  - rewrite lookup_insert_eq in Hh. injection Hh as <-.
    apply elem_of_Set_add. by left.
  - rewrite lookup_insert_ne in Hh by done. by apply Hinv.
Qed.

Lemma host_is_member_handleUserLeave client roomId now st :
  host_is_member st →
  host_is_member (fst (handleUserLeave client roomId now st)).
Proof.
  intros Hinv R h. rewrite handleUserLeave_members, handleUserLeave_roomHosts.
  destruct (decide (roomHosts st !! roomId = Some client)) as [Hc|Hc].
  - destruct (Set_delete client (members st roomId)) as [|n rest] eqn:Hd.
    + case_decide; subst.
      * by rewrite lookup_delete_eq.
      * rewrite lookup_delete_ne by done. apply Hinv.
    + case_decide; subst.
      * rewrite lookup_insert_eq. intros [= <-]. apply list_elem_of_here.
      * rewrite lookup_insert_ne by done. apply Hinv.
  - intros Hh. case_decide; subst.
    + apply elem_of_Set_delete. split; [congruence | by apply Hinv].
    + by apply Hinv.
Qed.

Lemma roomCleanup_members roomId st R :
  members (roomCleanup roomId st) R = members st R.
Proof.
  unfold roomCleanup, members.
  destruct (roomParticipants st !! roomId) as [[|x l]|] eqn:Hl; simpl;
    try done;
    destruct (decide (R = roomId)) as [->|];
    rewrite ?lookup_delete_eq, ?lookup_delete_ne, ?Hl by done; done.
Qed.

Lemma host_is_member_roomCleanup roomId st :
  host_is_member st → host_is_member (roomCleanup roomId st).
Proof.
  intros Hinv R h. rewrite roomCleanup_members. unfold roomCleanup.
  destruct (roomParticipants st !! roomId) as [[|x l]|] eqn:Hl; simpl;
    try apply Hinv;
    (destruct (decide (R = roomId)) as [->|];
     [by rewrite lookup_delete_eq
     | rewrite lookup_delete_ne by done; apply Hinv]).
Qed.

Lemma host_is_member_handleJoin client roomId userName now st :
  host_is_member st →
  host_is_member (fst (handleJoin client roomId userName now st)).
Proof.
  intros Hinv.
  destruct (handleJoin_cases client roomId userName now st)
    as [-> | [[out ->] | [[_ ->] | [_ ->]]]].
  - done.
  - by apply (host_is_member_ext st).
  - apply (host_is_member_join_as_host client roomId userName
             (set_userInfo _ st)).
    by apply (host_is_member_ext st).
  - apply host_is_member_joinRoom. by apply (host_is_member_ext st).
Qed.

Lemma host_is_member_handleAdmit client userId roomId st :
  host_is_member st →
  host_is_member (fst (handleAdmit client userId roomId st)).
Proof.
  intros Hinv. unfold handleAdmit.
  repeat case_decide; try done.
  destruct (userInfo st !! userId) as [u|]; [|done].
  pose proof (host_is_member_joinRoom userId roomId (UserInfo.userName u) st
                Hinv) as H'.
  by destruct (joinRoom userId roomId (UserInfo.userName u) st).
Qed.

Lemma host_is_member_handleDisconnect client now st :
  host_is_member st → host_is_member (fst (handleDisconnect client now st)).
Proof.
  intros Hinv. destruct (userInfo st !! client) as [u|] eqn:Hu.
  - rewrite (handleDisconnect_joined _ _ _ _ Hu). simpl.
    by apply (host_is_member_ext
                (fst (handleUserLeave client (UserInfo.roomId u) now st)));
      [| | apply host_is_member_handleUserLeave].
  - rewrite (handleDisconnect_unjoined _ _ _ Hu). simpl.
    by apply (host_is_member_ext st).
Qed.

Lemma host_is_member_step st i :
  host_is_member st → host_is_member (fst (step st i)).
Proof.
  intros Hinv. destruct i; simpl; try done.
  - unfold handleConnection. case_match; simpl;
      by apply (host_is_member_ext st).
  - by apply host_is_member_handleJoin.
  - by apply host_is_member_handleAdmit.
  - unfold handleReject. repeat case_decide; simpl; done.
  - by apply host_is_member_handleUserLeave.
  - apply host_is_member_handleDisconnect. by apply (host_is_member_ext st).
  - unfold fireTimeout. destruct (timeouts st !! handle) as [[R d]|]; [|done].
    apply host_is_member_roomCleanup. by apply (host_is_member_ext st).
Qed.

Lemma reachable_host_is_member st : reachable st → host_is_member st.
Proof.
  induction 1 as [|st i _ IH _].
  - intros R h Hh. simpl in Hh. by rewrite lookup_empty in Hh.
  - by apply host_is_member_step.
Qed.

(** *** A room with members has a host *)

Lemma members_have_host_joinRoom client roomId userName st :
  members st roomId ≠ [] ∨ is_Some (roomHosts st !! roomId) →
  members_have_host st →
  members_have_host (fst (joinRoom client roomId userName st)).
Proof.
  intros Hpre Hinv R. rewrite joinRoom_members.
  change (roomHosts (fst (joinRoom client roomId userName st)))
    with (roomHosts st).
  case_decide; subst; [|apply Hinv].
  intros _. destruct Hpre as [Hm | Hh]; [by apply Hinv | done].
Qed.

Lemma members_have_host_handleUserLeave client roomId now st :
  members_have_host st →
  members_have_host (fst (handleUserLeave client roomId now st)).
Proof.
  intros Hinv R. rewrite handleUserLeave_members, handleUserLeave_roomHosts.
  destruct (decide (R = roomId)) as [->|HR].
  - intros Hrest.
    assert (Hm : members st roomId ≠ []).
    { intros Hnil. by rewrite Hnil in Hrest. }
    destruct (Hinv roomId Hm) as [h Hh]. case_decide.
    + destruct (Set_delete client (members st roomId)); [done|].
      rewrite lookup_insert_eq. eauto.
    + eauto.
  - intros Hm. destruct (Hinv R Hm) as [h Hh]. case_decide; [|eauto].
    destruct (Set_delete client (members st roomId));
      rewrite ?lookup_delete_ne, ?lookup_insert_ne by done; eauto.
Qed.

Lemma members_have_host_roomCleanup roomId st :
  members_have_host st → members_have_host (roomCleanup roomId st).
Proof.
  intros Hinv R. rewrite roomCleanup_members. intros Hm.
  destruct (Hinv R Hm) as [h Hh]. unfold roomCleanup, members in *.
  destruct (roomParticipants st !! roomId) as [[|x l]|] eqn:Hl; simpl;
    eauto;
    (destruct (decide (R = roomId)) as [->|];
     [by rewrite Hl in Hm | rewrite lookup_delete_ne by done; eauto]).
Qed.

Lemma members_have_host_step st i :
  members_have_host st → members_have_host (fst (step st i)).
Proof.
  intros Hinv. destruct i; simpl; try done.
  - unfold handleConnection. by case_match.
  - destruct (handleJoin_cases client roomId userName now st)
      as [-> | [[out ->] | [[_ ->] | [Hm ->]]]]; [done | done | |].
    + apply members_have_host_joinRoom.
      * right. simpl. rewrite lookup_insert_eq. eauto.
      * intros R HR. simpl. destruct (decide (R = roomId)) as [->|].
        -- rewrite lookup_insert_eq. eauto.
        -- rewrite lookup_insert_ne by done. by apply Hinv.
    + apply members_have_host_joinRoom; [by left | done].
  - unfold handleAdmit.
    destruct (decide (roomHosts st !! roomId ≠ Some client)) as [|Hh]; [done|].
    apply dec_stable in Hh. case_decide; [|done].
    destruct (userInfo st !! userId) as [u|]; [|done].
    pose proof (members_have_host_joinRoom userId roomId (UserInfo.userName u)
                  st (or_intror (mk_is_Some _ _ Hh)) Hinv) as H'.
    by destruct (joinRoom userId roomId (UserInfo.userName u) st).
  - unfold handleReject. by repeat case_decide.
  - by apply members_have_host_handleUserLeave.
  - destruct (userInfo (socket_close client st) !! client) as [u|] eqn:Hu.
    + rewrite (handleDisconnect_joined _ _ _ _ Hu). simpl.
      by apply (members_have_host_handleUserLeave client (UserInfo.roomId u)
                  now (socket_close client st)).
    + by rewrite (handleDisconnect_unjoined _ _ _ Hu).
  - unfold fireTimeout. destruct (timeouts st !! handle) as [[R d]|]; [|done].
    by apply (members_have_host_roomCleanup R (clearTimeout handle st)).
Qed.

(** In a reachable state every room with members has a recorded host, so
    the host-less fallback of [handleJoin] is never entered. *)
Lemma reachable_members_have_host st : reachable st → members_have_host st.
Proof.
  induction 1 as [|st i _ IH _].
  - intros R Hm. unfold members in Hm. simpl in Hm.
    by rewrite lookup_empty in Hm.
  - by apply members_have_host_step.
Qed.

(** *** Member sets stay duplicate-free *)

(** A step leaves a member set alone, adds one session or deletes one. *)
Lemma step_members st i R :
  members (fst (step st i)) R = members st R ∨
  (∃ c, members (fst (step st i)) R = Set_add c (members st R)) ∨
  (∃ c, members (fst (step st i)) R = Set_delete c (members st R)).
Proof.
  assert (Hjoin : ∀ c roomId userName st0,
    members st0 R = members st R →
    members (fst (joinRoom c roomId userName st0)) R = members st R ∨
    (∃ c', members (fst (joinRoom c roomId userName st0)) R
           = Set_add c' (members st R)) ∨
    (∃ c', members (fst (joinRoom c roomId userName st0)) R
           = Set_delete c' (members st R))).
  { intros c roomId userName st0 H0. rewrite joinRoom_members.
    case_decide; subst; [right; left; exists c; by rewrite H0 | by left]. }
  assert (Hleave : ∀ c roomId now st0,
    members st0 R = members st R →
    members (fst (handleUserLeave c roomId now st0)) R = members st R ∨
    (∃ c', members (fst (handleUserLeave c roomId now st0)) R
           = Set_add c' (members st R)) ∨
    (∃ c', members (fst (handleUserLeave c roomId now st0)) R
           = Set_delete c' (members st R))).
  { intros c roomId now st0 H0. rewrite handleUserLeave_members.
    case_decide; subst; [right; right; exists c; by rewrite H0 | by left]. }
  destruct i; simpl; try by left.
  - unfold handleConnection. case_match; by left.
  - destruct (handleJoin_cases client roomId userName now st)
      as [-> | [[out ->] | [[_ ->] | [_ ->]]]];
      [by left | by left | by apply Hjoin | by apply Hjoin].
  - unfold handleAdmit. repeat case_decide; try by left.
    destruct (userInfo st !! userId) as [u|]; [|by left].
    pose proof (Hjoin userId roomId (UserInfo.userName u) st eq_refl) as H'.
    by destruct (joinRoom userId roomId (UserInfo.userName u) st).
  - unfold handleReject. repeat case_decide; by left.
  - by apply Hleave.
  - destruct (userInfo (socket_close client st) !! client) as [u|] eqn:Hu.
    + rewrite (handleDisconnect_joined _ _ _ _ Hu). simpl.
      by apply (Hleave client (UserInfo.roomId u) now (socket_close client st)).
    + rewrite (handleDisconnect_unjoined _ _ _ Hu). by left.
  - left. unfold fireTimeout.
    destruct (timeouts st !! handle) as [[roomId d]|]; [|done].
    by rewrite roomCleanup_members.
Qed.

Lemma reachable_members_NoDup st R : reachable st → NoDup (members st R).
Proof.
  induction 1 as [|st i _ IH _].
  - unfold members. simpl. rewrite lookup_empty. apply NoDup_nil_2.
  - destruct (step_members st i R) as [-> | [[c ->] | [c ->]]];
      [done | by apply NoDup_Set_add | by apply NoDup_Set_delete].
Qed.

(** *** Armed timeouts *)

Lemma timeouts_indexed_ext st st' :
  timeouts st' = timeouts st → cleanupTimers st' = cleanupTimers st →
  nextTimeout st' = nextTimeout st →
  timeouts_indexed st → timeouts_indexed st'.
Proof.
  intros Ht Hc Hn Hinv h R d. rewrite Ht, Hc, Hn. apply Hinv.
Qed.

Lemma timeouts_indexed_scheduleRoomCleanup roomId now st :
  timeouts_indexed st → timeouts_indexed (scheduleRoomCleanup roomId now st).
Proof.
  intros Hinv h R d. rewrite scheduleRoomCleanup_state. simpl.
  destruct (decide (h = nextTimeout st)) as [->|Hne].
  - rewrite lookup_insert_eq. intros [= <- <-].
    rewrite lookup_insert_eq. split; [done | lia].
  - rewrite lookup_insert_ne by done. intros Hh.
    assert (Hold : timeouts st !! h = Some (R, d)).
    { destruct (cleanupTimers st !! roomId) as [e|]; [|done].
      apply lookup_delete_Some in Hh. tauto. }
    destruct (Hinv h R d Hold) as [Hc Hlt]. split; [|lia].
    destruct (decide (R = roomId)) as [->|HR].
    + rewrite Hc in Hh. by rewrite lookup_delete_eq in Hh.
    + by rewrite lookup_insert_ne.
Qed.

Lemma timeouts_indexed_fireTimeout handle st :
  timeouts_indexed st → timeouts_indexed (fireTimeout handle st).
Proof.
  intros Hinv. unfold fireTimeout.
  destruct (timeouts st !! handle) as [[roomId d0]|] eqn:Hfired; [|done].
  destruct (Hinv _ _ _ Hfired) as [Hc0 _].
  intros h R d Hh.
  assert (Hold : handle ≠ h ∧ timeouts st !! h = Some (R, d)).
  { apply lookup_delete_Some. unfold roomCleanup in Hh. simpl in Hh.
    destruct (roomParticipants st !! roomId) as [[|x l]|]; exact Hh. }
  destruct Hold as [Hne Hold]. destruct (Hinv h R d Hold) as [Hc Hlt].
  assert (HR : R ≠ roomId) by (intros ->; congruence).
  split.
  - unfold roomCleanup. simpl.
    destruct (roomParticipants st !! roomId) as [[|x l]|]; simpl;
      rewrite ?lookup_delete_ne by done; done.
  - unfold roomCleanup. simpl.
    by destruct (roomParticipants st !! roomId) as [[|x l]|].
Qed.

Lemma timeouts_indexed_handleUserLeave client roomId now st :
  timeouts_indexed st →
  timeouts_indexed (fst (handleUserLeave client roomId now st)).
Proof.
  intros Hinv.
  destruct (handleUserLeave_timers client roomId now st) as (Hc & Ht & Hn).
  apply (timeouts_indexed_ext (scheduleRoomCleanup roomId now st)); try done.
  by apply timeouts_indexed_scheduleRoomCleanup.
Qed.

Lemma joinRoom_timers client roomId userName st :
  let st' := fst (joinRoom client roomId userName st) in
  timeouts st' = timeouts st ∧ cleanupTimers st' = cleanupTimers st ∧
  nextTimeout st' = nextTimeout st.
Proof. done. Qed.

Lemma handleJoin_timers client roomId userName now st :
  let st' := fst (handleJoin client roomId userName now st) in
  timeouts st' = timeouts st ∧ cleanupTimers st' = cleanupTimers st ∧
  nextTimeout st' = nextTimeout st.
Proof.
  destruct (handleJoin_cases client roomId userName now st)
    as [H | [[out H] | [[_ H] | [_ H]]]]; cbv zeta; rewrite H; done.
Qed.

Lemma handleAdmit_timers client userId roomId st :
  let st' := fst (handleAdmit client userId roomId st) in
  timeouts st' = timeouts st ∧ cleanupTimers st' = cleanupTimers st ∧
  nextTimeout st' = nextTimeout st.
Proof.
  unfold handleAdmit. repeat case_decide; try done.
  destruct (userInfo st !! userId) as [u|]; [|done].
  pose proof (joinRoom_timers userId roomId (UserInfo.userName u) st) as H'.
  by destruct (joinRoom userId roomId (UserInfo.userName u) st).
Qed.

Lemma timeouts_indexed_step st i :
  timeouts_indexed st → timeouts_indexed (fst (step st i)).
Proof.
  intros Hinv. destruct i; simpl; try done.
  - unfold handleConnection. by case_match.
  - destruct (handleJoin_timers client roomId userName now st) as (?&?&?).
    by apply (timeouts_indexed_ext st).
  - destruct (handleAdmit_timers client userId roomId st) as (?&?&?).
    by apply (timeouts_indexed_ext st).
  - unfold handleReject. by repeat case_decide.
  - by apply timeouts_indexed_handleUserLeave.
  - destruct (userInfo (socket_close client st) !! client) as [u|] eqn:Hu.
    + rewrite (handleDisconnect_joined _ _ _ _ Hu). simpl.
      apply (timeouts_indexed_ext
               (fst (handleUserLeave client (UserInfo.roomId u) now
                       (socket_close client st)))); try done.
      by apply timeouts_indexed_handleUserLeave.
    + by rewrite (handleDisconnect_unjoined _ _ _ Hu).
  - by apply timeouts_indexed_fireTimeout.
Qed.

Lemma reachable_timeouts_indexed st : reachable st → timeouts_indexed st.
Proof.
  induction 1 as [|st i _ IH _].
  - intros h R d Hh. simpl in Hh. by rewrite lookup_empty in Hh.
  - by apply timeouts_indexed_step.
Qed.

Lemma timeouts_indexed_one_cleanup st :
  timeouts_indexed st → one_cleanup_per_room st.
Proof.
  intros Hinv h1 h2 R d1 d2 H1 H2.
  destruct (Hinv _ _ _ H1) as [Hc1 _]. destruct (Hinv _ _ _ H2) as [Hc2 _].
  congruence.
Qed.

(** *** The socket.io rooms and the member sets *)

Lemma filter_members_all (P : string → Prop) `{!∀ x, Decision (P x)}
    (l : list string) :
  (∀ x, x ∈ l → P x) → filter P l = l.
Proof.
  induction l as [|x l IH]; intros Hall; [done|].
  rewrite filter_cons, decide_True by (apply Hall; left).
  rewrite IH; [done|]. intros y Hy. apply Hall. by right.
Qed.

Lemma filter_ext_in (P Q : string → Prop) `{!∀ x, Decision (P x)}
    `{!∀ x, Decision (Q x)} (l : list string) :
  (∀ x, x ∈ l → P x ↔ Q x) → filter P l = filter Q l.
Proof.
  induction l as [|x l IH]; intros Hall; [done|].
  rewrite !filter_cons, IH by (intros y Hy; apply Hall; by right).
  destruct (decide (P x)) as [HP|HP].
  - by rewrite decide_True by (apply Hall; [left | done]).
  - rewrite decide_False; [done|]. intros HQ. apply HP, Hall; [left | done].
Qed.


Lemma socket_join_rooms client roomId st R :
  room_sockets (socket_join client roomId st) R
  = if decide (R = roomId)
    then Set_add client (room_sockets st roomId)
    else room_sockets st R.
Proof.
  unfold socket_join, room_sockets. simpl. case_decide; subst.
  - by rewrite lookup_insert_eq.
  - by rewrite lookup_insert_ne.
Qed.

Lemma socket_close_rooms client st R :
  room_sockets (socket_close client st) R
  = Set_delete client (room_sockets st R).
Proof.
  unfold socket_close, room_sockets. simpl. rewrite lookup_omap.
  destruct (rooms st !! R) as [s|]; simpl; [|done].
  by destruct (Set_delete client s).
Qed.

Lemma socket_open_rooms client st R :
  room_sockets (socket_open client st) R
  = if decide (R = client)
    then Set_add client (room_sockets st client)
    else room_sockets st R.
Proof. unfold socket_open. by rewrite socket_join_rooms. Qed.

Lemma joinRoom_rooms client roomId userName st R :
  room_sockets (fst (joinRoom client roomId userName st)) R
  = if decide (R = roomId)
    then Set_add client (room_sockets st roomId)
    else room_sockets st R.
Proof. by rewrite joinRoom_state, <- socket_join_rooms. Qed.

Lemma transport_mirrors_ext st st' :
  rooms st' = rooms st → sockets st' = sockets st →
  roomParticipants st' = roomParticipants st →
  transport_mirrors_members st → transport_mirrors_members st'.
Proof.
  intros Hr Hs Hp Hinv R sid. unfold members, room_sockets.
  rewrite Hr, Hs, Hp. apply Hinv.
Qed.

Lemma transport_mirrors_joinRoom client roomId userName st :
  client ∈ sockets st → transport_mirrors_members st →
  transport_mirrors_members (fst (joinRoom client roomId userName st)).
Proof.
  intros Hc Hinv R sid. rewrite joinRoom_members, joinRoom_rooms.
  change (sockets (fst (joinRoom client roomId userName st)))
    with (sockets st).
  destruct (Hinv R sid) as [H1 H2]. case_decide; subst; [|done].
  rewrite !elem_of_Set_add. split.
  - intros [-> | Hm] Hs; [by left | right; auto].
  - intros [-> | Hr]; [by auto|]. destruct (H2 Hr) as [? [-> | ?]]; auto.
Qed.

Lemma transport_mirrors_handleUserLeave client roomId now st :
  transport_mirrors_members st →
  transport_mirrors_members (fst (handleUserLeave client roomId now st)).
Proof.
  intros Hinv R sid.
  rewrite handleUserLeave_members, handleUserLeave_rooms,
    handleUserLeave_sockets.
  destruct (Hinv R sid) as [H1 H2]. case_decide; subst; [|done].
  rewrite !elem_of_Set_delete. split.
  - intros [? ?] ?. auto.
  - intros [? Hr]. destruct (H2 Hr) as [? [-> | ?]]; auto.
Qed.

Lemma transport_mirrors_socket_close client st :
  transport_mirrors_members st →
  transport_mirrors_members (socket_close client st).
Proof.
  intros Hinv R sid. rewrite socket_close_rooms.
  change (members (socket_close client st) R) with (members st R).
  change (sockets (socket_close client st)) with (sockets st ∖ {[client]}).
  destruct (Hinv R sid) as [H1 H2].
  rewrite elem_of_Set_delete, elem_of_difference, not_elem_of_singleton.
  split; [intros ? [? ?]; auto|].
  intros [? Hr]. destruct (H2 Hr) as [? ?]. auto.
Qed.

Lemma transport_mirrors_open client st :
  fresh_socket client st → transport_mirrors_members st →
  transport_mirrors_members (socket_open client st).
Proof.
  intros [_ Hfresh] Hinv R sid. rewrite socket_open_rooms.
  change (members (socket_open client st) R) with (members st R).
  change (sockets (socket_open client st)) with ({[client]} ∪ sockets st).
  destruct (Hinv R sid) as [H1 H2].
  rewrite elem_of_union, elem_of_singleton. split.
  - intros Hm Hs.
    assert (Hne : sid ≠ client).
    { intros ->. unfold members in Hm.
      destruct (roomParticipants st !! R) as [l|] eqn:Hl.
      - exact (Hfresh R l Hl Hm).
      - by apply not_elem_of_nil in Hm. }
    destruct Hs as [? | Hs]; [done|]. specialize (H1 Hm Hs).
    case_decide; subst; [apply elem_of_Set_add; by right | done].
  - case_decide as HR; [subst R; rewrite elem_of_Set_add|].
    + intros [-> | Hr]; [by auto|]. destruct (H2 Hr) as [? ?]. auto.
    + intros Hr. destruct (H2 Hr) as [? ?]. auto.
Qed.

Lemma transport_mirrors_roomCleanup roomId st :
  transport_mirrors_members st →
  transport_mirrors_members (roomCleanup roomId st).
Proof.
  intros Hinv R sid. rewrite roomCleanup_members.
  assert (Hr : rooms (roomCleanup roomId st) = rooms st ∧
               sockets (roomCleanup roomId st) = sockets st).
  { unfold roomCleanup.
    by destruct (roomParticipants st !! roomId) as [[|x l]|]. }
  unfold room_sockets. destruct Hr as [-> ->]. apply Hinv.
Qed.

Lemma transport_mirrors_handleJoin client roomId userName now st :
  client ∈ sockets st → transport_mirrors_members st →
  transport_mirrors_members (fst (handleJoin client roomId userName now st)).
Proof.
  intros Hc Hinv.
  destruct (handleJoin_cases client roomId userName now st)
    as [-> | [[out ->] | [[_ ->] | [_ ->]]]]; [done | done | |];
    by apply transport_mirrors_joinRoom.
Qed.

Lemma transport_mirrors_handleAdmit client userId roomId st :
  transport_mirrors_members st →
  transport_mirrors_members (fst (handleAdmit client userId roomId st)).
Proof.
  intros Hinv. unfold handleAdmit.
  destruct (decide (roomHosts st !! roomId ≠ Some client)); [done|].
  destruct (decide (userId ∈ sockets st)) as [Hu|]; [|done].
  destruct (userInfo st !! userId) as [u|]; [|done].
  pose proof (transport_mirrors_joinRoom userId roomId (UserInfo.userName u)
                st Hu Hinv) as H'.
  by destruct (joinRoom userId roomId (UserInfo.userName u) st).
Qed.

Lemma transport_mirrors_handleDisconnect client now st :
  transport_mirrors_members st →
  transport_mirrors_members (fst (handleDisconnect client now st)).
Proof.
  intros Hinv. destruct (userInfo st !! client) as [u|] eqn:Hu.
  - rewrite (handleDisconnect_joined _ _ _ _ Hu). simpl.
    apply (transport_mirrors_ext
             (fst (handleUserLeave client (UserInfo.roomId u) now st)));
      try done.
    by apply transport_mirrors_handleUserLeave.
  - by rewrite (handleDisconnect_unjoined _ _ _ Hu).
Qed.

Lemma transport_mirrors_step st i :
  enabled st i = true → transport_mirrors_members st →
  transport_mirrors_members (fst (step st i)).
Proof.
  intros Hen Hinv. destruct i; simpl in *; try done.
  - apply andb_prop in Hen as [_ Hfresh%bool_decide_eq_true_1].
    pose proof (transport_mirrors_open client st Hfresh Hinv) as Hopen.
    unfold handleConnection. case_match; simpl; [|done].
    by apply transport_mirrors_socket_close.
  - apply bool_decide_eq_true_1 in Hen.
    by apply transport_mirrors_handleJoin.
  - by apply transport_mirrors_handleAdmit.
  - unfold handleReject. by repeat case_decide.
  - by apply transport_mirrors_handleUserLeave.
  - apply transport_mirrors_handleDisconnect.
    by apply transport_mirrors_socket_close.
  - unfold fireTimeout. destruct (timeouts st !! handle) as [[R d]|]; [|done].
    by apply transport_mirrors_roomCleanup.
Qed.

Lemma reachable_transport_mirrors st :
  reachable st → transport_mirrors_members st.
Proof.
  induction 1 as [|st i _ IH Hen].
  - intros R sid. unfold members, room_sockets. simpl.
    rewrite !lookup_empty. simpl. split; [done|].
    by intros ?%not_elem_of_nil.
  - by apply transport_mirrors_step.
Qed.

(** *** Who enters a member set; socket ids *)

(** A session can only enter a member set through its own join-room or
    through an admit-user of the recorded host. *)
Lemma step_adds_member st i s R :
  enabled st i = true →
  s ∈ members (fst (step st i)) R → s ∉ members st R →
  s ∈ sockets st ∧
  ((∃ userName now, i = join_room s R userName now) ∨
   (∃ h, i = admit_user h s R ∧ roomHosts st !! R = Some h ∧
         is_Some (userInfo st !! s))).
Proof.
  intros Hen Hin Hnot.
  assert (Hjoin : ∀ c roomId userName st0,
    members st0 R = members st R →
    s ∈ members (fst (joinRoom c roomId userName st0)) R →
    s = c ∧ R = roomId).
  { intros c roomId userName st0 H0. rewrite joinRoom_members.
    case_decide; subst; [|by rewrite H0].
    rewrite elem_of_Set_add, H0. by intros [-> | ?]. }
  assert (Hleave : ∀ c roomId now st0,
    members st0 R = members st R →
    s ∈ members (fst (handleUserLeave c roomId now st0)) R → False).
  { intros c roomId now st0 H0. rewrite handleUserLeave_members.
    case_decide; subst; rewrite ?elem_of_Set_delete, H0; tauto. }
  destruct i; simpl in Hen, Hin; try done.
  - unfold handleConnection in Hin. by case_match.
  - apply bool_decide_eq_true_1 in Hen.
    destruct (handleJoin_cases client roomId userName now st)
      as [H | [[out H] | [[_ H] | [_ H]]]]; rewrite H in Hin;
      [done | done | |];
      apply Hjoin in Hin as [-> ->]; eauto.
  - unfold handleAdmit in Hin.
    destruct (decide (roomHosts st !! roomId ≠ Some client)) as [|Hh]; [done|].
    apply dec_stable in Hh.
    destruct (decide (userId ∈ sockets st)) as [Hu|]; [|done].
    destruct (userInfo st !! userId) as [u|] eqn:Hinfo; [|done].
    pose proof (Hjoin userId roomId (UserInfo.userName u) st eq_refl) as H'.
    destruct (joinRoom userId roomId (UserInfo.userName u) st) as [st1 out].
    cbn [fst] in *. destruct (H' Hin) as [-> ->]. eauto 10.
  - unfold handleReject in Hin. by repeat case_decide.
  - by apply Hleave in Hin.
  - destruct (userInfo (socket_close client st) !! client) as [u|] eqn:Hu.
    + rewrite (handleDisconnect_joined _ _ _ _ Hu) in Hin. simpl in Hin.
      by apply (Hleave client (UserInfo.roomId u) now (socket_close client st))
        in Hin.
    + by rewrite (handleDisconnect_unjoined _ _ _ Hu) in Hin.
  - unfold fireTimeout in Hin.
    destruct (timeouts st !! handle) as [[roomId d]|]; [|done].
    by rewrite roomCleanup_members in Hin.
Qed.

Lemma step_sockets st i sid :
  sid ∈ sockets (fst (step st i)) →
  sid ∈ sockets st ∨ ∃ ip now, i = connect sid ip now.
Proof.
  destruct i; simpl; try (by left).
  - unfold handleConnection. case_match; simpl.
    + rewrite elem_of_difference. intros [[?%elem_of_singleton|?]%elem_of_union ?];
        [subst; eauto | by left].
    + intros [->%elem_of_singleton|?]%elem_of_union; [eauto | by left].
  - destruct (handleJoin_cases client roomId userName now st)
      as [-> | [[out ->] | [[_ ->] | [_ ->]]]]; by left.
  - unfold handleAdmit. repeat case_decide; try (by left).
    destruct (userInfo st !! userId) as [u|]; [|by left].
    assert (H' : sockets (fst (joinRoom userId roomId (UserInfo.userName u) st))
                 = sockets st) by done.
    destruct (joinRoom userId roomId (UserInfo.userName u) st). simpl in *.
    rewrite H'. by left.
  - unfold handleReject. repeat case_decide; by left.
  - unfold handleLeave. rewrite handleUserLeave_sockets. by left.
  - destruct (userInfo (socket_close client st) !! client) as [u|] eqn:Hu.
    + rewrite (handleDisconnect_joined _ _ _ _ Hu). simpl.
      rewrite handleUserLeave_sockets. simpl. rewrite elem_of_difference.
      intros [? _]. by left.
    + rewrite (handleDisconnect_unjoined _ _ _ Hu). simpl.
      rewrite elem_of_difference. intros [? _]. by left.
  - unfold fireTimeout. destruct (timeouts st !! handle) as [[R d]|]; [|by left].
    unfold roomCleanup. simpl.
    destruct (roomParticipants st !! R) as [[|x l]|]; by left.
Qed.

Lemma ids_nonempty_step st i :
  enabled st i = true → ids_nonempty st → ids_nonempty (fst (step st i)).
Proof.
  intros Hen [Hs Hm]. split.
  - intros [Hin | (ip & now & ->)]%step_sockets; [done|].
    simpl in Hen. done.
  - intros R Hin.
    destruct (step_adds_member st i EmptyString R Hen Hin (Hm R)) as [? _].
    done.
Qed.

Lemma reachable_ids_nonempty st : reachable st → ids_nonempty st.
Proof.
  induction 1 as [|st i _ IH Hen].
  - split; [set_solver|]. intros R. unfold members. simpl.
    rewrite lookup_empty. apply not_elem_of_nil.
  - by apply ids_nonempty_step.
Qed.

(** In a reachable state the host that [handleJoin] resolves for a room
    with members is the recorded one: it is a member and its id is truthy. *)
Lemma reachable_recorded_host st roomId :
  reachable st → members st roomId ≠ [] →
  ∃ h, roomHosts st !! roomId = Some h ∧ h ∈ members st roomId ∧
       h ≠ EmptyString.
Proof.
  intros Hst Hm.
  destruct (reachable_members_have_host st Hst roomId Hm) as [h Hh].
  pose proof (reachable_host_is_member st Hst roomId h Hh) as Hin.
  destruct (reachable_ids_nonempty st Hst) as [_ Hne].
  exists h. split_and!; [done | done |]. intros ->. by apply (Hne roomId).
Qed.

(** ** Leaving a room one is not in *)

(** C10 (as amended). In a reachable state, a leave-room for [roomId] from
    a session [s] that has no presence entry and is not a member of the room
    is processed all the same.  The sender leaves the socket.io room
    [roomId], and user-left with userId [s] and an undefined userName is
    delivered to exactly the sockets, other than [s], that sit in the
    socket.io room [roomId] and not in the socket.io room named [s]: among
    them is every member of the room with an open socket that is not in the
    room named [s], and a socket that gets it without being a member is the
    socket whose own id is [roomId].  No member set, host or presence entry
    changes, and the cleanup timeout of the room is armed anew (30 s from
    [now]). *)
Theorem leave_is_not_validated st s roomId now :
  reachable st → userInfo st !! s = None → s ∉ members st roomId →
  let st' := fst (handleLeave s roomId now st) in
  let out := snd (handleLeave s roomId now st) in
  out = (λ sid, (sid, user_left s None))
          <$> filter (λ sid, sid ∉ room_sockets st s)
                (Set_delete s (room_sockets st roomId)) ∧
  (∀ r, r ∈ members st roomId → r ∈ sockets st → r ∉ room_sockets st s →
        (r, user_left s None) ∈ out) ∧
  (∀ r m, (r, m) ∈ out → r = roomId ∨ r ∈ members st roomId) ∧
  room_sockets st' roomId = Set_delete s (room_sockets st roomId) ∧
  (∀ R, members st' R = members st R) ∧
  userInfo st' = userInfo st ∧ roomHosts st' = roomHosts st ∧
  cleanupTimers st' !! roomId = Some (nextTimeout st) ∧
  timeouts st' !! nextTimeout st = Some (roomId, now + 30000).
Proof.
  intros Hst Hu Hs st' out. unfold st', out, handleLeave.
  assert (Hhost : roomHosts st !! roomId ≠ Some s).
  { intros Hh. by apply (reachable_host_is_member st Hst) in Hh. }
  pose proof (reachable_transport_mirrors st Hst) as Hinv.
  assert (Hout : snd (handleUserLeave s roomId now st)
    = (λ sid, (sid, user_left s None))
        <$> filter (λ sid, sid ∉ room_sockets st s)
              (Set_delete s (room_sockets st roomId))).
  { rewrite handleUserLeave_out, Hu, decide_False, app_nil_r by done.
    unfold broadcast.
    change (sockets (socket_leave s roomId st)) with (sockets st).
    rewrite (socket_leave_rooms s roomId st roomId), decide_True by done.
    rewrite (filter_members_all (λ sid, sid ∈ sockets st)).
    2:{ intros x [_ Hx]%elem_of_Set_delete. by apply (Hinv roomId x). }
    f_equal. apply filter_ext_in. intros x [Hne Hx]%elem_of_Set_delete.
    rewrite socket_leave_rooms. case_decide; subst; [|done].
    rewrite elem_of_Set_delete. tauto. }
  split_and!.
  - exact Hout.
  - intros r Hm Hopen Hex. rewrite Hout. apply list_elem_of_fmap.
    exists r. split; [done|]. apply list_elem_of_filter. split; [done|].
    apply elem_of_Set_delete. split; [by intros ->|].
    by apply (Hinv roomId r).
  - intros r m. rewrite Hout.
    intros (sid & [= -> ->] & Hin)%list_elem_of_fmap.
    apply list_elem_of_filter in Hin as [_ [_ Hr]%elem_of_Set_delete].
    by destruct (proj2 (Hinv roomId sid) Hr).
  - rewrite handleUserLeave_rooms. by rewrite decide_True.
  - intros R. rewrite handleUserLeave_members.
    case_decide; subst; [by apply Set_delete_notin | done].
  - rewrite handleUserLeave_userInfo. by apply delete_id.
  - rewrite handleUserLeave_roomHosts. by rewrite decide_False.
  - destruct (handleUserLeave_timers s roomId now st) as (-> & _ & _).
    rewrite scheduleRoomCleanup_state. simpl. apply lookup_insert_eq.
  - destruct (handleUserLeave_timers s roomId now st) as (_ & -> & _).
    rewrite scheduleRoomCleanup_state. simpl. apply lookup_insert_eq.
Qed.

Lemma leave_is_not_validated_witness :
  let st := exec initial scenario_bystander in
  let st' := fst (handleLeave "C" "R" 9 st) in
  let out := snd (handleLeave "C" "R" 9 st) in
  (reachable st ∧ userInfo st !! "C" = None ∧ "C" ∉ members st "R") ∧
  out = (λ sid, (sid, user_left "C" None))
          <$> filter (λ sid, sid ∉ room_sockets st "C")
                (Set_delete "C" (room_sockets st "R")) ∧
  (∀ r, r ∈ members st "R" → r ∈ sockets st → r ∉ room_sockets st "C" →
        (r, user_left "C" None) ∈ out) ∧
  (∀ r m, (r, m) ∈ out → r = "R" ∨ r ∈ members st "R") ∧
  room_sockets st' "R" = Set_delete "C" (room_sockets st "R") ∧
  (∀ R, members st' R = members st R) ∧
  userInfo st' = userInfo st ∧ roomHosts st' = roomHosts st ∧
  cleanupTimers st' !! "R" = Some (nextTimeout st) ∧
  timeouts st' !! nextTimeout st = Some ("R", 9 + 30000).
Proof.
  intros st st' out.
  assert (Hst : reachable st).
  { apply (run_reachable scenario_bystander initial);
      [apply reachable_initial | vm_compute; reflexivity]. }
  assert (Hu : userInfo st !! "C" = None) by (vm_compute; reflexivity).
  assert (Hs : "C" ∉ members st "R") by decide_by_compute.
  split; [by split_and!|].
  exact (leave_is_not_validated st "C" "R" 9 Hst Hu Hs).
Defined.

(** What the bystander's leave-room delivers: both members of R are told
    that Carol left. *)
Example bystander_leave_run :
  snd (handleLeave "C" "R" 9 (exec initial scenario_bystander))
  = [("A", user_left "C" None); ("B", user_left "C" None)].
Proof. vm_compute. reflexivity. Qed.

(** C10, the case it leaves out.  Room ids and socket ids name the same
    socket.io rooms.  Alice is the one member of the room whose id is the
    socket id of Sam; Sam, who has no presence entry and is no member of
    it, sends leave-room for that room: he leaves the socket.io room of his
    own id, the broadcast leaves out every socket of that room, and Alice,
    the remaining member, is sent nothing. *)
Lemma leave_is_not_validated_counterexample :
  let st := exec initial scenario_room_named_after_socket in
  run initial scenario_room_named_after_socket = Some st ∧
  enabled st (leave_room "S" "S" 3) = true ∧
  userInfo st !! "S" = None ∧ ("S" ∉ members st "S") ∧
  members st "S" = ["A"] ∧ "A" ∈ sockets st ∧
  snd (handleLeave "S" "S" 3 st) = [].
Proof.
  cbv zeta. split_and!; try (vm_compute; reflexivity); decide_by_compute.
Qed.

(** ** The admission round trip *)

Lemma handleJoin_empty_room client roomId userName now st :
  alreadyJoined client roomId st = false → members st roomId = [] →
  handleJoin client roomId userName now st
  = joinRoom client roomId userName
      (set_roomHosts (<[roomId := client]>)
         (set_userInfo (<[client := UserInfo.mk roomId userName now]>) st)).
Proof.
  intros Hdup Hm. unfold handleJoin. rewrite Hdup.
  change (roomParticipants (set_userInfo _ st)) with (roomParticipants st).
  unfold members in Hm.
  destruct (roomParticipants st !! roomId) as [l|]; simpl in *; by subst.
Qed.

Lemma handleJoin_pending client roomId userName now st h :
  alreadyJoined client roomId st = false → members st roomId ≠ [] →
  roomHosts st !! roomId = Some h → h ≠ EmptyString →
  handleJoin client roomId userName now st
  = (set_userInfo (<[client := UserInfo.mk roomId userName now]>) st,
     emit client waiting_for_approval
     ++ server_to st h (join_request client userName)).
Proof.
  intros Hdup Hm Hh Hne. unfold handleJoin. rewrite Hdup.
  change (roomParticipants (set_userInfo _ st)) with (roomParticipants st).
  change (roomHosts (set_userInfo _ st)) with (roomHosts st).
  unfold members in Hm. rewrite Hh.
  destruct (roomParticipants st !! roomId) as [[|x l]|]; simpl in *;
    try done.
  unfold js_or. by rewrite !truthy_Some.
Qed.

Lemma Set_delete_Set_add x (s : list string) :
  Set_delete x (Set_add x s) = Set_delete x s.
Proof.
  unfold Set_add. case_decide; [done|]. unfold Set_delete.
  rewrite filter_app, filter_cons, decide_False by auto.
  by rewrite filter_nil, app_nil_r.
Qed.

Lemma joinRoom_out client roomId userName st :
  snd (joinRoom client roomId userName st)
  = (match
       omap (λ socketId,
         match userInfo st !! socketId with
         | Some userInfoData =>
             if decide (socketId ≠ client)
             then Some (socketId, UserInfo.userName userInfoData)
             else None
         | None => None
         end) (members st roomId)
     with
     | [] => []
     | existingUsers => [(client, existing_users existingUsers)]
     end)
    ++ broadcast (socket_join client roomId st) roomId client
         (user_joined client userName).
Proof.
  unfold joinRoom, members. simpl. f_equal. by destruct (omap _ _).
Qed.

Lemma handleAdmit_by_host st h u roomId info :
  roomHosts st !! roomId = Some h → u ∈ sockets st →
  userInfo st !! u = Some info →
  handleAdmit h u roomId st
  = (fst (joinRoom u roomId (UserInfo.userName info) st),
     snd (joinRoom u roomId (UserInfo.userName info) st)
     ++ [(u, join_approved)]).
Proof.
  intros Hh Hu Hinfo. unfold handleAdmit.
  rewrite decide_False by (rewrite Hh; auto).
  rewrite decide_True by done. rewrite Hinfo.
  by destruct (joinRoom u roomId (UserInfo.userName info) st).
Qed.





(** The round trip of Alice and Bob in room R, as delivered. *)
Example admission_round_trip_run :
  let st := exec initial scenario_connected in
  let r1 := handleJoin "A" "R" "alice" 2 st in
  let r2 := handleJoin "B" "R" "bob" 3 (fst r1) in
  let r3 := handleAdmit "A" "B" "R" (fst r2) in
  snd r1 = [] ∧
  snd r2 = [("B", waiting_for_approval); ("A", join_request "B" "bob")] ∧
  snd r3 = [("B", existing_users [("A", "alice")]);
            ("A", user_joined "B" "bob"); ("B", join_approved)].
Proof. vm_compute. by split_and!. Qed.


(** ** Room cleanup *)

Lemma scheduleRoomCleanup_pending roomId now st h d :
  timeouts_indexed st →
  timeouts (scheduleRoomCleanup roomId now st) !! h = Some (roomId, d)
  ↔ h = nextTimeout st ∧ d = now + 30000.
Proof.
  intros Hinv. rewrite scheduleRoomCleanup_state. simpl. split.
  - destruct (decide (h = nextTimeout st)) as [->|Hne].
    + rewrite lookup_insert_eq. by intros [= <-].
    + rewrite lookup_insert_ne by done. intros Hh. exfalso.
      destruct (cleanupTimers st !! roomId) as [e|] eqn:He.
      * apply lookup_delete_Some in Hh as [Hne' Hold].
        destruct (Hinv _ _ _ Hold) as [Hc _]. congruence.
      * destruct (Hinv _ _ _ Hh) as [Hc _]. congruence.
  - intros [-> ->]. apply lookup_insert_eq.
Qed.

Lemma fireTimeout_armed handle roomId deadline st :
  timeouts st !! handle = Some (roomId, deadline) →
  let st' := fireTimeout handle st in
  timeouts st' !! handle = None ∧
  match members st roomId with
  | [] => roomParticipants st' !! roomId = None ∧
          roomHosts st' !! roomId = None ∧
          cleanupTimers st' !! roomId = None
  | _ :: _ => roomParticipants st' = roomParticipants st ∧
              roomHosts st' = roomHosts st ∧
              cleanupTimers st' = cleanupTimers st
  end.
Proof.
  intros Hh. unfold fireTimeout, members. rewrite Hh.
  unfold roomCleanup. simpl.
  destruct (roomParticipants st !! roomId) as [[|x l]|]; simpl;
    rewrite !lookup_delete_eq; done.
Qed.

(** C7. (1) In a reachable state [st] no room has two armed cleanup tasks;
    (2) scheduling the cleanup of [roomId] cancels the task that was armed
    for it and leaves exactly one, due 30 s after [now]; (3) in any state
    [st0] whatever, when an armed task of [roomId] fires it is consumed,
    and the member set, the host pointer and the timer entry of the room
    are deleted if the member set is empty at that moment and are left as
    they are otherwise; (4) if a session joins the empty room while the
    task is armed, it becomes the only member and the host, the task stays
    armed, and its firing deletes nothing. *)
Theorem cleanup_is_debounced st st0 roomId :
  reachable st →
  one_cleanup_per_room st ∧
  (∀ now,
     let st' := scheduleRoomCleanup roomId now st in
     (∀ h d, timeouts st !! h = Some (roomId, d) → timeouts st' !! h = None) ∧
     (∀ h d, timeouts st' !! h = Some (roomId, d)
             ↔ h = nextTimeout st ∧ d = now + 30000) ∧
     one_cleanup_per_room st') ∧
  (∀ h d,
     timeouts st0 !! h = Some (roomId, d) →
     let st' := fireTimeout h st0 in
     timeouts st' !! h = None ∧
     match members st0 roomId with
     | [] => roomParticipants st' !! roomId = None ∧
             roomHosts st' !! roomId = None ∧
             cleanupTimers st' !! roomId = None
     | _ :: _ => roomParticipants st' = roomParticipants st0 ∧
                 roomHosts st' = roomHosts st0 ∧
                 cleanupTimers st' = cleanupTimers st0
     end) ∧
  (∀ s userName now h d,
     members st roomId = [] → alreadyJoined s roomId st = false →
     timeouts st !! h = Some (roomId, d) →
     let st1 := fst (handleJoin s roomId userName now st) in
     let st2 := fireTimeout h st1 in
     members st1 roomId = [s] ∧ roomHosts st1 !! roomId = Some s ∧
     timeouts st1 !! h = Some (roomId, d) ∧
     members st2 roomId = [s] ∧ roomHosts st2 !! roomId = Some s).
Proof.
  intros Hst. pose proof (reachable_timeouts_indexed st Hst) as Hinv.
  split_and!.
  - by apply timeouts_indexed_one_cleanup.
  - intros now st'. split_and!.
    + intros h d Hh.
      destruct (timeouts st' !! h) as [[R' d']|] eqn:Hh'; [|done]. exfalso.
      pose proof (timeouts_indexed_scheduleRoomCleanup roomId now st Hinv)
        as Hinv'.
      destruct (Hinv' _ _ _ Hh') as [Hc' _]. destruct (Hinv _ _ _ Hh) as [_ Hlt].
      unfold st' in Hc', Hh'. rewrite scheduleRoomCleanup_state in Hc', Hh'.
      simpl in Hc', Hh'.
      rewrite lookup_insert_ne in Hh' by lia.
      destruct (decide (R' = roomId)) as [->|HR].
      * rewrite lookup_insert_eq in Hc'. injection Hc' as Hc'. lia.
      * rewrite lookup_insert_ne in Hc' by done.
        assert (Hold : timeouts st !! h = Some (R', d')).
        { destruct (cleanupTimers st !! roomId); [|done].
          apply lookup_delete_Some in Hh'. tauto. }
        congruence.
    + intros h d. by apply scheduleRoomCleanup_pending.
    + by apply timeouts_indexed_one_cleanup,
        timeouts_indexed_scheduleRoomCleanup.
  - intros h d Hh. by apply (fireTimeout_armed h roomId d).
  - intros s userName now h d Hm Hdup Hh st1 st2.
    assert (Hst1 : st1 = fst (joinRoom s roomId userName
               (set_roomHosts (<[roomId := s]>)
                  (set_userInfo
                     (<[s := UserInfo.mk roomId userName now]>) st)))).
    { unfold st1. by rewrite handleJoin_empty_room. }
    assert (Hp1 : roomParticipants st1 !! roomId = Some [s]).
    { rewrite Hst1, joinRoom_state. simpl. rewrite lookup_insert_eq.
      change (members (set_roomHosts _ (set_userInfo _ st)) roomId)
        with (members st roomId).
      rewrite Hm. unfold Set_add.
      by rewrite decide_False by apply not_elem_of_nil. }
    assert (Hh1 : roomHosts st1 !! roomId = Some s).
    { rewrite Hst1, joinRoom_state. simpl. apply lookup_insert_eq. }
    assert (Ht1 : timeouts st1 !! h = Some (roomId, d)).
    { by rewrite Hst1, joinRoom_state. }
    destruct (fireTimeout_armed h roomId d st1 Ht1) as [_ Hfire].
    fold st2 in Hfire. unfold members in *. rewrite Hp1 in Hfire.
    destruct Hfire as (Hp2 & Hh2 & _). rewrite Hp2, Hh2, Hp1. done.
Qed.

Lemma cleanup_is_debounced_witness :
  let st := exec initial scenario_emptied in
  let st0 := abandoned_room_state in
  (reachable st ∧ timeouts st !! 0%nat = Some ("R", 30003) ∧
   timeouts st0 !! 0%nat = Some ("R", 30000) ∧
   roomParticipants st0 !! "R" = Some [] ∧ roomHosts st0 !! "R" = Some "A") ∧
  one_cleanup_per_room st ∧
  (∀ now,
     let st' := scheduleRoomCleanup "R" now st in
     (∀ h d, timeouts st !! h = Some ("R", d) → timeouts st' !! h = None) ∧
     (∀ h d, timeouts st' !! h = Some ("R", d)
             ↔ h = nextTimeout st ∧ d = now + 30000) ∧
     one_cleanup_per_room st') ∧
  (∀ h d,
     timeouts st0 !! h = Some ("R", d) →
     let st' := fireTimeout h st0 in
     timeouts st' !! h = None ∧
     match members st0 "R" with
     | [] => roomParticipants st' !! "R" = None ∧ roomHosts st' !! "R" = None ∧
             cleanupTimers st' !! "R" = None
     | _ :: _ => roomParticipants st' = roomParticipants st0 ∧
                 roomHosts st' = roomHosts st0 ∧
                 cleanupTimers st' = cleanupTimers st0
     end) ∧
  (∀ s userName now h d,
     members st "R" = [] → alreadyJoined s "R" st = false →
     timeouts st !! h = Some ("R", d) →
     let st1 := fst (handleJoin s "R" userName now st) in
     let st2 := fireTimeout h st1 in
     members st1 "R" = [s] ∧ roomHosts st1 !! "R" = Some s ∧
     timeouts st1 !! h = Some ("R", d) ∧
     members st2 "R" = [s] ∧ roomHosts st2 !! "R" = Some s).
Proof.
  intros st st0.
  assert (Hst : reachable st).
  { apply (run_reachable scenario_emptied initial);
      [apply reachable_initial | vm_compute; reflexivity]. }
  split; [split_and!; try exact Hst; vm_compute; reflexivity|].
  exact (cleanup_is_debounced st st0 "R" Hst).
Defined.

(** The closure on a room record that is still there: firing the task of
    the abandoned room deletes its member set, its host pointer and its
    timer entry. *)
Example abandoned_room_run :
  let st' := fireTimeout 0%nat abandoned_room_state in
  roomParticipants st' !! "R" = None ∧ roomHosts st' !! "R" = None ∧
  cleanupTimers st' !! "R" = None ∧ timeouts st' !! 0%nat = None.
Proof. vm_compute. by split_and!. Qed.

(** The two ends of the reclamation scenario, run from the initial state:
    the armed task fires on the empty room, or Bob joins first. *)
Example reclamation_run :
  let st := exec initial scenario_emptied in
  let reclaimed := exec st [timeout 0%nat 30003] in
  let reused := exec st [join_room "B" "R" "bob" 5; timeout 0%nat 30003] in
  (roomParticipants reclaimed !! "R" = None ∧
   roomHosts reclaimed !! "R" = None ∧
   cleanupTimers reclaimed !! "R" = None) ∧
  (roomParticipants reused !! "R" = Some ["B"] ∧
   roomHosts reused !! "R" = Some "B").
Proof. vm_compute. by split_and!. Qed.

(** ** The rate limiter *)

Lemma handleConnection_decision client ip now st :
  snd (handleConnection client ip now st)
  = negb (Nat.ltb 50
            (List.length
               (filter (λ time, now - time < 60000) (recorded st ip)))).
Proof. unfold handleConnection, recorded. by case_match. Qed.

Lemma handleConnection_recorded client ip now st :
  recorded (fst (handleConnection client ip now st)) ip
  = let recentAttempts :=
      filter (λ time, now - time < 60000) (recorded st ip) in
    if (50 <? List.length recentAttempts)%nat then recorded st ip
    else recentAttempts ++ [now].
Proof.
  unfold handleConnection, recorded. case_match; simpl; [done|].
  by rewrite lookup_insert_eq.
Qed.

Lemma filter_all (P : Z → Prop) `{!∀ x, Decision (P x)} (l : list Z) :
  (∀ x, x ∈ l → P x) → filter P l = l.
Proof.
  induction l as [|x l IH]; intros Hall; [done|].
  rewrite filter_cons, decide_True by (apply Hall; left).
  rewrite IH; [done|]. intros y Hy. apply Hall. by right.
Qed.

Lemma admissions_from ip attempts : ∀ st,
  (List.length (recorded st ip) ≤ 51)%nat →
  (∀ t t', t ∈ recorded st ip ++ attempts.*2 → t' ∈ attempts.*2 →
           t' - t < 60000) →
  admissions ip attempts st
  = replicate
      (List.length attempts `min` (51 - List.length (recorded st ip))) true
    ++ replicate
         (List.length attempts - (51 - List.length (recorded st ip))) false.
Proof.
  induction attempts as [|[client now] rest IH]; intros st Hlen Hwin; [done|].
  cbn [admissions].
  set (st0 := socket_open client st).
  assert (Hrec0 : recorded st0 ip = recorded st ip) by done.
  assert (Hfil : filter (λ time, now - time < 60000) (recorded st ip)
                 = recorded st ip).
  { apply filter_all. intros t Ht. apply Hwin.
    - apply elem_of_app. by left.
    - simpl. left. }
  rewrite handleConnection_decision, Hrec0, Hfil.
  pose proof (handleConnection_recorded client ip now st0) as Hrec.
  rewrite Hrec0 in Hrec. cbv zeta in Hrec. rewrite Hfil in Hrec.
  destruct (50 <? List.length (recorded st ip))%nat eqn:Hfull.
  - apply Nat.ltb_lt in Hfull.
    rewrite IH; rewrite Hrec; [|done|].
    + replace (51 - List.length (recorded st ip))%nat with 0%nat by lia.
      cbn [negb List.length]. rewrite !Nat.min_0_r, !Nat.sub_0_r. done.
    + intros t t' Ht Ht'. apply Hwin; [|by right].
      simpl. apply elem_of_app in Ht as [Ht|Ht]; apply elem_of_app;
        [by left | right; by right].
  - apply Nat.ltb_ge in Hfull.
    rewrite IH; rewrite Hrec; rewrite ?length_app; simpl; [|lia|].
    + replace (51 - List.length (recorded st ip))%nat
        with (S (51 - (List.length (recorded st ip) + 1)))%nat by lia.
      done.
    + intros t t' Ht Ht'. apply Hwin; [|by right].
      simpl. rewrite <- app_assoc in Ht. exact Ht.
Qed.

(** C2 (what the code does). On an origin without recorded attempts, when
    the attempts all lie within one 60-second window, the limiter keeps the
    first 51 connections and closes every later one: the 51st attempt is
    admitted, the first refusal is the 52nd. *)
Theorem rate_limiter_admits_51 ip attempts st :
  connectionAttempts st !! ip = None →
  (∀ t t', t ∈ attempts.*2 → t' ∈ attempts.*2 → t' - t < 60000) →
  admissions ip attempts st
  = replicate (List.length attempts `min` 51) true
    ++ replicate (List.length attempts - 51) false.
Proof.
  intros Hnone Hwin.
  assert (Hrec : recorded st ip = []) by (unfold recorded; by rewrite Hnone).
  rewrite (admissions_from ip attempts st); rewrite Hrec; simpl;
    [done | lia | done].
Qed.

Lemma rate_limiter_admits_51_witness :
  (connectionAttempts initial !! "10.0.0.1" = None ∧
   ∀ t t', t ∈ (burst 52 0).*2 → t' ∈ (burst 52 0).*2 → t' - t < 60000) ∧
  admissions "10.0.0.1" (burst 52 0) initial = replicate 51 true ++ [false].
Proof.
  assert (Hnone : connectionAttempts initial !! "10.0.0.1" = None)
    by (vm_compute; reflexivity).
  assert (Hwin : ∀ t t', t ∈ (burst 52 0).*2 → t' ∈ (burst 52 0).*2 →
                         t' - t < 60000).
  { assert (Hzero : ∀ t, t ∈ (burst 52 0).*2 → t = 0).
    { intros t Ht. unfold burst in Ht. rewrite <- list_fmap_compose in Ht.
      apply list_elem_of_fmap in Ht as (k & -> & _). done. }
    intros t t' ->%Hzero ->%Hzero. lia. }
  split; [by split|].
  exact (rate_limiter_admits_51 "10.0.0.1" (burst 52 0) initial Hnone Hwin).
Defined.

(** Attempts that are 60 seconds old or older do not count: whatever their
    number, the connection is kept and only [now] stays recorded. *)
Lemma stale_attempts_do_not_count client ip now st :
  (∀ t, t ∈ recorded st ip → 60000 ≤ now - t) →
  snd (handleConnection client ip now st) = true ∧
  recorded (fst (handleConnection client ip now st)) ip = [now].
Proof.
  intros Hold.
  assert (Hfil : filter (λ time, now - time < 60000) (recorded st ip) = []).
  { induction (recorded st ip) as [|t l IH]; [done|].
    rewrite filter_cons, decide_False.
    - apply IH. intros t' Ht'. apply Hold. by right.
    - specialize (Hold t (list_elem_of_here _ _)). lia. }
  rewrite handleConnection_decision, handleConnection_recorded.
  cbv zeta. by rewrite Hfil.
Qed.

(** ** One room per session *)

Lemma in_no_other_room_spec sid roomId st :
  in_no_other_room sid roomId st ↔ ∀ R, R ≠ roomId → sid ∉ members st R.
Proof.
  unfold in_no_other_room, members. rewrite map_Forall_lookup. split.
  - intros H R HR. destruct (roomParticipants st !! R) as [l|] eqn:Hl.
    + destruct (H R l Hl); done.
    + apply not_elem_of_nil.
  - intros H R l Hl. destruct (decide (R = roomId)); [by left|right].
    specialize (H R). rewrite Hl in H. by apply H.
Qed.

Lemma at_most_one_room_shrink st st' :
  (∀ R x, x ∈ members st' R → x ∈ members st R) →
  at_most_one_room st → at_most_one_room st'.
Proof. intros Hsub Hinv s R1 R2 H1 H2. eapply Hinv; by apply Hsub. Qed.

(** Adding one session to one member set keeps the rooms disjoint when the
    session is in no other room. *)
Lemma at_most_one_room_add st st' s R :
  (∀ R' x, x ∈ members st' R' → x ∈ members st R' ∨ (x = s ∧ R' = R)) →
  (s ∉ members st R → s ∈ members st' R → in_no_other_room s R st) →
  at_most_one_room st → at_most_one_room st'.
Proof.
  intros Hsub Hg Hinv x R1 R2 H1 H2.
  assert (Hnew : ∀ R', s ∈ members st R' → s ∈ members st' R → R' = R).
  { intros R' Hold Hin. destruct (decide (s ∈ members st R)) as [Hs|Hs].
    - by eapply Hinv.
    - destruct (decide (R' = R)) as [|Hne]; [done|]. exfalso.
      by apply (proj1 (in_no_other_room_spec s R st) (Hg Hs Hin) R' Hne). }
  destruct (Hsub _ _ H1) as [H1' | [-> ->]],
           (Hsub _ _ H2) as [H2' | [? ?]]; subst.
  - by eapply Hinv.
  - by apply Hnew.
  - symmetry. by apply Hnew.
  - done.
Qed.

Lemma joinRoom_members_sub client roomId userName st R x :
  x ∈ members (fst (joinRoom client roomId userName st)) R →
  x ∈ members st R ∨ (x = client ∧ R = roomId).
Proof.
  rewrite joinRoom_members. case_decide; subst; [|by left].
  rewrite elem_of_Set_add. intros [-> | ?]; auto.
Qed.

Lemma at_most_one_room_handleUserLeave client roomId now st :
  at_most_one_room st →
  at_most_one_room (fst (handleUserLeave client roomId now st)).
Proof.
  apply at_most_one_room_shrink. intros R x.
  rewrite handleUserLeave_members. case_decide; subst; [|done].
  rewrite elem_of_Set_delete. tauto.
Qed.

Lemma at_most_one_room_step st i :
  one_room_at_a_time st i = true → at_most_one_room st →
  at_most_one_room (fst (step st i)).
Proof.
  intros Hguard Hinv. destruct i; simpl; try done.
  - unfold handleConnection. by case_match.
  - assert (Hg : client ∉ members st roomId →
                 client ∈ members
                            (fst (handleJoin client roomId userName now st))
                            roomId →
                 in_no_other_room client roomId st).
    { intros Hn Hi. unfold one_room_at_a_time, added_member in Hguard.
      rewrite decide_True in Hguard by (split; [exact Hn | exact Hi]).
      by apply bool_decide_eq_true_1 in Hguard. }
    apply (at_most_one_room_add st _ client roomId); [|exact Hg|exact Hinv].
    intros R' x.
    destruct (handleJoin_cases client roomId userName now st)
      as [-> | [[out ->] | [[_ ->] | [_ ->]]]];
      [by left | by left | |];
      intros Hx; exact (joinRoom_members_sub _ _ _ _ _ _ Hx).
  - assert (Hg : userId ∉ members st roomId →
                 userId ∈ members
                            (fst (handleAdmit client userId roomId st))
                            roomId →
                 in_no_other_room userId roomId st).
    { intros Hn Hi. unfold one_room_at_a_time, added_member in Hguard.
      rewrite decide_True in Hguard by (split; [exact Hn | exact Hi]).
      by apply bool_decide_eq_true_1 in Hguard. }
    apply (at_most_one_room_add st _ userId roomId); [|exact Hg|exact Hinv].
    intros R' x. unfold handleAdmit. repeat case_decide; try by left.
    destruct (userInfo st !! userId) as [u|]; [|by left].
    pose proof (joinRoom_members_sub userId roomId (UserInfo.userName u)
                  st R' x) as H'.
    by destruct (joinRoom userId roomId (UserInfo.userName u) st).
  - unfold handleReject. by repeat case_decide.
  - by apply at_most_one_room_handleUserLeave.
  - destruct (userInfo (socket_close client st) !! client) as [u|] eqn:Hu.
    + rewrite (handleDisconnect_joined _ _ _ _ Hu). simpl.
      apply (at_most_one_room_shrink
               (fst (handleUserLeave client (UserInfo.roomId u) now
                       (socket_close client st)))); [done|].
      by apply at_most_one_room_handleUserLeave.
    + by rewrite (handleDisconnect_unjoined _ _ _ Hu).
  - unfold fireTimeout. destruct (timeouts st !! handle) as [[R d]|]; [|done].
    apply (at_most_one_room_shrink st); [|done].
    intros R' x. by rewrite roomCleanup_members.
Qed.

Lemma reachable_one_room_reachable st :
  reachable_one_room st → reachable st.
Proof.
  induction 1; [apply reachable_initial | by apply reachable_step].
Qed.

Lemma run_one_room_reachable inputs : ∀ st st',
  reachable_one_room st → run_one_room st inputs = Some st' →
  reachable_one_room st'.
Proof.
  induction inputs as [|i inputs IH]; intros st st' Hst Hrun; simpl in Hrun.
  - by inversion Hrun; subst.
  - destruct (enabled st i) eqn:Hen; [|done].
    destruct (one_room_at_a_time st i) eqn:Hg; [|done].
    eapply IH; [|exact Hrun]. by apply reachable_one_room_step.
Qed.

(** C1 (as amended). join-room and admit-user add a session to a member
    set without taking it out of another one.  In every state reached by
    inputs in which the session that a join-room or an admit-user would add
    is in no other room's member set at that moment, no session is in the
    member sets of two distinct rooms. *)
Theorem one_room_per_session st :
  reachable_one_room st → at_most_one_room st.
Proof.
  induction 1 as [|st i _ IH _ Hguard].
  - intros s R1 R2 H1. unfold members in H1. simpl in H1.
    rewrite lookup_empty in H1. by apply not_elem_of_nil in H1.
  - by apply at_most_one_room_step.
Qed.

Lemma one_room_per_session_witness :
  let st := exec initial scenario_asks_elsewhere in
  reachable_one_room st ∧ at_most_one_room st.
Proof.
  intros st.
  assert (Hst : reachable_one_room st).
  { apply (run_one_room_reachable scenario_asks_elsewhere initial);
      [apply reachable_one_room_initial | vm_compute; reflexivity]. }
  split; [exact Hst|]. exact (one_room_per_session st Hst).
Defined.

(** C1 (as stated) fails: after join-room(R1) and join-room(R2) from the
    same session, both rooms being empty, the session is a member (and the
    host) of both. *)
Lemma one_room_per_session_counterexample :
  let st := exec initial scenario_two_joins in
  reachable st ∧ members st "R1" = ["A"] ∧ members st "R2" = ["A"] ∧
  ¬ at_most_one_room st.
Proof.
  intros st.
  assert (H1 : members st "R1" = ["A"]) by (vm_compute; reflexivity).
  assert (H2 : members st "R2" = ["A"]) by (vm_compute; reflexivity).
  split_and!; try done.
  - apply (run_reachable scenario_two_joins initial);
      [apply reachable_initial | vm_compute; reflexivity].
  - intros Hinv. specialize (Hinv "A" "R1" "R2").
    rewrite H1, H2 in Hinv.
    discriminate (Hinv (list_elem_of_here _ _) (list_elem_of_here _ _)).
Qed.

(** * Further properties of the gateway *)

(** ** The room tables *)

Lemma handleUserLeave_roomParticipants client roomId now st :
  roomParticipants (fst (handleUserLeave client roomId now st))
  = match Set_delete client <$> roomParticipants st !! roomId with
    | None => roomParticipants st
    | Some [] => delete roomId (roomParticipants st)
    | Some p => <[roomId := p]> (roomParticipants st)
    end.
Proof.
  leave_cases st roomId client; rewrite ?Hl; simpl; rewrite ?Hd; done.
Qed.

Lemma no_empty_room_joinRoom client roomId userName st :
  no_empty_room st → no_empty_room (fst (joinRoom client roomId userName st)).
Proof.
  intros Hinv R l. rewrite joinRoom_state. simpl.
  destruct (decide (R = roomId)) as [->|HR].
  - rewrite lookup_insert_eq. intros [= <-]. unfold Set_add.
    case_decide as Hin; [|by destruct (members st roomId)].
    intros Hnil. rewrite Hnil in Hin. by apply not_elem_of_nil in Hin.
  - rewrite lookup_insert_ne by done. apply Hinv.
Qed.

Lemma no_empty_room_handleUserLeave client roomId now st :
  no_empty_room st →
  no_empty_room (fst (handleUserLeave client roomId now st)).
Proof.
  intros Hinv R l. rewrite handleUserLeave_roomParticipants.
  destruct (roomParticipants st !! roomId) as [l0|] eqn:Hl0; simpl;
    [|apply Hinv].
  destruct (Set_delete client l0) as [|x l'] eqn:Hd;
    (destruct (decide (R = roomId)) as [->|HR];
     [ rewrite ?lookup_delete_eq, ?lookup_insert_eq; by intros [= <-]
     | rewrite ?lookup_delete_ne, ?lookup_insert_ne by done; apply Hinv ]).
Qed.

Lemma no_empty_room_roomCleanup roomId st :
  no_empty_room st → no_empty_room (roomCleanup roomId st).
Proof.
  intros Hinv R l. unfold roomCleanup.
  destruct (roomParticipants st !! roomId) as [[|x l0]|] eqn:Hl0; simpl;
    try apply Hinv;
    (destruct (decide (R = roomId)) as [->|HR];
     [ by rewrite lookup_delete_eq
     | rewrite lookup_delete_ne by done; apply Hinv ]).
Qed.

Lemma no_empty_room_step st i :
  no_empty_room st → no_empty_room (fst (step st i)).
Proof.
  intros Hinv. destruct i; simpl; try done.
  - unfold handleConnection. by case_match.
  - destruct (handleJoin_cases client roomId userName now st)
      as [-> | [[out ->] | [[_ ->] | [_ ->]]]]; [done | done | |];
      by apply no_empty_room_joinRoom.
  - unfold handleAdmit. repeat case_decide; try done.
    destruct (userInfo st !! userId) as [u|]; [|done].
    pose proof (no_empty_room_joinRoom userId roomId (UserInfo.userName u)
                  st Hinv) as H'.
    by destruct (joinRoom userId roomId (UserInfo.userName u) st).
  - unfold handleReject. by repeat case_decide.
  - by apply no_empty_room_handleUserLeave.
  - destruct (userInfo (socket_close client st) !! client) as [u|] eqn:Hu.
    + rewrite (handleDisconnect_joined _ _ _ _ Hu). simpl.
      by apply (no_empty_room_handleUserLeave client (UserInfo.roomId u) now
                  (socket_close client st)).
    + by rewrite (handleDisconnect_unjoined _ _ _ Hu).
  - unfold fireTimeout. destruct (timeouts st !! handle) as [[R d]|]; [|done].
    by apply (no_empty_room_roomCleanup R (clearTimeout handle st)).
Qed.

Lemma reachable_no_empty_room st : reachable st → no_empty_room st.
Proof.
  induction 1 as [|st i _ IH _].
  - intros R l Hl. simpl in Hl. by rewrite lookup_empty in Hl.
  - by apply no_empty_room_step.
Qed.

(** X1. In a reachable state a room has a recorded host exactly when it has
    members, and the recorded host is one of them. *)
Theorem host_recorded_iff_members st roomId :
  reachable st →
  (roomHosts st !! roomId = None ↔ members st roomId = []) ∧
  (∀ h, roomHosts st !! roomId = Some h → h ∈ members st roomId).
Proof.
  intros Hst.
  pose proof (reachable_host_is_member st Hst) as Hmem.
  pose proof (reachable_members_have_host st Hst) as Hhost.
  split; [split|].
  - intros Hnone. destruct (members st roomId) as [|x l] eqn:Hm; [done|].
    destruct (Hhost roomId) as [h Hh]; [by rewrite Hm | congruence].
  - intros Hnil. destruct (roomHosts st !! roomId) as [h|] eqn:Hh; [|done].
    apply Hmem in Hh. rewrite Hnil in Hh. by apply not_elem_of_nil in Hh.
  - intros h. apply Hmem.
Qed.

Lemma host_recorded_iff_members_witness :
  let st := exec initial scenario_two_members in
  reachable st ∧
  (roomHosts st !! "R" = None ↔ members st "R" = []) ∧
  (∀ h, roomHosts st !! "R" = Some h → h ∈ members st "R").
Proof.
  intros st.
  assert (Hst : reachable st).
  { apply (run_reachable scenario_two_members initial);
      [apply reachable_initial | vm_compute; reflexivity]. }
  split; [exact Hst|]. exact (host_recorded_iff_members st "R" Hst).
Defined.

(** X2. In a reachable state every member set kept in [roomParticipants]
    is non-empty and holds no session twice. *)
Theorem member_sets_nonempty_distinct st roomId participants :
  reachable st → roomParticipants st !! roomId = Some participants →
  participants ≠ [] ∧ NoDup participants.
Proof.
  intros Hst Hl. split.
  - by apply (reachable_no_empty_room st Hst roomId).
  - pose proof (reachable_members_NoDup st roomId Hst) as Hnd.
    unfold members in Hnd. by rewrite Hl in Hnd.
Qed.

Lemma member_sets_nonempty_distinct_witness :
  let st := exec initial scenario_two_members in
  (reachable st ∧ roomParticipants st !! "R" = Some ["A"; "B"]) ∧
  ["A"; "B"] ≠ [] ∧ NoDup ["A"; "B"].
Proof.
  intros st.
  assert (Hst : reachable st).
  { apply (run_reachable scenario_two_members initial);
      [apply reachable_initial | vm_compute; reflexivity]. }
  assert (Hl : roomParticipants st !! "R" = Some ["A"; "B"])
    by (vm_compute; reflexivity).
  split; [by split|].
  exact (member_sets_nonempty_distinct st "R" ["A"; "B"] Hst Hl).
Defined.

(** X3. In a reachable state every id in a socket.io room is that of a
    connected socket.  The socket.io room named by a room id holds every
    cached participant of the room whose socket is open, and the one socket
    that can sit in it without being a cached participant is the socket
    whose own id is the room id.  So when the room id is not the id of a
    connected socket, the socket.io room holds exactly the cached
    participants with an open socket. *)
Theorem cache_mirrors_transport_room st roomId :
  reachable st →
  (∀ sid, sid ∈ room_sockets st roomId → sid ∈ sockets st) ∧
  (∀ sid, sid ∈ members st roomId → sid ∈ sockets st →
          sid ∈ room_sockets st roomId) ∧
  (∀ sid, sid ∈ room_sockets st roomId → sid ≠ roomId →
          sid ∈ members st roomId) ∧
  (roomId ∉ sockets st →
   ∀ sid, sid ∈ room_sockets st roomId
          ↔ sid ∈ members st roomId ∧ sid ∈ sockets st).
Proof.
  intros Hst.
  pose proof (reachable_transport_mirrors st Hst roomId) as Hmir.
  split_and!.
  - intros sid Hr. by apply (Hmir sid).
  - intros sid. apply (Hmir sid).
  - intros sid Hr Hne. by destruct (proj2 (Hmir sid) Hr) as [_ [? | ?]].
  - intros Hclosed sid. split.
    + intros Hr. destruct (proj2 (Hmir sid) Hr) as [Hs [-> | ?]]; done.
    + intros [? ?]. by apply (Hmir sid).
Qed.

Lemma cache_mirrors_transport_room_witness :
  let st := exec initial scenario_room_named_after_socket in
  (reachable st ∧ room_sockets st "S" = ["S"; "A"] ∧ members st "S" = ["A"]) ∧
  (∀ sid, sid ∈ room_sockets st "S" → sid ∈ sockets st) ∧
  (∀ sid, sid ∈ members st "S" → sid ∈ sockets st →
          sid ∈ room_sockets st "S") ∧
  (∀ sid, sid ∈ room_sockets st "S" → sid ≠ "S" → sid ∈ members st "S") ∧
  ("S" ∉ sockets st →
   ∀ sid, sid ∈ room_sockets st "S"
          ↔ sid ∈ members st "S" ∧ sid ∈ sockets st).
Proof.
  intros st.
  assert (Hst : reachable st).
  { apply (run_reachable scenario_room_named_after_socket initial);
      [apply reachable_initial | vm_compute; reflexivity]. }
  split; [split_and!; [exact Hst | |]; vm_compute; reflexivity|].
  exact (cache_mirrors_transport_room st "S" Hst).
Defined.

Lemma reachable_empty_room_unrecorded st roomId :
  reachable st → members st roomId = [] →
  roomParticipants st !! roomId = None ∧ roomHosts st !! roomId = None.
Proof.
  intros Hst Hm. split.
  - destruct (roomParticipants st !! roomId) as [l|] eqn:Hl; [|done].
    pose proof (reachable_no_empty_room st Hst roomId l Hl) as Hne.
    unfold members in Hm. rewrite Hl in Hm. simpl in Hm. by subst.
  - destruct (roomHosts st !! roomId) as [h|] eqn:Hh; [|done].
    apply (reachable_host_is_member st Hst) in Hh. rewrite Hm in Hh.
    by apply not_elem_of_nil in Hh.
Qed.

(** X4. In a reachable state the firing of a cleanup task changes neither
    a member set nor a host pointer nor a presence entry, and emits
    nothing: a room without members has no record left for the task to
    delete.  All the task removes is itself and, when the room is empty,
    the room's entry in [cleanupTimers]: the state after the firing is the
    state before it with these two changes and no other. *)
Theorem cleanup_firing_changes_no_room st handle now :
  reachable st → enabled st (timeout handle now) = true →
  let st' := fst (step st (timeout handle now)) in
  roomParticipants st' = roomParticipants st ∧
  roomHosts st' = roomHosts st ∧ userInfo st' = userInfo st ∧
  timeouts st' = delete handle (timeouts st) ∧
  (∃ roomId deadline,
     timeouts st !! handle = Some (roomId, deadline) ∧
     st' = set_cleanupTimers
             (match members st roomId with
              | [] => delete roomId
              | _ :: _ => λ timers, timers
              end) (clearTimeout handle st)) ∧
  snd (step st (timeout handle now)) = [].
Proof.
  intros Hst Hen. simpl in *. unfold fireTimeout, members.
  destruct (timeouts st !! handle) as [[roomId d]|] eqn:Hh; [|done].
  unfold roomCleanup. simpl.
  destruct (roomParticipants st !! roomId) as [[|x l]|] eqn:Hl; simpl.
  - by destruct (reachable_no_empty_room st Hst roomId [] Hl).
  - split_and!; try done. exists roomId, d. by rewrite Hl.
  - destruct (reachable_empty_room_unrecorded st roomId Hst) as [_ Hnone].
    { unfold members. by rewrite Hl. }
    rewrite (delete_id (roomParticipants st)) by done.
    rewrite (delete_id (roomHosts st)) by done.
    split_and!; try done. exists roomId, d. rewrite Hl. split; [done|].
    unfold set_cleanupTimers, set_roomHosts, set_roomParticipants. simpl.
    rewrite (delete_id (roomParticipants st)) by done.
    by rewrite (delete_id (roomHosts st)) by done.
Qed.

Lemma cleanup_firing_changes_no_room_witness :
  let st := exec initial scenario_emptied in
  let st' := fst (step st (timeout 0%nat 30003)) in
  (reachable st ∧ enabled st (timeout 0%nat 30003) = true ∧
   cleanupTimers st !! "R" = Some 0%nat) ∧
  roomParticipants st' = roomParticipants st ∧
  roomHosts st' = roomHosts st ∧ userInfo st' = userInfo st ∧
  timeouts st' = delete 0%nat (timeouts st) ∧
  (∃ roomId deadline,
     timeouts st !! 0%nat = Some (roomId, deadline) ∧
     st' = set_cleanupTimers
             (match members st roomId with
              | [] => delete roomId
              | _ :: _ => λ timers, timers
              end) (clearTimeout 0%nat st)) ∧
  snd (step st (timeout 0%nat 30003)) = [].
Proof.
  intros st.
  assert (Hst : reachable st).
  { apply (run_reachable scenario_emptied initial);
      [apply reachable_initial | vm_compute; reflexivity]. }
  assert (Hen : enabled st (timeout 0%nat 30003) = true)
    by (vm_compute; reflexivity).
  split; [split_and!; [exact Hst | exact Hen | vm_compute; reflexivity]|].
  exact (cleanup_firing_changes_no_room st 0%nat 30003 Hst Hen).
Defined.

(** X5. When the only member of a room leaves it in a reachable state, the
    member set and the host pointer of the room are gone at once, before
    any cleanup task fires; the task armed by the leave, due 30 s later, is
    the one armed task of the room, and it is the task that the room's
    entry in [cleanupTimers] holds. *)
Theorem last_member_leaving_empties_room st h roomId now :
  reachable st → members st roomId = [h] →
  let st' := fst (handleLeave h roomId now st) in
  roomParticipants st' !! roomId = None ∧ roomHosts st' !! roomId = None ∧
  userInfo st' !! h = None ∧
  cleanupTimers st' !! roomId = Some (nextTimeout st) ∧
  ∀ h' d, timeouts st' !! h' = Some (roomId, d)
          ↔ h' = nextTimeout st ∧ d = now + 30000.
Proof.
  intros Hst Hm st'. unfold st', handleLeave.
  assert (Hh : roomHosts st !! roomId = Some h).
  { destruct (reachable_members_have_host st Hst roomId) as [h' Hh'];
      [by rewrite Hm|].
    pose proof (reachable_host_is_member st Hst roomId h' Hh') as Hin.
    rewrite Hm in Hin. by apply list_elem_of_singleton in Hin as ->. }
  assert (Hl : roomParticipants st !! roomId = Some [h]).
  { unfold members in Hm.
    destruct (roomParticipants st !! roomId) as [l|]; simpl in Hm;
      [by subst | done]. }
  assert (Hdel : Set_delete h [h] = []).
  { unfold Set_delete. by rewrite filter_cons, decide_False by auto. }
  split_and!.
  - rewrite handleUserLeave_roomParticipants, Hl. simpl. rewrite Hdel.
    apply lookup_delete_eq.
  - rewrite handleUserLeave_roomHosts, decide_True, Hm, Hdel by done.
    apply lookup_delete_eq.
  - rewrite handleUserLeave_userInfo. apply lookup_delete_eq.
  - destruct (handleUserLeave_timers h roomId now st) as (-> & _ & _).
    rewrite scheduleRoomCleanup_state. simpl. apply lookup_insert_eq.
  - intros h' d.
    destruct (handleUserLeave_timers h roomId now st) as (_ & -> & _).
    apply scheduleRoomCleanup_pending.
    by apply reachable_timeouts_indexed.
Qed.

Lemma last_member_leaving_empties_room_witness :
  let st := exec initial scenario_reopened in
  let st' := fst (handleLeave "A" "R" 5 st) in
  (reachable st ∧ members st "R" = ["A"] ∧
   timeouts st !! 0%nat = Some ("R", 30003)) ∧
  roomParticipants st' !! "R" = None ∧ roomHosts st' !! "R" = None ∧
  userInfo st' !! "A" = None ∧
  cleanupTimers st' !! "R" = Some (nextTimeout st) ∧
  ∀ h' d, timeouts st' !! h' = Some ("R", d)
          ↔ h' = nextTimeout st ∧ d = 5 + 30000.
Proof.
  intros st.
  assert (Hst : reachable st).
  { apply (run_reachable scenario_reopened initial);
      [apply reachable_initial | vm_compute; reflexivity]. }
  assert (Hm : members st "R" = ["A"]) by (vm_compute; reflexivity).
  split; [split_and!; [exact Hst | exact Hm | vm_compute; reflexivity]|].
  exact (last_member_leaving_empties_room st "A" "R" 5 Hst Hm).
Defined.

(** ** Who enters a room, and who decides *)

(** X6. In a reachable state a join request for a room that has members is
    never served by the fallback paths of [handleJoin]: the request goes to
    the recorded host, which is a member of the room (through
    [server.to(h)], the socket.io room named by the id of the host), the
    requester is told to wait, and only its presence entry changes. *)
Theorem join_request_reaches_recorded_host st c roomId userName now :
  reachable st → alreadyJoined c roomId st = false →
  members st roomId ≠ [] →
  ∃ h, roomHosts st !! roomId = Some h ∧ h ∈ members st roomId ∧
       handleJoin c roomId userName now st
       = (set_userInfo (<[c := UserInfo.mk roomId userName now]>) st,
          emit c waiting_for_approval
          ++ server_to st h (join_request c userName)).
Proof.
  intros Hst Hdup Hm.
  destruct (reachable_recorded_host st roomId Hst Hm) as (h & Hh & Hin & Hne).
  exists h. split_and!; [done | done |].
  by apply handleJoin_pending.
Qed.

Lemma join_request_reaches_recorded_host_witness :
  let st := exec initial scenario_bystander in
  (reachable st ∧ alreadyJoined "C" "R" st = false ∧ members st "R" ≠ []) ∧
  ∃ h, roomHosts st !! "R" = Some h ∧ h ∈ members st "R" ∧
       handleJoin "C" "R" "carol" 7 st
       = (set_userInfo (<["C" := UserInfo.mk "R" "carol" 7]>) st,
          emit "C" waiting_for_approval
          ++ server_to st h (join_request "C" "carol")).
Proof.
  intros st.
  assert (Hst : reachable st).
  { apply (run_reachable scenario_bystander initial);
      [apply reachable_initial | vm_compute; reflexivity]. }
  assert (Hdup : alreadyJoined "C" "R" st = false) by (vm_compute; reflexivity).
  assert (Hm : members st "R" ≠ []) by (vm_compute; discriminate).
  split; [by split_and!|].
  exact (join_request_reaches_recorded_host st "C" "R" "carol" 7 Hst Hdup Hm).
Defined.

(** X7. Admission control.  In a reachable state, when an input puts a
    session [s] that was not a member into the member set of a room, then
    either [s] itself sent join-room for that room while it had no member
    (and [s] is now its host), or the recorded host of the room, itself a
    member, sent admit-user for [s], which is connected and has a presence
    entry.  No other input adds a member. *)
Theorem membership_needs_host_approval st i s roomId :
  reachable st → enabled st i = true →
  s ∈ members (fst (step st i)) roomId → s ∉ members st roomId →
  (∃ userName now,
     i = join_room s roomId userName now ∧ members st roomId = [] ∧
     roomHosts (fst (step st i)) !! roomId = Some s) ∨
  (∃ h, i = admit_user h s roomId ∧ roomHosts st !! roomId = Some h ∧
        h ∈ members st roomId ∧ s ∈ sockets st ∧
        is_Some (userInfo st !! s)).
Proof.
  intros Hst Hen Hin Hnot.
  destruct (step_adds_member st i s roomId Hen Hin Hnot)
    as [Hs [(userName & now & ->) | (h & -> & Hh & Hinfo)]].
  - left. exists userName, now. simpl in Hin |- *.
    destruct (alreadyJoined s roomId st) eqn:Hdup.
    { unfold handleJoin in Hin. by rewrite Hdup in Hin. }
    destruct (decide (members st roomId = [])) as [Hm|Hm].
    + split_and!; [done | done |].
      rewrite handleJoin_empty_room, joinRoom_state by done. simpl.
      apply lookup_insert_eq.
    + destruct (reachable_recorded_host st roomId Hst Hm)
        as (h & Hh & _ & Hne).
      by rewrite (handleJoin_pending s roomId userName now st h) in Hin.
  - right. exists h. split_and!; try done.
    by apply (reachable_host_is_member st Hst).
Qed.

Lemma membership_needs_host_approval_witness :
  let st := exec initial [connect "A" "10.0.0.1" 0; connect "B" "10.0.0.2" 1;
                          join_room "A" "R" "alice" 2;
                          join_room "B" "R" "bob" 3] in
  let i := admit_user "A" "B" "R" in
  (reachable st ∧ enabled st i = true ∧
   "B" ∈ members (fst (step st i)) "R" ∧ "B" ∉ members st "R") ∧
  ((∃ userName now,
      i = join_room "B" "R" userName now ∧ members st "R" = [] ∧
      roomHosts (fst (step st i)) !! "R" = Some "B") ∨
   (∃ h, i = admit_user h "B" "R" ∧ roomHosts st !! "R" = Some h ∧
         h ∈ members st "R" ∧ "B" ∈ sockets st ∧
         is_Some (userInfo st !! "B"))).
Proof.
  intros st i.
  assert (Hst : reachable st).
  { apply (run_reachable [connect "A" "10.0.0.1" 0; connect "B" "10.0.0.2" 1;
                          join_room "A" "R" "alice" 2;
                          join_room "B" "R" "bob" 3] initial);
      [apply reachable_initial | vm_compute; reflexivity]. }
  assert (Hen : enabled st i = true) by (vm_compute; reflexivity).
  assert (Hin : "B" ∈ members (fst (step st i)) "R") by decide_by_compute.
  assert (Hnot : "B" ∉ members st "R") by decide_by_compute.
  split; [by split_and!|].
  exact (membership_needs_host_approval st i "B" "R" Hst Hen Hin Hnot).
Defined.

(** ** What is sent to whom *)

Lemma joinRoom_out_kinds client roomId userName st r m :
  (r, m) ∈ snd (joinRoom client roomId userName st) →
  (r = client ∧ ∃ users, m = existing_users users) ∨
  (m = user_joined client userName ∧
   (client ∈ room_sockets st client → r ≠ client)).
Proof.
  rewrite joinRoom_out. intros [Hin|Hin]%elem_of_app.
  - left. destruct (omap _ _) as [|x l]; [by apply not_elem_of_nil in Hin|].
    apply list_elem_of_singleton in Hin as [= -> ->]. eauto.
  - right. apply elem_of_broadcast in Hin as (-> & _ & _ & Hex).
    split; [done|]. intros Hc ->. apply Hex.
    rewrite socket_join_rooms. case_decide; subst; [|done].
    apply elem_of_Set_add. by left.
Qed.

Lemma handleJoin_out_kinds client roomId userName now st r m :
  (r, m) ∈ snd (handleJoin client roomId userName now st) →
  (r = client ∧ m = waiting_for_approval) ∨
  m = join_request client userName ∨
  (r = client ∧ ∃ users, m = existing_users users) ∨
  (m = user_joined client userName ∧
   (client ∈ room_sockets st client → r ≠ client)).
Proof.
  unfold handleJoin. destruct (alreadyJoined client roomId st).
  { intros Hin. by apply not_elem_of_nil in Hin. }
  destruct (_ =? _)%nat.
  { intros Hin%joinRoom_out_kinds. tauto. }
  cbv zeta. destruct (truthy _).
  - simpl. intros [[= -> ->] | Hin]%elem_of_cons; [tauto|].
    apply elem_of_server_to in Hin as (-> & _). tauto.
  - intros Hin%joinRoom_out_kinds. tauto.
Qed.

Lemma handleUserLeave_out_kinds client roomId now st r m :
  (r, m) ∈ snd (handleUserLeave client roomId now st) →
  (∃ userName, m = user_left client userName ∧ r ≠ client) ∨
  (m = host_assigned roomId ∧ roomHosts st !! roomId = Some client).
Proof.
  rewrite handleUserLeave_out. intros [Hin|Hin]%elem_of_app.
  - left. apply elem_of_broadcast in Hin as (-> & _ & Hr & _).
    rewrite socket_leave_rooms, decide_True in Hr by done.
    apply elem_of_Set_delete in Hr as [Hne _]. eauto.
  - right. case_decide as Hh; [|by apply not_elem_of_nil in Hin].
    destruct (Set_delete client (members st roomId)) as [|n rest] eqn:Hd;
      [by apply not_elem_of_nil in Hin|].
    by apply elem_of_server_to in Hin as (-> & _).
Qed.

Lemma handleAdmit_out_kinds client userId roomId st r m :
  (r, m) ∈ snd (handleAdmit client userId roomId st) →
  roomHosts st !! roomId = Some client ∧ userId ∈ sockets st ∧
  is_Some (userInfo st !! userId) ∧
  ((r = userId ∧ ∃ users, m = existing_users users) ∨
   (∃ userName, m = user_joined userId userName ∧
                (userId ∈ room_sockets st userId → r ≠ userId)) ∨
   (r = userId ∧ m = join_approved)).
Proof.
  unfold handleAdmit.
  destruct (decide (roomHosts st !! roomId ≠ Some client)) as [|Hh].
  { intros Hin. by apply not_elem_of_nil in Hin. }
  apply dec_stable in Hh.
  destruct (decide (userId ∈ sockets st)) as [Hu|];
    [|intros Hin; by apply not_elem_of_nil in Hin].
  destruct (userInfo st !! userId) as [u|] eqn:Hinfo;
    [|intros Hin; by apply not_elem_of_nil in Hin].
  pose proof (joinRoom_out_kinds userId roomId (UserInfo.userName u) st r m)
    as Hk.
  destruct (joinRoom userId roomId (UserInfo.userName u) st) as [st1 out].
  cbn [fst snd] in *. intros [Hin|Hin]%elem_of_app.
  - split_and!; [done | done | eauto |].
    destruct (Hk Hin) as [? | [? ?]]; [by left | right; left; eauto].
  - apply list_elem_of_singleton in Hin as [= -> ->].
    split_and!; [done | done | eauto | right; right; done].
Qed.

(** Closes a goal whose hypothesis [Hin] lists the messages a handler can
    send when none of them is the verdict that [Hm] asks for. *)
Ltac not_a_verdict Hin Hm :=
  decompose [and or ex] Hin; subst; destruct Hm; discriminate.

(** X8. join-approved and join-rejected are sent only on the word of the
    recorded host.  Whatever the state, when an input makes the gateway
    send join-approved to [r], the input is an admit-user for [r] sent by
    the recorded host of the room named in it, and [r] is a member of that
    room afterwards; when it makes the gateway send join-rejected to [r],
    the input is a reject-user for [r] sent by the recorded host of the
    room named in it, and [r] has no presence entry afterwards. *)
Theorem verdicts_come_from_the_host st i r m :
  (r, m) ∈ snd (step st i) →
  m = join_approved ∨ m = join_rejected →
  ∃ h roomId,
    roomHosts st !! roomId = Some h ∧ r ∈ sockets st ∧
    ((m = join_approved ∧ i = admit_user h r roomId ∧
      r ∈ members (fst (step st i)) roomId) ∨
     (m = join_rejected ∧ i = reject_user h r roomId ∧
      userInfo (fst (step st i)) !! r = None)).
Proof.
  intros Hin Hm. destruct i; simpl in Hin.
  - by apply not_elem_of_nil in Hin.
  - apply handleJoin_out_kinds in Hin. not_a_verdict Hin Hm.
  - pose proof Hin as Hk. apply handleAdmit_out_kinds in Hk
      as (Hh & Hu & [u Hinfo] & Hk).
    assert (r = userId ∧ m = join_approved) as [-> ->].
    { destruct Hk as [[_ [? ->]] | [[? [-> _]] | ?]]; [| |done];
        destruct Hm; discriminate. }
    exists client, roomId. split_and!; [done | done |]. left.
    split_and!; [done | done |]. simpl.
    rewrite (handleAdmit_by_host st client userId roomId u) by done.
    cbn [fst]. rewrite joinRoom_members, decide_True by done.
    apply elem_of_Set_add. by left.
  - simpl. unfold handleReject in Hin |- *.
    destruct (decide (roomHosts st !! roomId ≠ Some client)) as [|Hh];
      [by apply not_elem_of_nil in Hin|].
    apply dec_stable in Hh.
    destruct (decide (userId ∈ sockets st)) as [Hu|];
      [|by apply not_elem_of_nil in Hin].
    apply list_elem_of_singleton in Hin as [= -> ->].
    exists client, roomId. split_and!; [done | done |]. right.
    split_and!; [done | done |]. simpl. apply lookup_delete_eq.
  - apply elem_of_server_to in Hin as (-> & _). by destruct Hm.
  - apply elem_of_server_to in Hin as (-> & _). by destruct Hm.
  - apply elem_of_server_to in Hin as (-> & _). by destruct Hm.
  - apply handleUserLeave_out_kinds in Hin. not_a_verdict Hin Hm.
  - apply elem_of_broadcast in Hin as (-> & _). by destruct Hm.
  - apply elem_of_broadcast in Hin as (-> & _). by destruct Hm.
  - destruct (userInfo (socket_close client st) !! client) as [u|] eqn:Hu.
    + rewrite (handleDisconnect_joined _ _ _ _ Hu) in Hin. simpl in Hin.
      apply handleUserLeave_out_kinds in Hin. not_a_verdict Hin Hm.
    + rewrite (handleDisconnect_unjoined _ _ _ Hu) in Hin.
      by apply not_elem_of_nil in Hin.
  - by apply not_elem_of_nil in Hin.
Qed.

Lemma verdicts_come_from_the_host_witness :
  let st := exec initial [connect "A" "10.0.0.1" 0; connect "B" "10.0.0.2" 1;
                          join_room "A" "R" "alice" 2;
                          join_room "B" "R" "bob" 3] in
  let i := admit_user "A" "B" "R" in
  (("B", join_approved) ∈ snd (step st i) ∧
   (join_approved = join_approved ∨ join_approved = join_rejected)) ∧
  ∃ h roomId,
    roomHosts st !! roomId = Some h ∧ "B" ∈ sockets st ∧
    ((join_approved = join_approved ∧ i = admit_user h "B" roomId ∧
      "B" ∈ members (fst (step st i)) roomId) ∨
     (join_approved = join_rejected ∧ i = reject_user h "B" roomId ∧
      userInfo (fst (step st i)) !! "B" = None)).
Proof.
  intros st i.
  assert (Hout : snd (step st i)
                 = [("B", existing_users [("A", "alice")]);
                    ("A", user_joined "B" "bob"); ("B", join_approved)])
    by (vm_compute; reflexivity).
  assert (Hin : ("B", join_approved) ∈ snd (step st i)).
  { rewrite Hout. do 2 apply list_elem_of_further. apply list_elem_of_here. }
  assert (Hm : join_approved = join_approved ∨ join_approved = join_rejected)
    by (left; reflexivity).
  split; [by split|].
  exact (verdicts_come_from_the_host st i "B" join_approved Hin Hm).
Defined.

(** X9. A session that sits in the socket.io room of its own id, where
    the transport puts it when it connects, is not told about itself.
    Whatever the state and the input, a user-joined, user-left,
    media-status-update or participant-screen-share notification about such
    a session [x] is never delivered to [x]: the broadcast leaves out the
    sockets of the room named by the id of its sender. *)
Theorem no_self_notification st i r m x :
  (r, m) ∈ snd (step st i) → subject m = Some x →
  x ∈ room_sockets st x → r ≠ x.
Proof.
  intros Hin Hx Hown. destruct i; simpl in Hin.
  - by apply not_elem_of_nil in Hin.
  - apply handleJoin_out_kinds in Hin.
    destruct Hin as [[_ ->] | [-> | [[_ [? ->]] | [-> Hne]]]];
      simpl in Hx; try congruence.
    injection Hx as <-. by apply Hne.
  - apply handleAdmit_out_kinds in Hin as (_ & _ & _ & Hk).
    destruct Hk as [[_ [? ->]] | [[? [-> Hne]] | [_ ->]]];
      simpl in Hx; try congruence.
    injection Hx as <-. by apply Hne.
  - unfold handleReject in Hin. repeat case_decide;
      try (by apply not_elem_of_nil in Hin).
    by apply list_elem_of_singleton in Hin as [= -> ->].
  - by apply elem_of_server_to in Hin as (-> & _).
  - by apply elem_of_server_to in Hin as (-> & _).
  - by apply elem_of_server_to in Hin as (-> & _).
  - apply handleUserLeave_out_kinds in Hin.
    destruct Hin as [[? [-> ?]] | [-> _]]; simpl in Hx; congruence.
  - apply elem_of_broadcast in Hin as (-> & _ & _ & Hex). simpl in Hx.
    injection Hx as <-. by intros ->.
  - apply elem_of_broadcast in Hin as (-> & _ & _ & Hex). simpl in Hx.
    injection Hx as <-. by intros ->.
  - destruct (userInfo (socket_close client st) !! client) as [u|] eqn:Hu.
    + rewrite (handleDisconnect_joined _ _ _ _ Hu) in Hin. simpl in Hin.
      apply handleUserLeave_out_kinds in Hin.
      destruct Hin as [[? [-> ?]] | [-> _]]; simpl in Hx; congruence.
    + rewrite (handleDisconnect_unjoined _ _ _ Hu) in Hin.
      by apply not_elem_of_nil in Hin.
  - by apply not_elem_of_nil in Hin.
Qed.

Lemma no_self_notification_witness :
  let st := exec initial scenario_two_members in
  let i := leave_room "A" "R" 9 in
  (("B", user_left "A" (Some "alice")) ∈ snd (step st i) ∧
   subject (user_left "A" (Some "alice")) = Some "A" ∧
   "A" ∈ room_sockets st "A") ∧
  "B" ≠ "A".
Proof.
  intros st i.
  assert (Hout : snd (step st i)
                 = [("B", user_left "A" (Some "alice"));
                    ("B", host_assigned "R")])
    by (vm_compute; reflexivity).
  assert (Hin : ("B", user_left "A" (Some "alice")) ∈ snd (step st i)).
  { rewrite Hout. apply list_elem_of_here. }
  assert (Hown : "A" ∈ room_sockets st "A") by decide_by_compute.
  split; [by split_and!|].
  exact (no_self_notification st i "B" (user_left "A" (Some "alice")) "A"
           Hin eq_refl Hown).
Defined.

(** What X9 leaves out.  Alice leaves the socket.io room of her own id (a
    leave-room that names her socket id), opens room R and toggles her
    microphone: the notification about her is delivered to her. *)
Example self_notification_run :
  let st := exec initial scenario_left_own_room in
  run initial scenario_left_own_room = Some st ∧
  room_sockets st "A" = [] ∧
  snd (step st (toggle_media "A" "R" audio false))
  = [("A", media_status_update "A" audio false)].
Proof. vm_compute. by split_and!. Qed.

(** ** The host pointer *)

(** X10. A host keeps its role for as long as it stays.  In a reachable
    state, when an input makes the recorded host [h] of a room stop being
    its recorded host, the input is a leave-room for that room sent by [h]
    or the disconnect of [h] with a presence entry naming that room.  No
    join, admission, rejection, relay or cleanup displaces a host. *)
Theorem host_changes_only_by_leaving st i h roomId :
  reachable st → roomHosts st !! roomId = Some h →
  roomHosts (fst (step st i)) !! roomId ≠ Some h →
  (∃ now, i = leave_room h roomId now) ∨
  (∃ now, i = disconnect h now ∧
          UserInfo.roomId <$> userInfo st !! h = Some roomId).
Proof.
  intros Hst Hh Hchg.
  pose proof (reachable_host_is_member st Hst roomId h Hh) as Hin.
  assert (Hleave : ∀ c R now st0,
    roomHosts st0 = roomHosts st → members st0 = members st →
    roomHosts (fst (handleUserLeave c R now st0)) !! roomId ≠ Some h →
    c = h ∧ R = roomId).
  { intros c R now st0 H0 Hm0. rewrite handleUserLeave_roomHosts, H0, Hm0.
    destruct (decide (roomHosts st !! R = Some c)) as [Hc|Hc]; [|done].
    destruct (decide (R = roomId)) as [->|HR]; [intros _; split; congruence|].
    destruct (Set_delete c (members st R));
      rewrite ?lookup_delete_ne, ?lookup_insert_ne by done; done. }
  destruct i; simpl in Hchg; try done.
  - unfold handleConnection in Hchg. by case_match.
  - exfalso.
    destruct (handleJoin_cases client roomId0 userName now st)
      as [H | [[out H] | [[Hm H] | [_ H]]]]; rewrite H in Hchg;
      [done | done | | done].
    rewrite joinRoom_state in Hchg. simpl in Hchg.
    destruct (decide (roomId0 = roomId)) as [->|HR].
    + rewrite Hm in Hin. by apply not_elem_of_nil in Hin.
    + by rewrite lookup_insert_ne in Hchg.
  - exfalso. unfold handleAdmit in Hchg. repeat case_decide; try done.
    destruct (userInfo st !! userId) as [u|]; [|done].
    assert (H' : roomHosts (fst (joinRoom userId roomId0
                                   (UserInfo.userName u) st))
                 = roomHosts st) by done.
    destruct (joinRoom userId roomId0 (UserInfo.userName u) st).
    cbn [fst] in *. by rewrite H' in Hchg.
  - exfalso. unfold handleReject in Hchg. by repeat case_decide.
  - left. apply (Hleave client roomId0 now st) in Hchg as [-> ->]; eauto.
  - right.
    destruct (userInfo (socket_close client st) !! client) as [u|] eqn:Hu.
    + rewrite (handleDisconnect_joined _ _ _ _ Hu) in Hchg. simpl in Hchg.
      apply (Hleave client (UserInfo.roomId u) now (socket_close client st))
        in Hchg as [-> <-]; [|done..].
      exists now. split; [done|].
      change (userInfo st !! h = Some u) in Hu. by rewrite Hu.
    + by rewrite (handleDisconnect_unjoined _ _ _ Hu) in Hchg.
  - exfalso. unfold fireTimeout in Hchg.
    destruct (timeouts st !! handle) as [[R d]|]; [|done].
    unfold roomCleanup in Hchg. simpl in Hchg.
    destruct (roomParticipants st !! R) as [[|x l]|] eqn:Hl; simpl in Hchg;
      try done;
      (destruct (decide (R = roomId)) as [->|HR];
       [ unfold members in Hin; rewrite Hl in Hin;
         by apply not_elem_of_nil in Hin
       | by rewrite lookup_delete_ne in Hchg ]).
Qed.

Lemma host_changes_only_by_leaving_witness :
  let st := exec initial scenario_two_members in
  let i := disconnect "A" 9 in
  (reachable st ∧ roomHosts st !! "R" = Some "A" ∧
   roomHosts (fst (step st i)) !! "R" ≠ Some "A") ∧
  ((∃ now, i = leave_room "A" "R" now) ∨
   (∃ now, i = disconnect "A" now ∧
           UserInfo.roomId <$> userInfo st !! "A" = Some "R")).
Proof.
  intros st i.
  assert (Hst : reachable st).
  { apply (run_reachable scenario_two_members initial);
      [apply reachable_initial | vm_compute; reflexivity]. }
  assert (Hh : roomHosts st !! "R" = Some "A") by (vm_compute; reflexivity).
  assert (Hchg : roomHosts (fst (step st i)) !! "R" ≠ Some "A")
    by (vm_compute; discriminate).
  split; [by split_and!|].
  exact (host_changes_only_by_leaving st i "A" "R" Hst Hh Hchg).
Defined.

(** ** Presence entries and sockets *)

Lemma step_userInfo st i sid :
  is_Some (userInfo (fst (step st i)) !! sid) →
  is_Some (userInfo st !! sid) ∨
  ∃ roomId userName now, i = join_room sid roomId userName now.
Proof.
  destruct i; simpl; try (by left).
  - unfold handleConnection. case_match; by left.
  - destruct (handleJoin_cases client roomId userName now st)
      as [-> | [[out ->] | [[_ ->] | [_ ->]]]]; [by left | | |];
      rewrite ?joinRoom_state; simpl;
      (destruct (decide (sid = client)) as [->|];
       [ right; eauto | rewrite lookup_insert_ne by done; by left ]).
  - unfold handleAdmit. repeat case_decide; try (by left).
    destruct (userInfo st !! userId) as [u|] eqn:Hu; [|by left].
    assert (H' : userInfo (fst (joinRoom userId roomId (UserInfo.userName u)
                                  st)) = userInfo st) by done.
    destruct (joinRoom userId roomId (UserInfo.userName u) st).
    cbn [fst] in *. rewrite H'. by left.
  - unfold handleReject. repeat case_decide; try (by left). simpl.
    intros [x Hx]. apply lookup_delete_Some in Hx as [_ Hx]. left. eauto.
  - unfold handleLeave. rewrite handleUserLeave_userInfo.
    intros [x Hx]. apply lookup_delete_Some in Hx as [_ Hx]. left. eauto.
  - destruct (userInfo (socket_close client st) !! client) as [u|] eqn:Hu.
    + rewrite (handleDisconnect_joined _ _ _ _ Hu). simpl.
      rewrite handleUserLeave_userInfo.
      intros [x Hx]. apply lookup_delete_Some in Hx as [_ Hx]. left. eauto.
    + rewrite (handleDisconnect_unjoined _ _ _ Hu). by left.
  - unfold fireTimeout. destruct (timeouts st !! handle) as [[R d]|]; [|by left].
    unfold roomCleanup. simpl.
    destruct (roomParticipants st !! R) as [[|x l]|]; by left.
Qed.

Lemma disconnect_userInfo st client now :
  userInfo (fst (step st (disconnect client now))) !! client = None.
Proof.
  simpl. destruct (userInfo (socket_close client st) !! client) as [u|] eqn:Hu.
  - rewrite (handleDisconnect_joined _ _ _ _ Hu). simpl.
    rewrite handleUserLeave_userInfo. apply lookup_delete_eq.
  - by rewrite (handleDisconnect_unjoined _ _ _ Hu).
Qed.

(** X11. Whatever the state, after the disconnect of a socket the socket is
    closed, it has no presence entry, and it is in no socket.io room. *)
Theorem disconnect_purges_presence st client now :
  let st' := fst (step st (disconnect client now)) in
  (client ∉ sockets st') ∧ userInfo st' !! client = None ∧
  ∀ roomId, client ∉ default [] (rooms st' !! roomId).
Proof.
  simpl.
  assert (Hclosed : ∀ R, client ∉ room_sockets (socket_close client st) R).
  { intros R. rewrite socket_close_rooms, elem_of_Set_delete. tauto. }
  destruct (userInfo (socket_close client st) !! client) as [u|] eqn:Hu.
  - rewrite (handleDisconnect_joined _ _ _ _ Hu). simpl. split_and!.
    + rewrite handleUserLeave_sockets. simpl.
      rewrite elem_of_difference, elem_of_singleton. tauto.
    + rewrite handleUserLeave_userInfo. apply lookup_delete_eq.
    + intros R.
      change (client ∉ room_sockets
                (fst (handleUserLeave client (UserInfo.roomId u) now
                        (socket_close client st))) R).
      rewrite handleUserLeave_rooms.
      case_decide; subst; [|apply Hclosed].
      rewrite elem_of_Set_delete. tauto.
  - rewrite (handleDisconnect_unjoined _ _ _ Hu). simpl. split_and!.
    + rewrite elem_of_difference, elem_of_singleton. tauto.
    + exact Hu.
    + exact Hclosed.
Qed.

Lemma presence_is_open_step st i :
  enabled st i = true → presence_is_open st →
  presence_is_open (fst (step st i)).
Proof.
  intros Hen Hinv sid Hsid.
  assert (Hopen : sid ∈ sockets st).
  { destruct (step_userInfo st i sid Hsid) as [Hold | (R & n & now & ->)].
    - by apply Hinv.
    - simpl in Hen. by apply bool_decide_eq_true_1 in Hen. }
  destruct i; simpl in Hen |- *; try done.
  - apply andb_prop in Hen as [_ [Hfresh _]%bool_decide_eq_true_1].
    unfold handleConnection. case_match; simpl.
    + apply elem_of_difference. split; [apply elem_of_union; by right|].
      intros ->%elem_of_singleton. done.
    + apply elem_of_union. by right.
  - destruct (handleJoin_cases client roomId userName now st)
      as [-> | [[out ->] | [[_ ->] | [_ ->]]]]; done.
  - unfold handleAdmit. repeat case_decide; try done.
    destruct (userInfo st !! userId) as [u|]; [|done].
    assert (H' : sockets (fst (joinRoom userId roomId (UserInfo.userName u)
                                 st)) = sockets st) by done.
    destruct (joinRoom userId roomId (UserInfo.userName u) st).
    cbn [fst] in *. by rewrite H'.
  - unfold handleReject. by repeat case_decide.
  - unfold handleLeave. by rewrite handleUserLeave_sockets.
  - assert (Hne : sid ≠ client).
    { intros ->. rewrite disconnect_userInfo in Hsid. by destruct Hsid. }
    assert (Hs : sid ∈ sockets (socket_close client st)).
    { simpl. rewrite elem_of_difference, elem_of_singleton. tauto. }
    destruct (userInfo (socket_close client st) !! client) as [u|] eqn:Hu.
    + rewrite (handleDisconnect_joined _ _ _ _ Hu). simpl.
      by rewrite handleUserLeave_sockets.
    + by rewrite (handleDisconnect_unjoined _ _ _ Hu).
  - unfold fireTimeout. destruct (timeouts st !! handle) as [[R d]|]; [|done].
    unfold roomCleanup. simpl.
    by destruct (roomParticipants st !! R) as [[|x l]|].
Qed.

Lemma reachable_presence_is_open st : reachable st → presence_is_open st.
Proof.
  induction 1 as [|st i _ IH Hen].
  - intros sid [x Hx]. simpl in Hx. by rewrite lookup_empty in Hx.
  - by apply presence_is_open_step.
Qed.

(** X12. In a reachable state only open sockets have a presence entry: a
    presence entry never outlives its socket, and its key is a non-empty
    socket id. *)
Theorem presence_only_for_open_sockets st sid info :
  reachable st → userInfo st !! sid = Some info →
  sid ∈ sockets st ∧ sid ≠ EmptyString.
Proof.
  intros Hst Hinfo.
  assert (Hopen : sid ∈ sockets st).
  { apply (reachable_presence_is_open st Hst). eauto. }
  split; [done|]. intros ->.
  by destruct (reachable_ids_nonempty st Hst) as [Hne _].
Qed.

Lemma presence_only_for_open_sockets_witness :
  let st := exec initial scenario_two_members in
  (reachable st ∧ userInfo st !! "B" = Some (UserInfo.mk "R" "bob" 3)) ∧
  "B" ∈ sockets st ∧ "B" ≠ EmptyString.
Proof.
  intros st.
  assert (Hst : reachable st).
  { apply (run_reachable scenario_two_members initial);
      [apply reachable_initial | vm_compute; reflexivity]. }
  assert (Hu : userInfo st !! "B" = Some (UserInfo.mk "R" "bob" 3))
    by (vm_compute; reflexivity).
  split; [by split|].
  exact (presence_only_for_open_sockets st "B" _ Hst Hu).
Defined.

(** ** The attempts the limiter keeps *)

Lemma handleUserLeave_connectionAttempts client roomId now st :
  connectionAttempts (fst (handleUserLeave client roomId now st))
  = connectionAttempts st.
Proof. leave_cases st roomId client; done. Qed.

Lemma cleanupConnectionTracking_lookup now st ip :
  connectionAttempts (cleanupConnectionTracking now st) !! ip
  = connectionAttempts st !! ip ≫= λ attempts,
      match filter (λ time, now - 3600000 < time) attempts with
      | [] => None
      | recentAttempts => Some recentAttempts
      end.
Proof. unfold cleanupConnectionTracking. simpl. apply lookup_omap. Qed.

Lemma cleanupConnectionTracking_recorded now st ip :
  recorded (cleanupConnectionTracking now st) ip
  = filter (λ time, now - 3600000 < time) (recorded st ip).
Proof.
  unfold recorded. rewrite cleanupConnectionTracking_lookup.
  destruct (connectionAttempts st !! ip) as [l|]; simpl; [|done].
  by destruct (filter _ l).
Qed.

(** Which inputs touch [connectionAttempts], and how. *)
Lemma step_connectionAttempts st i :
  connectionAttempts (fst (step st i))
  = match i with
    | connect client ip now =>
        connectionAttempts (fst (handleConnection client ip now st))
    | disconnect _ now =>
        connectionAttempts (cleanupConnectionTracking now st)
    | _ => connectionAttempts st
    end.
Proof.
  destruct i; simpl; try done.
  - unfold handleConnection. simpl. by case_match.
  - destruct (handleJoin_cases client roomId userName now st)
      as [-> | [[out ->] | [[_ ->] | [_ ->]]]]; done.
  - unfold handleAdmit. repeat case_decide; try done.
    destruct (userInfo st !! userId) as [u|]; [|done].
    assert (H' : connectionAttempts
                   (fst (joinRoom userId roomId (UserInfo.userName u) st))
                 = connectionAttempts st) by done.
    by destruct (joinRoom userId roomId (UserInfo.userName u) st).
  - unfold handleReject. by repeat case_decide.
  - apply handleUserLeave_connectionAttempts.
  - destruct (userInfo (socket_close client st) !! client) as [u|] eqn:Hu.
    + rewrite (handleDisconnect_joined _ _ _ _ Hu). simpl.
      by rewrite handleUserLeave_connectionAttempts.
    + by rewrite (handleDisconnect_unjoined _ _ _ Hu).
  - unfold fireTimeout. destruct (timeouts st !! handle) as [[R d]|]; [|done].
    unfold roomCleanup. simpl.
    by destruct (roomParticipants st !! R) as [[|x l]|].
Qed.

Lemma attempts_bounded_step st i :
  attempts_bounded st → attempts_bounded (fst (step st i)).
Proof.
  intros Hinv ip l. rewrite step_connectionAttempts.
  destruct i; try apply Hinv.
  - unfold handleConnection.
    destruct (50 <? _)%nat eqn:Hfull; simpl; [apply Hinv|].
    apply Nat.ltb_ge in Hfull.
    destruct (decide (ip = ip0)) as [->|Hne].
    + rewrite lookup_insert_eq. intros [= <-]. split.
      * by destruct (filter _ _).
      * rewrite length_app. simpl. lia.
    + rewrite lookup_insert_ne by done. apply Hinv.
  - rewrite cleanupConnectionTracking_lookup.
    destruct (connectionAttempts st !! ip) as [l0|] eqn:Hl0; simpl; [|done].
    destruct (Hinv ip l0 Hl0) as [_ Hlen].
    pose proof (length_filter (λ time, now - 3600000 < time) l0) as Hf.
    destruct (filter _ l0) as [|x l']; [done|].
    intros [= <-]. split; [done | lia].
Qed.

Lemma reachable_attempts_bounded st : reachable st → attempts_bounded st.
Proof.
  induction 1 as [|st i _ IH _].
  - intros ip l Hl. simpl in Hl. by rewrite lookup_empty in Hl.
  - by apply attempts_bounded_step.
Qed.

(** X13. In a reachable state the limiter holds, for every origin it knows,
    between 1 and 51 attempt timestamps: [handleConnection] stores at most
    50 recent attempts plus the current one, and the pruning done at each
    disconnect drops an origin whose list becomes empty. *)
Theorem attempt_records_bounded st ip attempts :
  reachable st → connectionAttempts st !! ip = Some attempts →
  (1 ≤ List.length attempts ≤ 51)%nat.
Proof.
  intros Hst Hl.
  destruct (reachable_attempts_bounded st Hst ip attempts Hl) as [Hne Hlen].
  split; [|done]. destruct attempts; [done | simpl; lia].
Qed.

Lemma attempt_records_bounded_witness :
  let st := exec initial scenario_connected in
  (reachable st ∧ connectionAttempts st !! "10.0.0.1" = Some [0]) ∧
  (1 ≤ List.length [0] ≤ 51)%nat.
Proof.
  intros st.
  assert (Hst : reachable st).
  { apply (run_reachable scenario_connected initial);
      [apply reachable_initial | vm_compute; reflexivity]. }
  assert (Hl : connectionAttempts st !! "10.0.0.1" = Some [0])
    by (vm_compute; reflexivity).
  split; [by split|].
  exact (attempt_records_bounded st "10.0.0.1" [0] Hst Hl).
Defined.

Lemma filter_filter_weaker (P Q : Z → Prop)
    `{!∀ x, Decision (P x)} `{!∀ x, Decision (Q x)} (l : list Z) :
  (∀ x, Q x → P x) → filter Q (filter P l) = filter Q l.
Proof.
  intros HQP. rewrite list_filter_filter. apply list_filter_iff.
  intros x. split; [tauto | auto].
Qed.

(** X14. Pruning composes: pruning at [now1] and then at a later time
    [now2] leaves the gateway in the state that pruning at [now2] alone
    gives.  In particular pruning twice at the same time is pruning once. *)
Theorem pruning_composes now1 now2 st :
  now1 ≤ now2 →
  cleanupConnectionTracking now2 (cleanupConnectionTracking now1 st)
  = cleanupConnectionTracking now2 st.
Proof.
  intros Hle. unfold cleanupConnectionTracking, set_connectionAttempts. simpl.
  f_equal. apply map_eq. intros ip. rewrite !lookup_omap.
  destruct (connectionAttempts st !! ip) as [l|]; simpl; [|done].
  assert (Hw : filter (λ time, now2 - 3600000 < time)
                 (filter (λ time, now1 - 3600000 < time) l)
               = filter (λ time, now2 - 3600000 < time) l).
  { apply filter_filter_weaker. intros x. lia. }
  destruct (filter (λ time, now1 - 3600000 < time) l) as [|x l'] eqn:H1;
    simpl.
  - rewrite <- Hw. done.
  - by rewrite Hw.
Qed.

Lemma pruning_composes_witness :
  let st := exec initial scenario_connected in
  0 ≤ 3600001 ∧
  cleanupConnectionTracking 3600001 (cleanupConnectionTracking 0 st)
  = cleanupConnectionTracking 3600001 st.
Proof.
  intros st.
  assert (Hle : 0 ≤ 3600001) by lia.
  split; [exact Hle|]. exact (pruning_composes 0 3600001 st Hle).
Defined.

(** X15. Pruning never changes what the limiter decides.  For a connection
    at a time [now'] that is not more than 59 minutes before the pruning
    time [now] (so for every later connection), [handleConnection] takes
    the same decision on the pruned state as on the unpruned one, and when
    it admits the connection it records the same attempts for the
    origin. *)
Theorem pruning_keeps_limiter_decisions client ip now now' st :
  now - 3540000 ≤ now' →
  let pruned := cleanupConnectionTracking now st in
  snd (handleConnection client ip now' pruned)
  = snd (handleConnection client ip now' st) ∧
  (snd (handleConnection client ip now' st) = true →
   recorded (fst (handleConnection client ip now' pruned)) ip
   = recorded (fst (handleConnection client ip now' st)) ip).
Proof.
  intros Hle pruned.
  assert (Hw : filter (λ time, now' - time < 60000) (recorded pruned ip)
               = filter (λ time, now' - time < 60000) (recorded st ip)).
  { unfold pruned. rewrite cleanupConnectionTracking_recorded.
    apply filter_filter_weaker. intros x. lia. }
  rewrite !handleConnection_decision, !handleConnection_recorded.
  cbv zeta. rewrite Hw. split; [done|].
  by destruct (Nat.ltb 50 _).
Qed.

Lemma pruning_keeps_limiter_decisions_witness :
  let st := exec initial scenario_connected in
  let pruned := cleanupConnectionTracking 3600000 st in
  3600000 - 3540000 ≤ 3600005 ∧
  snd (handleConnection "C" "10.0.0.1" 3600005 pruned)
  = snd (handleConnection "C" "10.0.0.1" 3600005 st) ∧
  (snd (handleConnection "C" "10.0.0.1" 3600005 st) = true →
   recorded (fst (handleConnection "C" "10.0.0.1" 3600005 pruned)) "10.0.0.1"
   = recorded (fst (handleConnection "C" "10.0.0.1" 3600005 st)) "10.0.0.1").
Proof.
  intros st pruned.
  assert (Hle : 3600000 - 3540000 ≤ 3600005) by lia.
  split; [exact Hle|].
  exact (pruning_keeps_limiter_decisions "C" "10.0.0.1" 3600000 3600005 st
           Hle).
Defined.

Lemma step_recorded st i ip t :
  t ∈ recorded (fst (step st i)) ip →
  t ∈ recorded st ip ∨ ∃ client, i = connect client ip t.
Proof.
  unfold recorded at 1. rewrite step_connectionAttempts.
  destruct i; try (by left).
  - fold (recorded (fst (handleConnection client ip0 now st)) ip).
    destruct (decide (ip = ip0)) as [->|Hne].
    + rewrite handleConnection_recorded. cbv zeta.
      destruct (Nat.ltb 50 _); [by left|].
      intros [Hin|Hin]%elem_of_app.
      * left. apply list_elem_of_filter in Hin. tauto.
      * right. apply list_elem_of_singleton in Hin as ->. eauto.
    + unfold handleConnection, recorded. case_match; simpl; [by left|].
      rewrite lookup_insert_ne by done. by left.
  - fold (recorded (cleanupConnectionTracking now st) ip).
    rewrite cleanupConnectionTracking_recorded.
    intros Hin%list_elem_of_filter. left. tauto.
Qed.

Lemma exec_recorded inputs : ∀ st ip t,
  t ∈ recorded (exec st inputs) ip →
  t ∈ recorded st ip ∨ ∃ client, connect client ip t ∈ inputs.
Proof.
  induction inputs as [|i inputs IH]; intros st ip t Hin; [by left|].
  change (exec st (i :: inputs)) with (exec (fst (step st i)) inputs) in Hin.
  destruct (IH _ _ _ Hin) as [Hrec | [c Hc]].
  - destruct (step_recorded st i ip t Hrec) as [? | [c ->]]; [by left|].
    right. exists c. apply list_elem_of_here.
  - right. exists c. by apply list_elem_of_further.
Qed.

(** X16. The limiter counts genuine attempts only.  After any sequence of
    inputs from the initial state, every timestamp recorded for an origin
    is the time of a connection from that origin in the sequence. *)
Theorem recorded_attempts_are_genuine inputs ip t :
  t ∈ recorded (exec initial inputs) ip →
  ∃ client, connect client ip t ∈ inputs.
Proof.
  intros Hin. destruct (exec_recorded inputs initial ip t Hin) as [Hrec|?];
    [|done].
  unfold recorded in Hrec. simpl in Hrec. rewrite lookup_empty in Hrec.
  by apply not_elem_of_nil in Hrec.
Qed.

Lemma recorded_attempts_are_genuine_witness :
  1 ∈ recorded (exec initial scenario_two_members) "10.0.0.2" ∧
  ∃ client, connect client "10.0.0.2" 1 ∈ scenario_two_members.
Proof.
  assert (Hin : 1 ∈ recorded (exec initial scenario_two_members) "10.0.0.2")
    by decide_by_compute.
  split; [exact Hin|].
  exact (recorded_attempts_are_genuine scenario_two_members "10.0.0.2" 1 Hin).
Defined.

(** ** Joining and leaving again *)



Lemma Set_add_fresh x (s : list string) : x ∉ s → Set_add x s = s ++ [x].
Proof. intros Hx. unfold Set_add. by rewrite decide_False. Qed.




(** Carol, connected and in the socket.io room of her own id, opens room S
    and leaves it: nobody is sent anything. *)
Example open_and_leave_run :
  let st := exec initial scenario_bystander in
  let r1 := handleJoin "C" "S" "carol" 7 st in
  "C" ∈ sockets st ∧ snd r1 = [] ∧ snd (handleLeave "C" "S" 8 (fst r1)) = [].
Proof. split; [decide_by_compute | vm_compute; by split]. Qed.

Lemma Set_delete_snoc x (s : list string) :
  x ∉ s → Set_delete x (s ++ [x]) = s.
Proof.
  intros Hx. unfold Set_delete.
  rewrite filter_app, filter_cons, decide_False, filter_nil, app_nil_r by auto.
  by apply Set_delete_notin.
Qed.

(** X18. Being admitted and leaving is a round trip on the tables.  In a
    reachable state, for a room with recorded host [h] and a connected
    session [u] that has no presence entry, is not a member of the room and
    does not sit in the socket.io room of that id (a room id that is the
    socket id of [u] is thereby left out, unless [u] has left the room of
    its own id): join-room from [u], admit-user from [h] and leave-room
    from [u] bring the presence table, the host map, the member sets and
    the contents of the socket.io rooms back to what they were. *)
Theorem admit_and_leave_round_trip st h u roomId userName now now' :
  reachable st → roomHosts st !! roomId = Some h → u ∈ sockets st →
  userInfo st !! u = None → u ∉ members st roomId →
  u ∉ room_sockets st roomId →
  let st1 := fst (handleJoin u roomId userName now st) in
  let st2 := fst (handleAdmit h u roomId st1) in
  let st3 := fst (handleLeave u roomId now' st2) in
  u ∈ members st2 roomId ∧ u ∈ room_sockets st2 roomId ∧
  userInfo st3 = userInfo st ∧ roomHosts st3 = roomHosts st ∧
  roomParticipants st3 = roomParticipants st ∧
  ∀ R, room_sockets st3 R = room_sockets st R.
Proof.
  intros Hst Hh Hu Hinfo Hnot Hout.
  pose proof (reachable_host_is_member st Hst roomId h Hh) as Hin.
  assert (Hm : members st roomId ≠ []).
  { intros Hnil. rewrite Hnil in Hin. by apply not_elem_of_nil in Hin. }
  destruct (reachable_recorded_host st roomId Hst Hm) as (h' & Hh' & _ & Hne).
  assert (h' = h) as -> by congruence.
  assert (Hdup : alreadyJoined u roomId st = false).
  { unfold alreadyJoined. by rewrite Hinfo. }
  assert (Hl : roomParticipants st !! roomId = Some (members st roomId)).
  { unfold members in *.
    by destruct (roomParticipants st !! roomId). }
  assert (Hhu : h ≠ u) by (intros ->; done).
  cbv zeta.
  rewrite (handleJoin_pending u roomId userName now st h) by done.
  cbn [fst]. set (st1 := set_userInfo _ st).
  rewrite (handleAdmit_by_host st1 h u roomId
             (UserInfo.mk roomId userName now)); [|done|done|].
  2:{ unfold st1. simpl. apply lookup_insert_eq. }
  cbn [fst UserInfo.userName].
  set (st2 := fst (joinRoom u roomId userName st1)).
  assert (Hm2 : members st2 roomId = members st roomId ++ [u]).
  { unfold st2. rewrite joinRoom_members, decide_True by done.
    change (members st1 roomId) with (members st roomId).
    by apply Set_add_fresh. }
  assert (Hp2 : roomParticipants st2
                = <[roomId := members st roomId ++ [u]]>
                    (roomParticipants st)).
  { unfold st2. rewrite joinRoom_state. simpl.
    change (members st1 roomId) with (members st roomId).
    by rewrite Set_add_fresh. }
  unfold handleLeave. split_and!.
  - rewrite Hm2. apply elem_of_app. right. apply list_elem_of_here.
  - unfold st2. rewrite joinRoom_rooms, decide_True by done.
    apply elem_of_Set_add. by left.
  - rewrite handleUserLeave_userInfo.
    change (userInfo st2)
      with (<[u := UserInfo.mk roomId userName now]> (userInfo st)).
    by apply delete_insert_id.
  - rewrite handleUserLeave_roomHosts.
    change (roomHosts st2) with (roomHosts st).
    rewrite decide_False; [done|]. rewrite Hh. congruence.
  - rewrite handleUserLeave_roomParticipants, Hp2, lookup_insert_eq. simpl.
    rewrite Set_delete_snoc by done.
    destruct (members st roomId) as [|x l] eqn:Hml; [done|].
    rewrite insert_insert_eq. by apply insert_id.
  - intros R. rewrite handleUserLeave_rooms.
    unfold st2. rewrite !joinRoom_rooms.
    change (room_sockets st1) with (room_sockets st).
    case_decide; subst; [|done].
    rewrite decide_True, Set_delete_Set_add by done.
    by apply Set_delete_notin.
Qed.

Lemma admit_and_leave_round_trip_witness :
  let st := exec initial scenario_bystander in
  let st1 := fst (handleJoin "C" "R" "carol" 7 st) in
  let st2 := fst (handleAdmit "A" "C" "R" st1) in
  let st3 := fst (handleLeave "C" "R" 8 st2) in
  (reachable st ∧ roomHosts st !! "R" = Some "A" ∧ "C" ∈ sockets st ∧
   userInfo st !! "C" = None ∧ ("C" ∉ members st "R") ∧
   "C" ∉ room_sockets st "R") ∧
  "C" ∈ members st2 "R" ∧ "C" ∈ room_sockets st2 "R" ∧
  userInfo st3 = userInfo st ∧ roomHosts st3 = roomHosts st ∧
  roomParticipants st3 = roomParticipants st ∧
  ∀ R, room_sockets st3 R = room_sockets st R.
Proof.
  intros st.
  assert (Hst : reachable st).
  { apply (run_reachable scenario_bystander initial);
      [apply reachable_initial | vm_compute; reflexivity]. }
  assert (Hh : roomHosts st !! "R" = Some "A") by (vm_compute; reflexivity).
  assert (Hu : "C" ∈ sockets st) by decide_by_compute.
  assert (Hinfo : userInfo st !! "C" = None) by (vm_compute; reflexivity).
  assert (Hnot : "C" ∉ members st "R") by decide_by_compute.
  assert (Hout : "C" ∉ room_sockets st "R") by decide_by_compute.
  split; [by split_and!|].
  exact (admit_and_leave_round_trip st "A" "C" "R" "carol" 7 8
           Hst Hh Hu Hinfo Hnot Hout).
Defined.

(** ** The snapshot sent to a new member *)

Lemma existing_users_ids (info : gmap string UserInfo.t) (c : string)
    (l : list string) :
  (omap (λ socketId,
     match info !! socketId with
     | Some userInfoData =>
         if decide (socketId ≠ c)
         then Some (socketId, UserInfo.userName userInfoData)
         else None
     | None => None
     end) l).*1
  = filter (λ sid, sid ≠ c ∧ is_Some (info !! sid)) l.
Proof.
  induction l as [|x l IH]; [done|]. rewrite filter_cons. simpl.
  destruct (info !! x) as [u|] eqn:Hx.
  - destruct (decide (x ≠ c)) as [Hne|Heq].
    + rewrite decide_True by eauto. simpl. f_equal. exact IH.
    + rewrite decide_False by tauto. exact IH.
  - rewrite decide_False; [exact IH|]. intros [_ [? ?]]. done.
Qed.

Lemma existing_users_names (info : gmap string UserInfo.t) (c : string)
    (l : list string) sid name :
  (sid, name) ∈ omap (λ socketId,
     match info !! socketId with
     | Some userInfoData =>
         if decide (socketId ≠ c)
         then Some (socketId, UserInfo.userName userInfoData)
         else None
     | None => None
     end) l →
  UserInfo.userName <$> info !! sid = Some name.
Proof.
  intros (x & Hx & Hf)%list_elem_of_omap.
  destruct (info !! x) as [u|] eqn:Hu; [|done].
  destruct (decide (x ≠ c)); [|done].
  injection Hf as <- <-. by rewrite Hu.
Qed.

(** X19. The existing-users batch that [joinRoom] sends goes to the joining
    session only, is never empty, and lists exactly the members of the room
    other than the joiner that have a presence entry, in the order in which
    they joined, each with the display name of its presence entry.  A
    member whose presence entry is gone is left out of the snapshot. *)
Theorem existing_users_snapshot st c roomId userName r users :
  (r, existing_users users) ∈ snd (joinRoom c roomId userName st) →
  r = c ∧ users ≠ [] ∧
  users.*1 = filter (λ sid, sid ≠ c ∧ is_Some (userInfo st !! sid))
                    (members st roomId) ∧
  ∀ sid name, (sid, name) ∈ users →
              UserInfo.userName <$> userInfo st !! sid = Some name.
Proof.
  rewrite joinRoom_out. intros [Hin|Hin]%elem_of_app.
  - pose proof (existing_users_ids (userInfo st) c (members st roomId)) as Hids.
    pose proof (existing_users_names (userInfo st) c (members st roomId))
      as Hnames.
    destruct (omap _ (members st roomId)) as [|x l];
      [by apply not_elem_of_nil in Hin|].
    apply list_elem_of_singleton in Hin as [= -> ->].
    split_and!; [done | done | exact Hids | exact Hnames].
  - by apply list_elem_of_fmap in Hin as (sid & [= _ ?] & _).
Qed.

Lemma existing_users_snapshot_witness :
  let st := fst (handleJoin "C" "R" "carol" 7
                   (exec initial scenario_bystander)) in
  let users := [("A", "alice"); ("B", "bob")] in
  ("C", existing_users users) ∈ snd (joinRoom "C" "R" "carol" st) ∧
  "C" = "C" ∧ users ≠ [] ∧
  users.*1 = filter (λ sid, sid ≠ "C" ∧ is_Some (userInfo st !! sid))
                    (members st "R") ∧
  ∀ sid name, (sid, name) ∈ users →
              UserInfo.userName <$> userInfo st !! sid = Some name.
Proof.
  intros st users.
  assert (Hout : snd (joinRoom "C" "R" "carol" st)
                 = [("C", existing_users users);
                    ("A", user_joined "C" "carol");
                    ("B", user_joined "C" "carol")])
    by (vm_compute; reflexivity).
  assert (Hin : ("C", existing_users users)
                ∈ snd (joinRoom "C" "R" "carol" st)).
  { rewrite Hout. apply list_elem_of_here. }
  split; [exact Hin|].
  exact (existing_users_snapshot st "C" "R" "carol" "C" users Hin).
Defined.

(** ** Members the gateway loses track of *)

Lemma disconnect_members st client now roomId R :
  userInfo st !! client = Some roomId → UserInfo.roomId roomId ≠ R →
  members (fst (step st (disconnect client now))) R = members st R.
Proof.
  intros Hu HR. simpl.
  rewrite (handleDisconnect_joined client now (socket_close client st) roomId)
    by done.
  simpl.
  change (members (cleanupConnectionTracking now ?s) R) with (members s R).
  rewrite handleUserLeave_members. by rewrite decide_False by congruence.
Qed.

(** X20. admit-user does not look at the room a session asked for.  When
    the recorded host [h] of [roomId] admits a connected session [u] whose
    presence entry names another room, [u] becomes a member of [roomId]
    and is sent join-approved while its presence entry keeps naming the
    other room; when [u] then disconnects, the departure is processed for
    that other room, and [u] stays in the member set of [roomId] with its
    socket closed. *)
Theorem admitting_for_another_room_strands st h u roomId info now :
  roomHosts st !! roomId = Some h → u ∈ sockets st →
  userInfo st !! u = Some info → UserInfo.roomId info ≠ roomId →
  let r1 := handleAdmit h u roomId st in
  let st2 := fst (step (fst r1) (disconnect u now)) in
  (u ∈ members (fst r1) roomId ∧ userInfo (fst r1) !! u = Some info ∧
   (u, join_approved) ∈ snd r1) ∧
  (u ∈ members st2 roomId ∧ (u ∉ sockets st2) ∧ userInfo st2 !! u = None).
Proof.
  intros Hh Hu Hinfo HR. cbv zeta.
  rewrite (handleAdmit_by_host st h u roomId info) by done. cbn [fst snd].
  set (st1 := fst (joinRoom u roomId (UserInfo.userName info) st)).
  assert (Hm1 : u ∈ members st1 roomId).
  { unfold st1. rewrite joinRoom_members, decide_True by done.
    apply elem_of_Set_add. by left. }
  assert (Hinfo1 : userInfo st1 !! u = Some info) by done.
  split; split_and!.
  - done.
  - done.
  - apply elem_of_app. right. apply list_elem_of_here.
  - by rewrite (disconnect_members st1 u now info roomId).
  - simpl.
    rewrite (handleDisconnect_joined u now (socket_close u st1) info) by done.
    simpl. rewrite handleUserLeave_sockets. simpl.
    rewrite elem_of_difference, elem_of_singleton. tauto.
  - apply disconnect_userInfo.
Qed.

Lemma admitting_for_another_room_strands_witness :
  let st := exec initial [connect "A" "10.0.0.1" 0; connect "B" "10.0.0.2" 1;
                          connect "C" "10.0.0.3" 2;
                          join_room "A" "R" "alice" 3;
                          join_room "B" "S" "bob" 4;
                          join_room "C" "S" "carol" 5] in
  let info := UserInfo.mk "S" "carol" 5 in
  let r1 := handleAdmit "A" "C" "R" st in
  let st2 := fst (step (fst r1) (disconnect "C" 9)) in
  (roomHosts st !! "R" = Some "A" ∧ "C" ∈ sockets st ∧
   userInfo st !! "C" = Some info ∧ UserInfo.roomId info ≠ "R") ∧
  ("C" ∈ members (fst r1) "R" ∧ userInfo (fst r1) !! "C" = Some info ∧
   ("C", join_approved) ∈ snd r1) ∧
  ("C" ∈ members st2 "R" ∧ ("C" ∉ sockets st2) ∧ userInfo st2 !! "C" = None).
Proof.
  intros st info.
  assert (Hh : roomHosts st !! "R" = Some "A") by (vm_compute; reflexivity).
  assert (Hu : "C" ∈ sockets st) by decide_by_compute.
  assert (Hinfo : userInfo st !! "C" = Some info) by (vm_compute; reflexivity).
  assert (HR : UserInfo.roomId info ≠ "R") by discriminate.
  split; [by split_and!|].
  exact (admitting_for_another_room_strands st "A" "C" "R" info 9
           Hh Hu Hinfo HR).
Defined.

(** X21. leave-room deletes the presence entry of the sender whatever room
    it names.  When a member [s] of room [S] sends leave-room for another
    room, it loses its presence entry and stays a member of [S]; when it
    then disconnects, no departure is processed, and [s] stays in the
    member set of [S] with its socket closed. *)
Theorem leaving_another_room_strands st s S roomId now now' :
  s ∈ members st S → S ≠ roomId →
  let st1 := fst (handleLeave s roomId now st) in
  let st2 := fst (step st1 (disconnect s now')) in
  (userInfo st1 !! s = None ∧ s ∈ members st1 S) ∧
  (s ∈ members st2 S ∧ (s ∉ sockets st2) ∧ snd (step st1 (disconnect s now')) = []).
Proof.
  intros Hs HS. cbv zeta. unfold handleLeave.
  set (st1 := fst (handleUserLeave s roomId now st)).
  assert (Hu1 : userInfo st1 !! s = None).
  { unfold st1. rewrite handleUserLeave_userInfo. apply lookup_delete_eq. }
  assert (Hm1 : s ∈ members st1 S).
  { unfold st1. rewrite handleUserLeave_members. by rewrite decide_False. }
  simpl.
  rewrite (handleDisconnect_unjoined s now' (socket_close s st1)) by done.
  simpl. split_and!; try done.
  rewrite elem_of_difference, elem_of_singleton. tauto.
Qed.

Lemma leaving_another_room_strands_witness :
  let st := exec initial scenario_two_members in
  let st1 := fst (handleLeave "B" "Q" 7 st) in
  let st2 := fst (step st1 (disconnect "B" 8)) in
  ("B" ∈ members st "R" ∧ "R" ≠ "Q") ∧
  (userInfo st1 !! "B" = None ∧ "B" ∈ members st1 "R") ∧
  ("B" ∈ members st2 "R" ∧ ("B" ∉ sockets st2) ∧
   snd (step st1 (disconnect "B" 8)) = []).
Proof.
  intros st.
  assert (Hs : "B" ∈ members st "R") by decide_by_compute.
  assert (HS : "R" ≠ "Q") by discriminate.
  split; [by split|].
  exact (leaving_another_room_strands st "B" "R" "Q" 7 8 Hs HS).
Defined.

(** ** Clients that follow the protocol *)

Lemma in_no_room_spec sid st :
  in_no_room sid st ↔ ∀ R, sid ∉ members st R.
Proof.
  unfold in_no_room, members. rewrite map_Forall_lookup. split.
  - intros H R. destruct (roomParticipants st !! R) as [l|] eqn:Hl.
    + by apply (H R l).
    + apply not_elem_of_nil.
  - intros H R l Hl. specialize (H R). by rewrite Hl in H.
Qed.

Lemma presence_consistent_joinRoom client roomId userName st :
  UserInfo.roomId <$> userInfo st !! client = Some roomId →
  presence_consistent st →
  presence_consistent (fst (joinRoom client roomId userName st)).
Proof.
  intros Hc Hinv R s. rewrite joinRoom_members.
  change (userInfo (fst (joinRoom client roomId userName st)))
    with (userInfo st).
  case_decide; subst; [|apply Hinv].
  intros [-> | Hs]%elem_of_Set_add; [done | by apply Hinv].
Qed.

Lemma presence_consistent_forget st st' c :
  userInfo st' = delete c (userInfo st) →
  (∀ R s, s ∈ members st' R → s ∈ members st R ∧ s ≠ c) →
  presence_consistent st → presence_consistent st'.
Proof.
  intros Hu Hm Hinv R s Hs. destruct (Hm R s Hs) as [Hold Hne].
  rewrite Hu, lookup_delete_ne by done. by apply Hinv.
Qed.

Lemma presence_consistent_handleUserLeave client roomId now st :
  in_no_other_room client roomId st → presence_consistent st →
  presence_consistent (fst (handleUserLeave client roomId now st)).
Proof.
  rewrite in_no_other_room_spec. intros Hother.
  apply (presence_consistent_forget _ _ client).
  - apply handleUserLeave_userInfo.
  - intros R s. rewrite handleUserLeave_members.
    case_decide as HR; subst.
    + rewrite elem_of_Set_delete. tauto.
    + intros Hs. split; [done|]. intros ->. by apply (Hother R).
Qed.

Lemma presence_consistent_step st i :
  follows_protocol st i = true → presence_consistent st →
  presence_consistent (fst (step st i)).
Proof.
  intros Hp Hinv. destruct i; simpl in Hp |- *; try done.
  - unfold handleConnection. by case_match.
  - apply bool_decide_eq_true_1 in Hp.
    pose proof (proj1 (in_no_room_spec _ _) Hp) as Hno.
    assert (Hset : presence_consistent
              (set_userInfo (<[client := UserInfo.mk roomId userName now]>)
                 st)).
    { intros R s Hs. simpl.
      rewrite lookup_insert_ne; [by apply Hinv|].
      intros <-. by apply (Hno R). }
    destruct (handleJoin_cases client roomId userName now st)
      as [-> | [[out ->] | [[_ ->] | [_ ->]]]]; [done | done | |];
      (apply presence_consistent_joinRoom;
       [simpl; by rewrite lookup_insert_eq | done]).
  - unfold handleAdmit. repeat case_decide; try done.
    destruct (userInfo st !! userId) as [u|] eqn:Hu; [|done].
    apply bool_decide_eq_true_1 in Hp.
    assert (H' : presence_consistent
              (fst (joinRoom userId roomId (UserInfo.userName u) st))).
    { apply presence_consistent_joinRoom; [|done]. rewrite Hu. simpl.
      by rewrite Hp. }
    by destruct (joinRoom userId roomId (UserInfo.userName u) st).
  - apply bool_decide_eq_true_1 in Hp.
    pose proof (proj1 (in_no_room_spec _ _) Hp) as Hno.
    unfold handleReject. repeat case_decide; try done. simpl.
    apply (presence_consistent_forget st _ userId); [done | | done].
    intros R s Hs. split; [done|]. intros ->. by apply (Hno R).
  - apply bool_decide_eq_true_1 in Hp.
    by apply presence_consistent_handleUserLeave.
  - destruct (userInfo (socket_close client st) !! client) as [u|] eqn:Hu.
    + rewrite (handleDisconnect_joined _ _ _ _ Hu). simpl.
      apply (presence_consistent_handleUserLeave client (UserInfo.roomId u)
               now (socket_close client st)); [|done].
      apply in_no_other_room_spec. intros R HR Hin.
      apply Hinv in Hin. change (userInfo st !! client = Some u) in Hu.
      rewrite Hu in Hin. simpl in Hin. congruence.
    + by rewrite (handleDisconnect_unjoined _ _ _ Hu).
  - unfold fireTimeout. destruct (timeouts st !! handle) as [[R d]|]; [|done].
    intros R' s. rewrite roomCleanup_members.
    assert (Hu : userInfo (roomCleanup R (clearTimeout handle st))
                 = userInfo st).
    { unfold roomCleanup. simpl.
      by destruct (roomParticipants st !! R) as [[|x l]|]. }
    rewrite Hu. apply Hinv.
Qed.

Lemma reachable_by_protocol_reachable st :
  reachable_by_protocol st → reachable st.
Proof.
  induction 1; [apply reachable_initial | by apply reachable_step].
Qed.

Lemma reachable_by_protocol_consistent st :
  reachable_by_protocol st → presence_consistent st.
Proof.
  induction 1 as [|st i _ IH _ Hp].
  - intros R s Hs. unfold members in Hs. simpl in Hs.
    rewrite lookup_empty in Hs. by apply not_elem_of_nil in Hs.
  - by apply presence_consistent_step.
Qed.

Lemma run_by_protocol_reachable inputs : ∀ st st',
  reachable_by_protocol st → run_by_protocol st inputs = Some st' →
  reachable_by_protocol st'.
Proof.
  induction inputs as [|i inputs IH]; intros st st' Hst Hrun; simpl in Hrun.
  - by inversion Hrun; subst.
  - destruct (enabled st i) eqn:Hen; [|done].
    destruct (follows_protocol st i) eqn:Hp; [|done].
    eapply IH; [|exact Hrun]. by apply reachable_by_protocol_step.
Qed.


(** X22. When every client follows the protocol (joins only while in no
    room, admits only into the room the applicant asked for, rejects only
    sessions that are in no room, leaves only the room it is in), the
    tables stay consistent in every state reached: each member of a room
    has a presence entry naming that room and an open socket, no session is
    in two rooms, and the socket.io room named by a room id holds every
    member of the room and, besides them, at most the socket whose own id
    is the room id.  None of these checks is made by the gateway itself. *)
Theorem protocol_keeps_tables_consistent st :
  reachable_by_protocol st →
  presence_consistent st ∧
  (∀ roomId sid, sid ∈ members st roomId → sid ∈ sockets st) ∧
  at_most_one_room st ∧
  ∀ roomId sid,
    (sid ∈ members st roomId → sid ∈ room_sockets st roomId) ∧
    (sid ∈ room_sockets st roomId → sid = roomId ∨ sid ∈ members st roomId).
Proof.
  intros Hp.
  pose proof (reachable_by_protocol_consistent st Hp) as Hpc.
  pose proof (reachable_by_protocol_reachable st Hp) as Hst.
  assert (Hopen : ∀ R s, s ∈ members st R → s ∈ sockets st).
  { intros R s Hs%Hpc. apply (reachable_presence_is_open st Hst).
    destruct (userInfo st !! s); [eauto | done]. }
  split_and!; [done | done | |].
  - intros s R1 R2 H1%Hpc H2%Hpc. congruence.
  - intros R sid.
    destruct (reachable_transport_mirrors st Hst R sid) as [H1 H2]. split.
    + intros Hm. apply H1; [done|]. by apply (Hopen R).
    + intros Hr. by destruct (H2 Hr).
Qed.

Lemma protocol_keeps_tables_consistent_witness :
  let st := exec initial scenario_by_the_book in
  reachable_by_protocol st ∧
  presence_consistent st ∧
  (∀ roomId sid, sid ∈ members st roomId → sid ∈ sockets st) ∧
  at_most_one_room st ∧
  ∀ roomId sid,
    (sid ∈ members st roomId → sid ∈ room_sockets st roomId) ∧
    (sid ∈ room_sockets st roomId → sid = roomId ∨ sid ∈ members st roomId).
Proof.
  intros st.
  assert (Hp : reachable_by_protocol st).
  { apply (run_by_protocol_reachable scenario_by_the_book initial);
      [apply reachable_by_protocol_initial | vm_compute; reflexivity]. }
  split; [exact Hp|]. exact (protocol_keeps_tables_consistent st Hp).
Defined.

(** ** Media notifications *)

(** X23. toggle-media and screen-share-status are not checked against the
    member sets.  In a reachable state, sent by any session [c] for any
    room id, they leave the state as it is and deliver the notification to
    the sockets of the socket.io room of that id that are not in the
    socket.io room named by the id of [c].  Every member of the room with
    an open socket that is not in the room named [c] gets it, whether or
    not [c] is a member, and the one socket that can get it without being
    a member is the socket whose own id is the room id.  The screen-share
    notification carries the display name of the sender's presence entry,
    if it has one. *)
Theorem media_notifications_reach_the_room st c roomId kind isOn isSharing :
  reachable st →
  let audience :=
    filter (λ sid, sid ∉ room_sockets st c) (room_sockets st roomId) in
  handleMediaToggle c roomId kind isOn st
  = (st, (λ sid, (sid, media_status_update c kind isOn)) <$> audience) ∧
  handleScreenShareStatus c roomId isSharing st
  = (st, (λ sid, (sid, participant_screen_share c
                         (UserInfo.userName <$> userInfo st !! c) isSharing))
           <$> audience) ∧
  (∀ sid, sid ∈ members st roomId → sid ∈ sockets st →
          sid ∉ room_sockets st c → sid ∈ audience) ∧
  (∀ sid, sid ∈ audience →
          sid ∈ sockets st ∧ (sid = roomId ∨ sid ∈ members st roomId)).
Proof.
  intros Hst audience. unfold handleMediaToggle, handleScreenShareStatus.
  pose proof (reachable_transport_mirrors st Hst roomId) as Hinv.
  unfold broadcast.
  rewrite (filter_members_all (λ sid, sid ∈ sockets st))
    by (intros; by apply Hinv).
  split_and!; try done.
  - intros sid Hm Hs Hex. apply list_elem_of_filter. split; [done|].
    by apply (Hinv sid).
  - intros sid [_ Hr]%list_elem_of_filter. by apply (Hinv sid).
Qed.

Lemma media_notifications_reach_the_room_witness :
  let st := exec initial scenario_bystander in
  let audience :=
    filter (λ sid, sid ∉ room_sockets st "C") (room_sockets st "R") in
  (reachable st ∧ ("C" ∉ members st "R") ∧ audience = ["A"; "B"]) ∧
  handleMediaToggle "C" "R" audio true st
  = (st, (λ sid, (sid, media_status_update "C" audio true)) <$> audience) ∧
  handleScreenShareStatus "C" "R" true st
  = (st, (λ sid, (sid, participant_screen_share "C"
                         (UserInfo.userName <$> userInfo st !! "C") true))
           <$> audience) ∧
  (∀ sid, sid ∈ members st "R" → sid ∈ sockets st →
          sid ∉ room_sockets st "C" → sid ∈ audience) ∧
  (∀ sid, sid ∈ audience →
          sid ∈ sockets st ∧ (sid = "R" ∨ sid ∈ members st "R")).
Proof.
  intros st audience.
  assert (Hst : reachable st).
  { apply (run_reachable scenario_bystander initial);
      [apply reachable_initial | vm_compute; reflexivity]. }
  split; [split_and!;
          [exact Hst | decide_by_compute | vm_compute; reflexivity]|].
  exact (media_notifications_reach_the_room st "C" "R" audio true true Hst).
Defined.

(** ** Reclaiming an empty room *)

Lemma handles_belong_step st i :
  handles_belong st → handles_belong (fst (step st i)).
Proof.
  intros Hinv.
  assert (Hsame : ∀ st', timeouts st' = timeouts st →
                         cleanupTimers st' = cleanupTimers st →
                         nextTimeout st' = nextTimeout st →
                         handles_belong st').
  { intros st' Ht Hc Hn R h. rewrite Ht, Hc, Hn. apply Hinv. }
  assert (Hleave : ∀ c roomId now st0,
    timeouts st0 = timeouts st → cleanupTimers st0 = cleanupTimers st →
    nextTimeout st0 = nextTimeout st →
    handles_belong (fst (handleUserLeave c roomId now st0))).
  { intros c roomId now st0 Ht Hc Hn R h.
    destruct (handleUserLeave_timers c roomId now st0) as (-> & -> & ->).
    rewrite scheduleRoomCleanup_state. simpl. rewrite Ht, Hc, Hn.
    destruct (decide (R = roomId)) as [->|HR].
    - rewrite lookup_insert_eq. intros [= <-]. split; [lia|].
      intros R' d. rewrite lookup_insert_eq. by intros [= <- _].
    - rewrite lookup_insert_ne by done. intros Hh.
      destruct (Hinv R h Hh) as [Hlt Hown]. split; [lia|].
      intros R' d. rewrite lookup_insert_ne by lia. intros Harmed.
      apply (Hown R' d).
      destruct (cleanupTimers st !! roomId); [|done].
      apply lookup_delete_Some in Harmed. tauto. }
  destruct i; simpl; try (by apply Hsame).
  - apply Hsame; unfold handleConnection; by case_match.
  - destruct (handleJoin_timers client roomId userName now st) as (?&?&?).
    by apply Hsame.
  - destruct (handleAdmit_timers client userId roomId st) as (?&?&?).
    by apply Hsame.
  - apply Hsame; unfold handleReject; by repeat case_decide.
  - by apply Hleave.
  - destruct (userInfo (socket_close client st) !! client) as [u|] eqn:Hu.
    + rewrite (handleDisconnect_joined _ _ _ _ Hu). simpl.
      intros R h. apply (Hleave client (UserInfo.roomId u) now
                           (socket_close client st)); done.
    + rewrite (handleDisconnect_unjoined _ _ _ Hu). by apply Hsame.
  - unfold fireTimeout.
    destruct (timeouts st !! handle) as [[roomId d0]|]; [|done].
    intros R h Hh.
    assert (Hold : cleanupTimers st !! R = Some h).
    { unfold roomCleanup in Hh. simpl in Hh.
      destruct (roomParticipants st !! roomId) as [[|x l]|]; simpl in Hh;
        try done; apply lookup_delete_Some in Hh; tauto. }
    destruct (Hinv R h Hold) as [Hlt Hown].
    assert (Hfields : nextTimeout (roomCleanup roomId
                                     (clearTimeout handle st))
                      = nextTimeout st ∧
                      timeouts (roomCleanup roomId (clearTimeout handle st))
                      = delete handle (timeouts st)).
    { unfold roomCleanup. simpl.
      by destruct (roomParticipants st !! roomId) as [[|x l]|]. }
    destruct Hfields as [-> ->]. split; [done|].
    intros R' d Harmed. apply lookup_delete_Some in Harmed as [_ Harmed].
    by apply (Hown R' d).
Qed.

Lemma reachable_handles_belong st : reachable st → handles_belong st.
Proof.
  induction 1 as [|st i _ IH _].
  - intros R h Hh. simpl in Hh. by rewrite lookup_empty in Hh.
  - by apply handles_belong_step.
Qed.

(** An input empties a member set only by taking its last member out. *)
Lemma step_keeps_members st i R :
  members st R ≠ [] → members (fst (step st i)) R = [] →
  ∃ now, (∃ c, i = leave_room c R now) ∨ (∃ c, i = disconnect c now).
Proof.
  intros Hm Hnil.
  assert (Hjoin : ∀ c roomId userName st0,
    members st0 R = members st R →
    members (fst (joinRoom c roomId userName st0)) R ≠ []).
  { intros c roomId userName st0 H0. rewrite joinRoom_members.
    case_decide; subst; [|by rewrite H0].
    unfold Set_add. case_decide; [by rewrite H0|].
    by destruct (members st0 roomId). }
  destruct i; simpl in Hnil; try done.
  - unfold handleConnection in Hnil. by case_match.
  - destruct (handleJoin_cases client roomId userName now st)
      as [H | [[out H] | [[_ H] | [_ H]]]]; rewrite H in Hnil;
      [done | done | |]; by apply Hjoin in Hnil.
  - unfold handleAdmit in Hnil. repeat case_decide; try done.
    destruct (userInfo st !! userId) as [u|]; [|done].
    pose proof (Hjoin userId roomId (UserInfo.userName u) st eq_refl) as H'.
    by destruct (joinRoom userId roomId (UserInfo.userName u) st).
  - unfold handleReject in Hnil. by repeat case_decide.
  - exists now. left. exists client. unfold handleLeave in Hnil.
    rewrite handleUserLeave_members in Hnil.
    by case_decide; subst.
  - exists now. right. eauto.
  - unfold fireTimeout in Hnil.
    destruct (timeouts st !! handle) as [[roomId d]|]; [|done].
    by rewrite roomCleanup_members in Hnil.
Qed.

Lemma entries_accounted_step st i :
  handles_belong st → entries_accounted st →
  entries_accounted (fst (step st i)).
Proof.
  intros Hown Hinv.
  assert (Hgrow : (∀ c R now, i ≠ leave_room c R now) →
                  (∀ c now, i ≠ disconnect c now) →
                  ∀ R, members st R ≠ [] → members (fst (step st i)) R ≠ []).
  { intros H1 H2 R Hm Hnil.
    destruct (step_keeps_members st i R Hm Hnil) as [now [[c ->] | [c ->]]];
      [by eapply H1 | by eapply H2]. }
  assert (Hsame :
    timeouts (fst (step st i)) = timeouts st →
    cleanupTimers (fst (step st i)) = cleanupTimers st →
    (∀ c R now, i ≠ leave_room c R now) → (∀ c now, i ≠ disconnect c now) →
    entries_accounted (fst (step st i))).
  { intros Ht Hc H1 H2 R h. rewrite Ht, Hc. intros Hh.
    destruct (Hinv R h Hh) as [? | ?]; [by left | right; by apply Hgrow]. }
  assert (Hleave : ∀ c roomId now st0,
    timeouts st0 = timeouts st → cleanupTimers st0 = cleanupTimers st →
    nextTimeout st0 = nextTimeout st → members st0 = members st →
    entries_accounted (fst (handleUserLeave c roomId now st0))).
  { intros c roomId now st0 Ht Hc Hn Hm R h.
    rewrite handleUserLeave_members, Hm.
    destruct (handleUserLeave_timers c roomId now st0) as (-> & -> & _).
    rewrite scheduleRoomCleanup_state. simpl. rewrite Ht, Hc, Hn.
    destruct (decide (R = roomId)) as [->|HR].
    - rewrite lookup_insert_eq. intros [= <-]. left.
      rewrite lookup_insert_eq. eauto.
    - rewrite lookup_insert_ne by done. intros Hh.
      destruct (Hown R h Hh) as [Hlt Hroom].
      destruct (Hinv R h Hh) as [[[R' d] Harmed] | ?]; [left | by right].
      rewrite lookup_insert_ne by lia.
      destruct (cleanupTimers st !! roomId) as [e|] eqn:He; [|eauto].
      rewrite lookup_delete_ne; [eauto|]. intros <-.
      destruct (Hown roomId e He) as [_ Hroom'].
      apply HR. rewrite <- (Hroom R' d Harmed). by apply (Hroom' R' d). }
  clear Hgrow. destruct i.
  - apply Hsame; try done; simpl; unfold handleConnection; by case_match.
  - destruct (handleJoin_timers client roomId userName now st) as (?&?&?).
    by apply Hsame.
  - destruct (handleAdmit_timers client userId roomId st) as (?&?&?).
    by apply Hsame.
  - apply Hsame; try done; simpl; unfold handleReject; by repeat case_decide.
  - by apply Hsame.
  - by apply Hsame.
  - by apply Hsame.
  - by apply Hleave.
  - by apply Hsame.
  - by apply Hsame.
  - simpl.
    destruct (userInfo (socket_close client st) !! client) as [u|] eqn:Hu.
    + rewrite (handleDisconnect_joined _ _ _ _ Hu). simpl.
      intros R h. apply (Hleave client (UserInfo.roomId u) now
                           (socket_close client st)); done.
    + rewrite (handleDisconnect_unjoined _ _ _ Hu). simpl.
      intros R h. apply Hinv.
  - clear Hsame Hleave. simpl. unfold fireTimeout.
    destruct (timeouts st !! handle) as [[roomId d0]|] eqn:Hfired; [|done].
    intros R h. rewrite roomCleanup_members.
    change (members (clearTimeout handle st) R) with (members st R).
    intros Hh.
    assert (Hfields :
      timeouts (roomCleanup roomId (clearTimeout handle st))
      = delete handle (timeouts st)).
    { unfold roomCleanup. simpl.
      by destruct (roomParticipants st !! roomId) as [[|x l]|]. }
    rewrite Hfields.
    assert (Hold : cleanupTimers st !! R = Some h).
    { unfold roomCleanup in Hh. simpl in Hh.
      destruct (roomParticipants st !! roomId) as [[|x l]|]; simpl in Hh;
        try done; apply lookup_delete_Some in Hh; tauto. }
    destruct (Hinv R h Hold) as [[[R' d] Harmed] | ?]; [|by right].
    destruct (decide (members st R = [])) as [Hnil|]; [|by right]. left.
    rewrite lookup_delete_ne; [eauto|]. intros <-.
    destruct (Hown R handle Hold) as [_ Hroom].
    pose proof (Hroom roomId d0 Hfired) as ->.
    unfold roomCleanup, members in Hh, Hnil. simpl in Hh.
    destruct (roomParticipants st !! R) as [[|x l]|]; simpl in Hh, Hnil;
      try done; by rewrite lookup_delete_eq in Hh.
Qed.

Lemma reachable_entries_accounted st : reachable st → entries_accounted st.
Proof.
  induction 1 as [|st i Hst IH _].
  - intros R h Hh. simpl in Hh. by rewrite lookup_empty in Hh.
  - apply entries_accounted_step; [by apply reachable_handles_belong | done].
Qed.

(** X24. The record of an empty room is reclaimed in full.  In a
    reachable state a room that has no members and no armed cleanup task
    has no entry left in [roomParticipants], in [roomHosts] or in
    [cleanupTimers]: once the task armed by the last departure has fired,
    these three tables hold nothing about the room.  (The presence table
    is not covered: the entry of an applicant that was left waiting can
    still name the room.) *)
Theorem empty_room_leaves_no_trace st roomId :
  reachable st → members st roomId = [] →
  (∀ h deadline, timeouts st !! h ≠ Some (roomId, deadline)) →
  roomParticipants st !! roomId = None ∧ roomHosts st !! roomId = None ∧
  cleanupTimers st !! roomId = None.
Proof.
  intros Hst Hm Hidle.
  destruct (reachable_empty_room_unrecorded st roomId Hst Hm) as [Hp Hh].
  split_and!; [done | done |].
  destruct (cleanupTimers st !! roomId) as [h|] eqn:Hc; [|done]. exfalso.
  destruct (reachable_entries_accounted st Hst roomId h Hc)
    as [[[R d] Harmed] | Hne]; [|done].
  destruct (reachable_handles_belong st Hst roomId h Hc) as [_ Hroom].
  pose proof (Hroom R d Harmed) as ->. by apply (Hidle h d).
Qed.

Lemma empty_room_leaves_no_trace_witness :
  let st := exec initial (scenario_emptied ++ [timeout 0%nat 30003]) in
  (reachable st ∧ members st "R" = [] ∧
   ∀ h deadline, timeouts st !! h ≠ Some ("R", deadline)) ∧
  roomParticipants st !! "R" = None ∧ roomHosts st !! "R" = None ∧
  cleanupTimers st !! "R" = None.
Proof.
  intros st.
  assert (Hst : reachable st).
  { apply (run_reachable (scenario_emptied ++ [timeout 0%nat 30003]) initial);
      [apply reachable_initial | vm_compute; reflexivity]. }
  assert (Hm : members st "R" = []) by (vm_compute; reflexivity).
  assert (Hidle : ∀ h deadline, timeouts st !! h ≠ Some ("R", deadline)).
  { assert (Ht : timeouts st = ∅) by (vm_compute; reflexivity).
    intros h d. rewrite Ht, lookup_empty. discriminate. }
  split; [by split_and!|].
  exact (empty_room_leaves_no_trace st "R" Hst Hm Hidle).
Defined.

(** ** Relayed messages *)

(** X25. The [from] field of a relayed message cannot be forged, and its
    destination is not checked.  Whatever the state, when an input makes
    the gateway deliver an offer, an answer or an ice-candidate to [r], the
    input is the matching relay request, sent by the session named in the
    [from] field with the same payload for some destination [to]; [r] is a
    connected socket of the socket.io room named [to], the state is left as
    it was, and the output is the broadcast to that room alone.  In a
    reachable state [r] is the session whose id is [to] or a member of the
    room whose id is [to]. *)
Theorem relayed_messages_are_authentic st i r m :
  (r, m) ∈ snd (step st i) → relayed m = true →
  ∃ to, relay_origin to m = Some i ∧
        r ∈ sockets st ∧ r ∈ room_sockets st to ∧
        step st i = (st, server_to st to m) ∧
        (reachable st → r = to ∨ r ∈ members st to).
Proof.
  intros Hin Hm.
  assert (Hrelay : ∀ to m0,
    (r, m) ∈ server_to st to m0 →
    m = m0 ∧ r ∈ sockets st ∧ r ∈ room_sockets st to ∧
    (reachable st → r = to ∨ r ∈ members st to)).
  { intros to m0 (-> & Hs & Hr)%elem_of_server_to. split_and!; try done.
    intros Hst. by destruct (proj2 (reachable_transport_mirrors st Hst to r) Hr). }
  destruct i; simpl in Hin.
  - by apply not_elem_of_nil in Hin.
  - apply handleJoin_out_kinds in Hin.
    destruct Hin as [[_ ->] | [-> | [[_ [? ->]] | [-> ?]]]]; discriminate.
  - apply handleAdmit_out_kinds in Hin as (_ & _ & _ & Hk).
    destruct Hk as [[_ [? ->]] | [[? [-> ?]] | [_ ->]]]; discriminate.
  - unfold handleReject in Hin. repeat case_decide;
      try (by apply not_elem_of_nil in Hin).
    by apply list_elem_of_singleton in Hin as [= -> ->].
  - apply Hrelay in Hin as (-> & ? & ? & ?). by exists to.
  - apply Hrelay in Hin as (-> & ? & ? & ?). by exists to.
  - apply Hrelay in Hin as (-> & ? & ? & ?). by exists to.
  - apply handleUserLeave_out_kinds in Hin.
    destruct Hin as [[? [-> ?]] | [-> _]]; discriminate.
  - by apply elem_of_broadcast in Hin as (-> & _).
  - by apply elem_of_broadcast in Hin as (-> & _).
  - destruct (userInfo (socket_close client st) !! client) as [u|] eqn:Hu.
    + rewrite (handleDisconnect_joined _ _ _ _ Hu) in Hin. simpl in Hin.
      apply handleUserLeave_out_kinds in Hin.
      destruct Hin as [[? [-> ?]] | [-> _]]; discriminate.
    + rewrite (handleDisconnect_unjoined _ _ _ Hu) in Hin.
      by apply not_elem_of_nil in Hin.
  - by apply not_elem_of_nil in Hin.
Qed.

Lemma relayed_messages_are_authentic_witness :
  let st := exec initial scenario_two_members in
  let i := send_offer "A" "R" "sdp" "alice" in
  let m := offer "A" "sdp" "alice" in
  (snd (step st i) = [("A", m); ("B", m)] ∧
   ("B", m) ∈ snd (step st i) ∧ relayed m = true) ∧
  ∃ to, relay_origin to m = Some i ∧
        "B" ∈ sockets st ∧ "B" ∈ room_sockets st to ∧
        step st i = (st, server_to st to m) ∧
        (reachable st → "B" = to ∨ "B" ∈ members st to).
Proof.
  intros st i m.
  assert (Hout : snd (step st i) = [("A", m); ("B", m)])
    by (vm_compute; reflexivity).
  assert (Hin : ("B", m) ∈ snd (step st i)).
  { rewrite Hout. apply list_elem_of_further, list_elem_of_here. }
  assert (Hm : relayed m = true) by reflexivity.
  split; [by split_and!|].
  exact (relayed_messages_are_authentic st i "B" m Hin Hm).
Defined.

(** ** A refused connection *)

(** X26. A refused connection leaves no trace.  In a reachable state, when
    the limiter refuses a new socket, the attempt is not recorded and
    every table of the gateway, the set of open sockets and the contents
    of the transport rooms are what they were: refused attempts do not
    prolong the refusal. *)
Theorem refused_connection_changes_nothing st client ip now :
  reachable st → enabled st (connect client ip now) = true →
  snd (handleConnection client ip now st) = false →
  let st' := fst (step st (connect client ip now)) in
  (connectionAttempts st' = connectionAttempts st ∧
   userInfo st' = userInfo st ∧ roomHosts st' = roomHosts st ∧
   roomParticipants st' = roomParticipants st ∧
   cleanupTimers st' = cleanupTimers st ∧ timeouts st' = timeouts st) ∧
  sockets st' = sockets st ∧
  ∀ roomId, default [] (rooms st' !! roomId) = default [] (rooms st !! roomId).
Proof.
  intros Hst Hen Href. simpl in Hen |- *.
  apply andb_prop in Hen as [_ [Hnew Hfresh]%bool_decide_eq_true_1].
  unfold handleConnection in Href |- *.
  change (connectionAttempts (socket_open client st))
    with (connectionAttempts st).
  destruct (Nat.ltb 50 _); [|discriminate Href].
  cbn [fst].
  assert (Hout : ∀ R, client ∉ room_sockets st R).
  { intros R Hin.
    by destruct (proj2 (reachable_transport_mirrors st Hst R client) Hin). }
  split_and!; try done.
  - simpl. apply set_eq. intros x.
    rewrite elem_of_difference, elem_of_union, elem_of_singleton.
    split; [tauto|]. intros Hx. split; [tauto|]. by intros ->.
  - intros R.
    change (room_sockets (socket_close client (socket_open client st)) R
            = room_sockets st R).
    rewrite socket_close_rooms, socket_open_rooms.
    case_decide; subst; rewrite ?Set_delete_Set_add;
      by apply Set_delete_notin.
Qed.

Lemma refused_connection_changes_nothing_witness :
  let st := exec initial ((λ '(c, t), connect c "10.0.0.1" t) <$> burst 51 0) in
  (reachable st ∧ enabled st (connect "Z" "10.0.0.1" 9) = true ∧
   snd (handleConnection "Z" "10.0.0.1" 9 st) = false) ∧
  let st' := fst (step st (connect "Z" "10.0.0.1" 9)) in
  (connectionAttempts st' = connectionAttempts st ∧
   userInfo st' = userInfo st ∧ roomHosts st' = roomHosts st ∧
   roomParticipants st' = roomParticipants st ∧
   cleanupTimers st' = cleanupTimers st ∧ timeouts st' = timeouts st) ∧
  sockets st' = sockets st ∧
  ∀ roomId, default [] (rooms st' !! roomId) = default [] (rooms st !! roomId).
Proof.
  intros st.
  assert (Hst : reachable st).
  { apply (run_reachable ((λ '(c, t), connect c "10.0.0.1" t) <$> burst 51 0)
             initial);
      [apply reachable_initial | vm_compute; reflexivity]. }
  assert (Hen : enabled st (connect "Z" "10.0.0.1" 9) = true)
    by (vm_compute; reflexivity).
  assert (Href : snd (handleConnection "Z" "10.0.0.1" 9 st) = false)
    by (vm_compute; reflexivity).
  split; [by split_and!|].
  exact (refused_connection_changes_nothing st "Z" "10.0.0.1" 9
           Hst Hen Href).
Defined.
